(** * file-type: content-based file type detection

    A shallow embedding of [dist/index.js] (the bundled strtok3 tokenizer,
    the token-types codecs and the [FileTypeParser] dispatcher) together with
    the properties of the detector that the specification states.

    Conventions of the embedding:
    - a [Uint8Array] / [Buffer] is a [list byte]; a JavaScript number that
      holds an integer is a [Z]; [undefined] read from an array is [None];
    - a JavaScript string is the list of its UTF-16 code units;
    - the tokenizer is a record that is threaded through a state-and-exception
      monad; a thrown error keeps the tokenizer state at the point of the
      throw, because the tokenizer is a shared mutable object;
    - loops and the recursive re-entry of the dispatcher take a [fuel]
      argument; running out of fuel is the distinguished outcome [OutOfFuel]
      and never a made-up value. *)

From Stdlib Require Import ZArith List Bool Lia String Ascii.
From Stdlib Require Import Strings.Byte.
Import ListNotations.
Local Open Scope Z_scope.

(* ================================================================== *)
(** ** JavaScript numbers and bit operators *)
(* ================================================================== *)

(** [ToInt32] of an integral number: wrap to the signed 32-bit range. *)
Definition ToInt32 (x : Z) : Z := (x + 2 ^ 31) mod 2 ^ 32 - 2 ^ 31.

(** [ToInt32(undefined)] is [0] (through [NaN]). *)
Definition ToInt32_opt (v : option Z) : Z :=
  match v with Some x => ToInt32 x | None => 0 end.

(** [a & b], [a | b], [a ^ b], [a << k], [a >> k] on numbers. *)
Definition js_and (a b : Z) : Z := Z.land (ToInt32 a) (ToInt32 b).
Definition js_or (a b : Z) : Z := Z.lor (ToInt32 a) (ToInt32 b).
Definition js_xor (a b : Z) : Z := Z.lxor (ToInt32 a) (ToInt32 b).
Definition js_shl (a k : Z) : Z := ToInt32 (Z.shiftl (ToInt32 a) (k mod 32)).
Definition js_sar (a k : Z) : Z := Z.shiftr (ToInt32 a) (k mod 32).

(** The same operators when an operand was read from an array and may be
    [undefined]. *)
Definition js_and_opt (a b : option Z) : Z := Z.land (ToInt32_opt a) (ToInt32_opt b).
Definition js_shl_opt (a : option Z) (k : Z) : Z :=
  ToInt32 (Z.shiftl (ToInt32_opt a) (k mod 32)).

(** [header !== value] where [header] is a number and [value] may be
    [undefined]: a number is never strictly equal to [undefined]. *)
Definition strict_eq (header : Z) (value : option Z) : bool :=
  match value with Some v => header =? v | None => false end.

(** Rounding of an integer to the nearest IEEE-754 double (ties to even), as
    done by [Number(bigint)] and by arithmetic on numbers beyond 2^53. *)
Definition round_double (z : Z) : Z :=
  let a := Z.abs z in
  if a <? 2 ^ 53 then z
  else
    let ulp := 2 ^ (Z.log2 a - 52) in
    let q := a / ulp in
    let r := a mod ulp in
    let q' := if (2 * r <? ulp) then q
              else if (ulp <? 2 * r) then q + 1
              else if Z.even q then q else q + 1 in
    Z.sgn z * (q' * ulp).

Definition MAX_SAFE_INTEGER : Z := 2 ^ 53 - 1.

(* ================================================================== *)
(** ** Byte arrays *)
(* ================================================================== *)

Definition Buffer := list byte.

Definition byte_Z (b : byte) : Z := Z.of_N (Byte.to_N b).

(** The byte stored for a number written into a [Uint8Array] (modulo 256). *)
Definition Z_byte (z : Z) : byte :=
  match Byte.of_N (Z.to_N (z mod 256)) with Some b => b | None => x00 end.

Definition buf_length (b : Buffer) : Z := Z.of_nat (List.length b).

(** [Buffer.alloc(n)]: [n] zero bytes. *)
Definition Buffer_alloc (n : Z) : Buffer := repeat x00 (Z.to_nat n).

(** [buffer[i]]: [undefined] outside [0 .. length-1]. *)
Definition buf_get (b : Buffer) (i : Z) : option Z :=
  if i <? 0 then None else option_map byte_Z (nth_error b (Z.to_nat i)).

(** [array[i]] on an array of numbers. *)
Definition arr_get (a : list Z) (i : Z) : option Z :=
  if i <? 0 then None else nth_error a (Z.to_nat i).

(** Relative index of [subarray] / [slice]: negative counts from the end,
    then clamped to [0 .. length]. *)
Definition rel_index (len i : Z) : Z :=
  if i <? 0 then Z.max (len + i) 0 else Z.min i len.

(** [array.subarray(begin, end)]. *)
Definition subarray (b : Buffer) (begin_ end_ : Z) : Buffer :=
  let len := buf_length b in
  let s := rel_index len begin_ in
  let e := rel_index len end_ in
  firstn (Z.to_nat (e - s)) (skipn (Z.to_nat s) b).

(** Errors that the code throws or that the runtime raises on its behalf. *)
Inductive error : Type :=
| EndOfStreamError
| Error (message : string)
| TypeError (message : string)
| RangeError (message : string).

Definition is_EndOfStreamError (e : error) : bool :=
  match e with EndOfStreamError => true | _ => false end.

(** [target.set(source, offset)]: a [RangeError] when the source does not
    fit, otherwise the target with the source copied in at [offset]. *)
Definition buf_set (target source : Buffer) (offset : Z) : error + Buffer :=
  if (offset <? 0) || (buf_length target <? offset + buf_length source)
  then inl (RangeError "offset is out of bounds")
  else inr (firstn (Z.to_nat offset) target ++ source
            ++ skipn (Z.to_nat offset + List.length source) target).

(** Big- and little-endian unsigned integers over a byte list. *)
Fixpoint uint_be_acc (acc : Z) (l : Buffer) : Z :=
  match l with
  | [] => acc
  | b :: r => uint_be_acc (acc * 256 + byte_Z b) r
  end.
Definition uint_be (l : Buffer) : Z := uint_be_acc 0 l.
Definition uint_le (l : Buffer) : Z := uint_be (rev l).

(** The [n] bytes at [offset], or a [RangeError] when they are not all inside
    the array: the bounds check of [DataView] getters and of
    [Buffer.readUInt..]. *)
Definition bytes_at (b : Buffer) (offset n : Z) : error + Buffer :=
  if (offset <? 0) || (buf_length b <? offset + n)
  then inl (RangeError "Offset is outside the bounds of the DataView")
  else inr (firstn (Z.to_nat n) (skipn (Z.to_nat offset) b)).

Definition map_except {A B} (f : A -> B) (x : error + A) : error + B :=
  match x with inl e => inl e | inr a => inr (f a) end.

Definition readUInt32LE (b : Buffer) (offset : Z) : error + Z :=
  map_except uint_le (bytes_at b offset 4).
Definition readUInt16LE (b : Buffer) (offset : Z) : error + Z :=
  map_except uint_le (bytes_at b offset 2).

(** [buffer.readUIntBE(offset, byteLength)]: [byteLength] must be 1..6. *)
Definition readUIntBE (b : Buffer) (offset byteLength : Z) : error + Z :=
  if (byteLength <? 1) || (6 <? byteLength)
  then inl (RangeError "The value of byteLength is out of range")
  else map_except uint_be (bytes_at b offset byteLength).

(** First index at which [needle] occurs in [hay] at or after [from], or -1:
    [buffer.indexOf(needle)] for a non-empty needle. *)
Fixpoint prefix_eqb (needle hay : Buffer) : bool :=
  match needle, hay with
  | [], _ => true
  | _ :: _, [] => false
  | x :: n', y :: h' => Byte.eqb x y && prefix_eqb n' h'
  end.

Fixpoint indexOf_from (needle hay : Buffer) (from : Z) : Z :=
  match hay with
  | [] => -1
  | _ :: h' => if prefix_eqb needle hay then from
               else indexOf_from needle h' (from + 1)
  end.

Definition buf_indexOf (hay needle : Buffer) : Z := indexOf_from needle hay 0.
Definition buf_includes (hay needle : Buffer) : bool := 0 <=? buf_indexOf hay needle.

(* ================================================================== *)
(** ** JavaScript strings *)
(* ================================================================== *)

(** A string is the list of its UTF-16 code units. *)
Definition JSString := list Z.

(** A string literal of the source (all literals are ASCII). *)
Definition str (s : string) : JSString :=
  map (fun a => Z.of_N (N_of_ascii a)) (list_ascii_of_string s).

Fixpoint jsstr_eqb (a b : JSString) : bool :=
  match a, b with
  | [], [] => true
  | x :: a', y :: b' => (x =? y) && jsstr_eqb a' b'
  | _, _ => false
  end.

Fixpoint startsWith (s p : JSString) : bool :=
  match p, s with
  | [], _ => true
  | _ :: _, [] => false
  | x :: p', y :: s' => (x =? y) && startsWith s' p'
  end.

Definition endsWith (s p : JSString) : bool := startsWith (rev s) (rev p).

(** [s.split(sep)[0]] for a one-character separator: the characters before
    its first occurrence. *)
Fixpoint split_first (s : JSString) (sep : Z) : JSString :=
  match s with
  | [] => []
  | c :: r => if c =? sep then [] else c :: split_first r sep
  end.

(** [s.replace(a, b)] with one-character strings: the first occurrence only. *)
Fixpoint replace_first (s : JSString) (a b : Z) : JSString :=
  match s with
  | [] => []
  | c :: r => if c =? a then b :: r else c :: replace_first r a b
  end.

(** WhiteSpace and LineTerminator code units, as removed by [trim] and
    skipped by [parseInt]. *)
Definition is_whitespace (c : Z) : bool :=
  (c =? 0x09) || (c =? 0x0A) || (c =? 0x0B) || (c =? 0x0C) || (c =? 0x0D)
  || (c =? 0x20) || (c =? 0xA0) || (c =? 0x1680)
  || ((0x2000 <=? c) && (c <=? 0x200A))
  || (c =? 0x2028) || (c =? 0x2029) || (c =? 0x202F) || (c =? 0x205F)
  || (c =? 0x3000) || (c =? 0xFEFF).

(** The characters that [.] of a regular expression does not match. *)
Definition is_line_terminator (c : Z) : bool :=
  (c =? 0x0A) || (c =? 0x0D) || (c =? 0x2028) || (c =? 0x2029).

Fixpoint trimStart (s : JSString) : JSString :=
  match s with
  | [] => []
  | c :: r => if is_whitespace c then trimStart r else s
  end.

Definition trim (s : JSString) : JSString := rev (trimStart (rev (trimStart s))).

(** [s.replace(/\0.*$/, '')]: the match starts at the leftmost NUL after
    which no line terminator occurs (only then can [.*] reach [$]); the
    string is cut there.  With the [g] flag the result is the same, since the
    match runs to the end of the string. *)
Fixpoint strip_nul_tail (s : JSString) : JSString :=
  match s with
  | [] => []
  | c :: r =>
      if (c =? 0) && negb (existsb is_line_terminator r) then []
      else c :: strip_nul_tail r
  end.

(** Digits of [parseInt(_, 8)]. *)
Definition octal_digit (c : Z) : option Z :=
  if (0x30 <=? c) && (c <=? 0x37) then Some (c - 0x30) else None.

Fixpoint octal_prefix (acc : option Z) (s : JSString) : option Z :=
  match s with
  | [] => acc
  | c :: r =>
      match octal_digit c with
      | Some d => octal_prefix (Some (match acc with Some a => a * 8 + d | None => d end)) r
      | None => acc
      end
  end.

(** [Number.parseInt(s, 8)]; [None] is [NaN].  Leading white space is
    skipped, one sign is accepted, the longest prefix of octal digits is
    read.  (Negative zero is not distinguished from zero: the result is only
    compared with [===].) *)
Definition parseInt8 (s : JSString) : option Z :=
  match trimStart s with
  | [] => None
  | c :: r =>
      if c =? 0x2D then option_map Z.opp (octal_prefix None r)
      else if c =? 0x2B then octal_prefix None r
      else octal_prefix None (c :: r)
  end.

(** *** Decoding bytes to strings *)

(** The UTF-8 decoder of the platform (WHATWG: one U+FFFD per maximal
    ill-formed subpart). *)
Record Utf8State : Type := {
  u_cp : Z;          (* code point being assembled *)
  u_needed : nat;    (* continuation bytes still expected *)
  u_lower : Z;       (* bounds for the next continuation byte *)
  u_upper : Z
}.

Definition utf8_start : Utf8State :=
  {| u_cp := 0; u_needed := 0; u_lower := 0x80; u_upper := 0xBF |}.

Definition utf8_lead (b : Z) : list Z * Utf8State :=
  if b <=? 0x7F then ([b], utf8_start)
  else if (0xC2 <=? b) && (b <=? 0xDF) then
    ([], {| u_cp := Z.land b 0x1F; u_needed := 1; u_lower := 0x80; u_upper := 0xBF |})
  else if (0xE0 <=? b) && (b <=? 0xEF) then
    ([], {| u_cp := Z.land b 0x0F; u_needed := 2;
            u_lower := if b =? 0xE0 then 0xA0 else 0x80;
            u_upper := if b =? 0xED then 0x9F else 0xBF |})
  else if (0xF0 <=? b) && (b <=? 0xF4) then
    ([], {| u_cp := Z.land b 0x07; u_needed := 3;
            u_lower := if b =? 0xF0 then 0x90 else 0x80;
            u_upper := if b =? 0xF4 then 0x8F else 0xBF |})
  else ([0xFFFD], utf8_start).

Definition utf8_step (st : Utf8State) (b : Z) : list Z * Utf8State :=
  match u_needed st with
  | O => utf8_lead b
  | S n =>
      if (u_lower st <=? b) && (b <=? u_upper st) then
        let c := Z.lor (Z.shiftl (u_cp st) 6) (Z.land b 0x3F) in
        match n with
        | O => ([c], utf8_start)
        | S _ => ([], {| u_cp := c; u_needed := n; u_lower := 0x80; u_upper := 0xBF |})
        end
      else
        (* ill-formed: emit U+FFFD and decode the byte again from the start *)
        let '(out, st') := utf8_lead b in (0xFFFD :: out, st')
  end.

Fixpoint utf8_code_points (st : Utf8State) (l : Buffer) : list Z :=
  match l with
  | [] => match u_needed st with O => [] | S _ => [0xFFFD] end
  | b :: r =>
      let '(out, st') := utf8_step st (byte_Z b) in
      out ++ utf8_code_points st' r
  end.

(** UTF-16 code units of a code point. *)
Definition utf16_units (c : Z) : list Z :=
  if c <? 0x10000 then [c]
  else [0xD800 + (c - 0x10000) / 0x400; 0xDC00 + (c - 0x10000) mod 0x400].

Definition utf8_decode (l : Buffer) : JSString :=
  flat_map utf16_units (utf8_code_points utf8_start l).

Inductive encoding : Type := utf8 | ascii_enc | binary.

Definition decode (enc : encoding) (l : Buffer) : JSString :=
  match enc with
  | utf8 => utf8_decode l
  | ascii_enc => map (fun b => Z.land (byte_Z b) 0x7F) l
  | binary => map byte_Z l
  end.

(** [buffer.toString(encoding, start, end)]: [start] and [end] are clamped to
    the buffer, an empty or reversed range gives the empty string. *)
Definition toString (b : Buffer) (enc : encoding) (start end_ : Z) : JSString :=
  let s := Z.max start 0 in
  let e := Z.min end_ (buf_length b) in
  if e <=? s then []
  else decode enc (firstn (Z.to_nat (e - s)) (skipn (Z.to_nat s) b)).

(* ================================================================== *)
(** ** Tokens (token-types) *)
(* ================================================================== *)

(** A token is a length and a decoder; the decoders built on [DataView]
    raise a [RangeError] when the bytes are not inside the array. *)
Record Token (A : Type) : Type := {
  len : Z;
  get : Buffer -> Z -> error + A
}.
Arguments len {A} _.
Arguments get {A} _ _ _.

Definition UINT8 : Token Z :=
  {| len := 1; get := fun array offset => map_except uint_be (bytes_at array offset 1) |}.
Definition UINT16_LE : Token Z :=
  {| len := 2; get := fun array offset => map_except uint_le (bytes_at array offset 2) |}.
Definition UINT16_BE : Token Z :=
  {| len := 2; get := fun array offset => map_except uint_be (bytes_at array offset 2) |}.
Definition UINT32_LE : Token Z :=
  {| len := 4; get := fun array offset => map_except uint_le (bytes_at array offset 4) |}.
Definition UINT32_BE : Token Z :=
  {| len := 4; get := fun array offset => map_except uint_be (bytes_at array offset 4) |}.

(** Two's complement reading of a 32-bit pattern. *)
Definition to_signed32 (u : Z) : Z := if u <? 2 ^ 31 then u else u - 2 ^ 32.

Definition INT32_BE : Token Z :=
  {| len := 4;
     get := fun array offset =>
              map_except (fun l => to_signed32 (uint_be l)) (bytes_at array offset 4) |}.

(** The decoded value is a BigInt: an exact integer. *)
Definition UINT64_LE : Token Z :=
  {| len := 8; get := fun array offset => map_except uint_le (bytes_at array offset 8) |}.

(** [new StringType(len, encoding)]. *)
Definition StringType (len : Z) (enc : encoding) : Token JSString :=
  {| len := len;
     get := fun uint8Array offset => inr (toString uint8Array enc offset (offset + len)) |}.

(** [stringToBytes]: the first code unit of every code point of the string
    (a low surrogate that completes a pair is skipped). *)
Fixpoint stringToBytes_from (after_high : bool) (s : JSString) : list Z :=
  match s with
  | [] => []
  | c :: r =>
      if after_high && (0xDC00 <=? c) && (c <=? 0xDFFF)
      then stringToBytes_from false r
      else c :: stringToBytes_from ((0xD800 <=? c) && (c <=? 0xDBFF)) r
  end.

Definition stringToBytes (s : JSString) : list Z := stringToBytes_from false s.

(** A [for (let i = start; i < start + count; i++)] loop over a state. *)
Fixpoint for_range {S : Type} (start : Z) (count : nat) (body : Z -> S -> S) (s : S) : S :=
  match count with
  | O => s
  | S c => for_range (start + 1) c body (body start s)
  end.

(** [sum += buffer[i]]: adding [undefined] gives [NaN] ([None]), which
    stays. *)
Definition add_element (buffer : Buffer) (i : Z) (sum : option Z) : option Z :=
  match sum, buf_get buffer i with
  | Some s, Some v => Some (s + v)
  | _, _ => None
  end.

(** The number read from the checksum field of the header. *)
Definition tar_readSum (buffer : Buffer) : option Z :=
  parseInt8 (trim (strip_nul_tail (toString buffer utf8 148 154))).

Definition tarHeaderChecksumMatches (buffer : Buffer) (offset : Z) : bool :=
  let readSum := tar_readSum buffer in
  match readSum with
  | None => false                                   (* Number.isNaN(readSum) *)
  | Some readSum =>
      let sum := Some (8 * 0x20) in
      let sum := for_range offset 148 (add_element buffer) sum in
      let sum := for_range (offset + 156) (512 - 156) (add_element buffer) sum in
      match sum with
      | Some sum => readSum =? sum
      | None => false                               (* readSum === NaN *)
      end
  end.

(** ID3 sync-safe integer token. *)
Definition uint32SyncSafeToken_get (buffer : Buffer) (offset : Z) : Z :=
  js_or (js_or (js_or (js_and_opt (buf_get buffer (offset + 3)) (Some 0x7F))
                      (js_shl_opt (buf_get buffer (offset + 2)) 7))
               (js_shl_opt (buf_get buffer (offset + 1)) 14))
        (js_shl_opt (buf_get buffer offset) 21).

Definition uint32SyncSafeToken : Token Z :=
  {| len := 4; get := fun buffer offset => inr (uint32SyncSafeToken_get buffer offset) |}.

(* ================================================================== *)
(** ** The probe primitive *)
(* ================================================================== *)

Record CheckOptions : Type := {
  offset : option Z;
  mask : option (list Z)
}.

Definition no_options : CheckOptions := {| offset := None; mask := None |}.
Definition at_offset (o : Z) : CheckOptions := {| offset := Some o; mask := None |}.
Definition with_mask (o : Z) (m : list Z) : CheckOptions :=
  {| offset := Some o; mask := Some m |}.

(** The loop of [_check] over [headers.entries()], from [index] on. *)
Fixpoint check_entries (buffer : Buffer) (headers : list Z) (index : Z)
         (offset : Z) (mask : option (list Z)) : bool :=
  match headers with
  | [] => true
  | header :: rest =>
      match mask with
      | Some mask_ =>
          if negb (header =? js_and_opt (arr_get mask_ index) (buf_get buffer (index + offset)))
          then false
          else check_entries buffer rest (index + 1) offset mask
      | None =>
          if negb (strict_eq header (buf_get buffer (index + offset)))
          then false
          else check_entries buffer rest (index + 1) offset mask
      end
  end.

(** [_check(buffer, headers, options)] with [options = {offset: 0, ...options}]. *)
Definition _check (buffer : Buffer) (headers : list Z) (options : CheckOptions) : bool :=
  let offset_ := match offset options with Some o => o | None => 0 end in
  check_entries buffer headers 0 offset_ (mask options).

(* ================================================================== *)
(** ** The catalogs *)
(* ================================================================== *)

Local Open Scope string_scope.

Definition extensions : list string := [
  "jpg"; "png"; "apng"; "gif"; "webp"; "flif"; "xcf"; "cr2"; "cr3"; "orf";
  "arw"; "dng"; "nef"; "rw2"; "raf"; "tif"; "bmp"; "icns"; "jxr"; "psd";
  "indd"; "zip"; "tar"; "rar"; "gz"; "bz2"; "7z"; "dmg"; "mp4"; "mid";
  "mkv"; "webm"; "mov"; "avi"; "mpg"; "mp2"; "mp3"; "m4a"; "oga"; "ogg";
  "ogv"; "opus"; "flac"; "wav"; "spx"; "amr"; "pdf"; "epub"; "elf"; "exe";
  "swf"; "rtf"; "wasm"; "woff"; "woff2"; "eot"; "ttf"; "otf"; "ico"; "flv";
  "ps"; "xz"; "sqlite"; "nes"; "crx"; "xpi"; "cab"; "deb"; "ar"; "rpm";
  "Z"; "lz"; "cfb"; "mxf"; "mts"; "blend"; "bpg"; "docx"; "pptx"; "xlsx";
  "3gp"; "3g2"; "jp2"; "jpm"; "jpx"; "mj2"; "aif"; "qcp"; "odt"; "ods";
  "odp"; "xml"; "mobi"; "heic"; "cur"; "ktx"; "ape"; "wv"; "dcm"; "ics";
  "glb"; "pcap"; "dsf"; "lnk"; "alias"; "voc"; "ac3"; "m4v"; "m4p"; "m4b";
  "f4v"; "f4p"; "f4b"; "f4a"; "mie"; "asf"; "ogm"; "ogx"; "mpc"; "arrow";
  "shp"; "aac"; "mp1"; "it"; "s3m"; "xm"; "ai"; "skp"; "avif"; "eps";
  "lzh"; "pgp"; "asar"; "stl"; "chm"; "3mf"; "zst"; "jxl"; "vcf" ].

Definition mimeTypes : list string := [
  "image/jpeg"; "image/png"; "image/gif"; "image/webp"; "image/flif";
  "image/x-xcf"; "image/x-canon-cr2"; "image/x-canon-cr3"; "image/tiff";
  "image/bmp"; "image/vnd.ms-photo"; "image/vnd.adobe.photoshop";
  "application/x-indesign"; "application/epub+zip"; "application/x-xpinstall";
  "application/vnd.oasis.opendocument.text";
  "application/vnd.oasis.opendocument.spreadsheet";
  "application/vnd.oasis.opendocument.presentation";
  "application/vnd.openxmlformats-officedocument.wordprocessingml.document";
  "application/vnd.openxmlformats-officedocument.presentationml.presentation";
  "application/vnd.openxmlformats-officedocument.spreadsheetml.sheet";
  "application/zip"; "application/x-tar"; "application/x-rar-compressed";
  "application/gzip"; "application/x-bzip2"; "application/x-7z-compressed";
  "application/x-apple-diskimage"; "application/x-apache-arrow"; "video/mp4";
  "audio/midi"; "video/x-matroska"; "video/webm"; "video/quicktime";
  "video/vnd.avi"; "audio/vnd.wave"; "audio/qcelp"; "audio/x-ms-asf";
  "video/x-ms-asf"; "application/vnd.ms-asf"; "video/mpeg"; "video/3gpp";
  "audio/mpeg"; "audio/mp4"; "audio/opus"; "video/ogg"; "audio/ogg";
  "application/ogg"; "audio/x-flac"; "audio/ape"; "audio/wavpack";
  "audio/amr"; "application/pdf"; "application/x-elf";
  "application/x-msdownload"; "application/x-shockwave-flash";
  "application/rtf"; "application/wasm"; "font/woff"; "font/woff2";
  "application/vnd.ms-fontobject"; "font/ttf"; "font/otf"; "image/x-icon";
  "video/x-flv"; "application/postscript"; "application/eps";
  "application/x-xz"; "application/x-sqlite3";
  "application/x-nintendo-nes-rom"; "application/x-google-chrome-extension";
  "application/vnd.ms-cab-compressed"; "application/x-deb";
  "application/x-unix-archive"; "application/x-rpm"; "application/x-compress";
  "application/x-lzip"; "application/x-cfb"; "application/x-mie";
  "application/mxf"; "video/mp2t"; "application/x-blender"; "image/bpg";
  "image/jp2"; "image/jpx"; "image/jpm"; "image/mj2"; "audio/aiff";
  "application/xml"; "application/x-mobipocket-ebook"; "image/heif";
  "image/heif-sequence"; "image/heic"; "image/heic-sequence"; "image/icns";
  "image/ktx"; "application/dicom"; "audio/x-musepack"; "text/calendar";
  "text/vcard"; "model/gltf-binary"; "application/vnd.tcpdump.pcap";
  "audio/x-dsf"; "application/x.ms.shortcut"; "application/x.apple.alias";
  "audio/x-voc"; "audio/vnd.dolby.dd-raw"; "audio/x-m4a"; "image/apng";
  "image/x-olympus-orf"; "image/x-sony-arw"; "image/x-adobe-dng";
  "image/x-nikon-nef"; "image/x-panasonic-rw2"; "image/x-fujifilm-raf";
  "video/x-m4v"; "video/3gpp2"; "application/x-esri-shape"; "audio/aac";
  "audio/x-it"; "audio/x-s3m"; "audio/x-xm"; "video/MP1S"; "video/MP2P";
  "application/vnd.sketchup.skp"; "image/avif";
  "application/x-lzh-compressed"; "application/pgp-encrypted";
  "application/x-asar"; "model/stl"; "application/vnd.ms-htmlhelp";
  "model/3mf"; "image/jxl"; "application/zstd" ].

(** [new Set(array)] with [has]: membership in the array. *)
Definition Set_has (s : list string) (x : string) : bool := existsb (String.eqb x) s.

Definition supportedExtensions : list string := extensions.
Definition supportedMimeTypes : list string := mimeTypes.

Definition minimumBytes : Z := 4100.

(** A detection result [{ext, mime}]. *)
Record FileType : Type := {
  ext : string;
  mime : string
}.

Local Close Scope string_scope.

(* ================================================================== *)
(** ** The tokenizer (strtok3, memory-backed) *)
(* ================================================================== *)

(** [BufferTokenizer]: the bytes, the position, the scratch buffer for
    numbers and [fileInfo.size]. *)
Record BufferTokenizer : Type := {
  uint8Array : Buffer;
  position : Z;
  numBuffer : Buffer;
  fileInfo_size : option Z
}.

Definition set_position (t : BufferTokenizer) (p : Z) : BufferTokenizer :=
  {| uint8Array := uint8Array t; position := p;
     numBuffer := numBuffer t; fileInfo_size := fileInfo_size t |}.

Definition set_numBuffer (t : BufferTokenizer) (b : Buffer) : BufferTokenizer :=
  {| uint8Array := uint8Array t; position := position t;
     numBuffer := b; fileInfo_size := fileInfo_size t |}.

Definition set_size (t : BufferTokenizer) (s : option Z) : BufferTokenizer :=
  {| uint8Array := uint8Array t; position := position t;
     numBuffer := numBuffer t; fileInfo_size := s |}.

(** A number used as a condition: [undefined] and [0] are falsy. *)
Definition truthy (v : option Z) : bool :=
  match v with Some z => negb (z =? 0) | None => false end.

(** [fromBuffer(uint8Array, fileInfo)]; [size] is the [size] of the optional
    [fileInfo]. *)
Definition fromBuffer (uint8Array : Buffer) (size : option Z) : BufferTokenizer :=
  {| uint8Array := uint8Array;
     position := 0;
     numBuffer := Buffer_alloc 8;
     fileInfo_size := if truthy size then size else Some (buf_length uint8Array) |}.

(** *** The monad of tokenizer operations *)

(** How an awaited operation ends: with a value, with a thrown error, or not
    within the fuel.  Both [Ok] and [Throw] carry the tokenizer as it is at
    that moment. *)
Inductive Res (A : Type) : Type :=
| Ok (a : A) (t : BufferTokenizer)
| Throw (e : error) (t : BufferTokenizer)
| OutOfFuel.
Arguments Ok {A} _ _.
Arguments Throw {A} _ _.
Arguments OutOfFuel {A}.

Definition M (A : Type) : Type := BufferTokenizer -> Res A.

Definition ret {A} (a : A) : M A := fun t => Ok a t.

Definition bind {A B} (m : M A) (k : A -> M B) : M B :=
  fun t => match m t with
           | Ok a t' => k a t'
           | Throw e t' => Throw e t'
           | OutOfFuel => OutOfFuel
           end.

Definition throw {A} (e : error) : M A := fun t => Throw e t.

Definition out_of_fuel {A} : M A := fun _ => OutOfFuel.

(** Read something off the tokenizer object. *)
Definition gets {A} (f : BufferTokenizer -> A) : M A := fun t => Ok (f t) t.

Definition modify (f : BufferTokenizer -> BufferTokenizer) : M unit :=
  fun t => Ok tt (f t).

(** A runtime operation that returns or raises. *)
Definition lift {A} (x : error + A) : M A :=
  match x with inl e => throw e | inr a => ret a end.

(** [try { body } catch (error) { handler }]. *)
Definition try_catch {A} (body : M A) (handler : error -> M A) : M A :=
  fun t => match body t with
           | Throw e t' => handler e t'
           | r => r
           end.

Declare Scope monad_scope.
Delimit Scope monad_scope with monad.
Notation "x <- m ;; k" := (bind m (fun x => k))
  (at level 61, m at next level, right associativity) : monad_scope.
Notation "' pat <- m ;; k" := (bind m (fun x => match x with pat => k end))
  (at level 61, pat pattern, m at next level, right associativity) : monad_scope.
Notation "m ;; k" := (bind m (fun _ => k))
  (at level 61, right associativity) : monad_scope.
Local Open Scope monad_scope.

(** *** Read options *)

Record ReadOptions : Type := {
  o_mayBeLess : option bool;
  o_offset : option Z;
  o_length : option Z;
  o_position : option Z
}.

Record NormOptions : Type := {
  n_mayBeLess : bool;
  n_offset : Z;
  n_length : Z;
  n_position : Z
}.

Definition opt_length (l : Z) : ReadOptions :=
  {| o_mayBeLess := None; o_offset := None; o_length := Some l; o_position := None |}.
Definition opt_length_mayBeLess (l : Z) : ReadOptions :=
  {| o_mayBeLess := Some true; o_offset := None; o_length := Some l; o_position := None |}.
Definition opt_mayBeLess : ReadOptions :=
  {| o_mayBeLess := Some true; o_offset := None; o_length := None; o_position := None |}.
Definition opt_position (p : Z) : ReadOptions :=
  {| o_mayBeLess := None; o_offset := None; o_length := None; o_position := Some p |}.

Definition position_error : error :=
  Error "`options.position` must be equal or greater than `tokenizer.position`".

Definition or_default (v : option Z) (d : Z) : Z :=
  if truthy v then match v with Some z => z | None => d end else d.

(** [AbstractTokenizer.normalizeOptions]. *)
Definition normalizeOptions (target : Buffer) (options : option ReadOptions) : M NormOptions :=
  pos <- gets position ;;
  match options with
  | Some o =>
      if match o_position o with Some p => p <? pos | None => false end
      then throw position_error
      else ret {| n_mayBeLess := match o_mayBeLess o with Some true => true | _ => false end;
                  n_offset := or_default (o_offset o) 0;
                  n_length := or_default (o_length o)
                                (buf_length target - or_default (o_offset o) 0);
                  n_position := or_default (o_position o) pos |}
  | None =>
      ret {| n_mayBeLess := false; n_offset := 0;
             n_length := buf_length target; n_position := pos |}
  end.

(** [BufferTokenizer.peekBuffer]: the number of bytes peeked and the array
    [target] (the [uint8Array] argument) as it is afterwards. *)
Definition peekBuffer (target : Buffer) (options : option ReadOptions) : M (Z * Buffer) :=
  normOptions <- normalizeOptions target options ;;
  data <- gets uint8Array ;;
  let bytes2read := Z.min (buf_length data - n_position normOptions) (n_length normOptions) in
  if negb (n_mayBeLess normOptions) && (bytes2read <? n_length normOptions)
  then throw EndOfStreamError
  else
    filled <- lift (buf_set target
                      (subarray data (n_position normOptions)
                                (n_position normOptions + bytes2read))
                      (n_offset normOptions)) ;;
    ret (bytes2read, filled).

(** [BufferTokenizer.readBuffer]. *)
Definition readBuffer (target : Buffer) (options : option ReadOptions) : M (Z * Buffer) :=
  pos <- gets position ;;
  match options with
  | Some o =>
      if truthy (o_position o) then
        if match o_position o with Some p => p <? pos | None => false end
        then throw position_error
        else modify (fun t => set_position t (or_default (o_position o) pos))
      else ret tt
  | None => ret tt
  end ;;
  '(bytesRead, filled) <- peekBuffer target options ;;
  modify (fun t => set_position t (position t + bytesRead)) ;;
  ret (bytesRead, filled).

(** [AbstractTokenizer.ignore]. *)
Definition ignore (length : Z) : M Z :=
  size <- gets fileInfo_size ;;
  pos <- gets position ;;
  match size with
  | Some size =>
      let bytesLeft := size - pos in
      if bytesLeft <? length then
        modify (fun t => set_position t (position t + bytesLeft)) ;;
        ret bytesLeft
      else
        modify (fun t => set_position t (position t + length)) ;;
        ret length
  | None =>
      modify (fun t => set_position t (position t + length)) ;;
      ret length
  end.

(** [AbstractTokenizer.readToken(token)], [position] defaulting to the
    current one. *)
Definition readToken {A} (token : Token A) : M A :=
  position_ <- gets position ;;
  let target := Buffer_alloc (len token) in
  '(len_, target) <- readBuffer target (Some (opt_position position_)) ;;
  if len_ <? len token then throw EndOfStreamError
  else lift (get token target 0).

(** [AbstractTokenizer.peekNumber(token)]: through the tokenizer's own
    [numBuffer]. *)
Definition peekNumber {A} (token : Token A) : M A :=
  numBuffer_ <- gets numBuffer ;;
  '(len_, filled) <- peekBuffer numBuffer_ (Some (opt_length (len token))) ;;
  modify (fun t => set_numBuffer t filled) ;;
  if len_ <? len token then throw EndOfStreamError
  else lift (get token filled 0).

(* ================================================================== *)
(** ** [JSON.parse], as far as the ASAR probe looks at its result *)
(* ================================================================== *)

Module JSON.

(** A parsed value.  Elements of arrays are checked but not kept; of a
    number only whether it is non-zero as a double is kept, and of the value
    of a member of an object only whether it is truthy. *)
Inductive value : Type :=
| Null
| Bool (b : bool)
| Number (nonzero : bool)
| String (s : JSString)
| Array
| Object (members : list (JSString * bool)).

Definition is_truthy (v : value) : bool :=
  match v with
  | Null => false
  | Bool b => b
  | Number nonzero => nonzero
  | String s => match s with [] => false | _ :: _ => true end
  | Array => true
  | Object _ => true
  end.

Fixpoint skip_ws (s : JSString) : JSString :=
  match s with
  | c :: r => if (c =? 0x20) || (c =? 0x09) || (c =? 0x0A) || (c =? 0x0D)
              then skip_ws r else s
  | [] => []
  end.

Definition hex_digit (c : Z) : option Z :=
  if (0x30 <=? c) && (c <=? 0x39) then Some (c - 0x30)
  else if (0x41 <=? c) && (c <=? 0x46) then Some (c - 0x41 + 10)
  else if (0x61 <=? c) && (c <=? 0x66) then Some (c - 0x61 + 10)
  else None.

Definition simple_escape (c : Z) : option Z :=
  if c =? 0x22 then Some 0x22          (* quote *)
  else if c =? 0x5C then Some 0x5C     (* backslash *)
  else if c =? 0x2F then Some 0x2F     (* slash *)
  else if c =? 0x62 then Some 0x08     (* b *)
  else if c =? 0x66 then Some 0x0C     (* f *)
  else if c =? 0x6E then Some 0x0A     (* n *)
  else if c =? 0x72 then Some 0x0D     (* r *)
  else if c =? 0x74 then Some 0x09     (* t *)
  else None.

(** The characters of a string after its opening quote, up to and including
    the closing quote. *)
Fixpoint string_chars (s : JSString) (acc : JSString) : option (JSString * JSString) :=
  match s with
  | [] => None
  | c :: r =>
      if c =? 0x22 then Some (rev acc, r)
      else if c =? 0x5C then
        match r with
        | e :: r1 =>
            if e =? 0x75 then
              match r1 with
              | h1 :: h2 :: h3 :: h4 :: r2 =>
                  match hex_digit h1, hex_digit h2, hex_digit h3, hex_digit h4 with
                  | Some a, Some b, Some c', Some d =>
                      string_chars r2 (((a * 16 + b) * 16 + c') * 16 + d :: acc)
                  | _, _, _, _ => None
                  end
              | _ => None
              end
            else
              match simple_escape e with
              | Some x => string_chars r1 (x :: acc)
              | None => None
              end
        | [] => None
        end
      else if c <? 0x20 then None
      else string_chars r (c :: acc)
  end.

Definition is_digit (c : Z) : bool := (0x30 <=? c) && (c <=? 0x39).

(** Leading decimal digits: their value on top of [acc], how many there
    were, and the rest. *)
Fixpoint digits (s : JSString) (acc : Z) (count : Z) : Z * Z * JSString :=
  match s with
  | c :: r => if is_digit c then digits r (acc * 10 + (c - 0x30)) (count + 1)
              else (acc, count, s)
  | [] => (acc, count, [])
  end.

(** Whether [m * 10^e] ([m >= 0]) is non-zero after rounding to a double:
    everything up to and including half of the least subnormal, 2^-1075,
    rounds to zero. *)
Definition nonzero_double (m e : Z) : bool :=
  if m =? 0 then false
  else if 0 <=? e then true
  else 10 ^ (- e) <? m * 2 ^ 1075.

(** A number token; the sign has been read already. *)
Definition number (s : JSString) : option (value * JSString) :=
  match s with
  | c :: r =>
      if negb (is_digit c) then None
      else
        let '(int_, _, r1) :=
          if c =? 0x30 then (0, 1, r) else digits s 0 0 in
        let frac :=
          match r1 with
          | d :: r2 =>
              if d =? 0x2E then
                let '(m, n, r3) := digits r2 int_ 0 in
                if n =? 0 then None else Some (m, n, r3)
              else Some (int_, 0, r1)
          | [] => Some (int_, 0, r1)
          end in
        match frac with
        | None => None
        | Some (m, n, r3) =>
            match r3 with
            | x :: r4 =>
                if (x =? 0x65) || (x =? 0x45) then
                  let '(sign, r5) :=
                    match r4 with
                    | y :: r5 => if y =? 0x2D then (-1, r5)
                                 else if y =? 0x2B then (1, r5) else (1, r4)
                    | [] => (1, r4)
                    end in
                  let '(ex, k, r6) := digits r5 0 0 in
                  if k =? 0 then None
                  else Some (Number (nonzero_double m (sign * ex - n)), r6)
                else Some (Number (nonzero_double m (- n)), r3)
            | [] => Some (Number (nonzero_double m (- n)), r3)
            end
        end
  | [] => None
  end.

Definition literal (lit : string) (v : value) (s : JSString) : option (value * JSString) :=
  if startsWith s (str lit) then Some (v, skipn (List.length (str lit)) s) else None.

(** A value, the members of an object after its opening brace or a comma,
    and the elements of an array after its opening bracket or a comma. *)
Fixpoint parse_value (fuel : nat) (s : JSString) {struct fuel} : option (value * JSString) :=
  match fuel with
  | O => None
  | S fuel' =>
      match skip_ws s with
      | [] => None
      | c :: r =>
          if c =? 0x7B then                                   (* { *)
            match skip_ws r with
            | 0x7D :: r' => Some (Object [], r')
            | s' => parse_members fuel' s' []
            end
          else if c =? 0x5B then                              (* [ *)
            match skip_ws r with
            | 0x5D :: r' => Some (Array, r')
            | s' => parse_elements fuel' s'
            end
          else if c =? 0x22 then
            match string_chars r [] with
            | Some (x, r') => Some (String x, r')
            | None => None
            end
          else if c =? 0x2D then number r
          else if is_digit c then number (c :: r)
          else if c =? 0x74 then literal "true" (Bool true) (c :: r)
          else if c =? 0x66 then literal "false" (Bool false) (c :: r)
          else if c =? 0x6E then literal "null" Null (c :: r)
          else None
      end
  end
with parse_members (fuel : nat) (s : JSString) (acc : list (JSString * bool))
       {struct fuel} : option (value * JSString) :=
  match fuel with
  | O => None
  | S fuel' =>
      match s with
      | 0x22 :: r =>
          match string_chars r [] with
          | Some (key, r1) =>
              match skip_ws r1 with
              | 0x3A :: r2 =>
                  match parse_value fuel' r2 with
                  | Some (v, r3) =>
                      match skip_ws r3 with
                      | 0x2C :: r4 =>
                          parse_members fuel' (skip_ws r4) ((key, is_truthy v) :: acc)
                      | 0x7D :: r4 => Some (Object (rev ((key, is_truthy v) :: acc)), r4)
                      | _ => None
                      end
                  | None => None
                  end
              | _ => None
              end
          | None => None
          end
      | _ => None
      end
  end
with parse_elements (fuel : nat) (s : JSString) {struct fuel} : option (value * JSString) :=
  match fuel with
  | O => None
  | S fuel' =>
      match parse_value fuel' s with
      | Some (_, r) =>
          match skip_ws r with
          | 0x2C :: r' => parse_elements fuel' r'
          | 0x5D :: r' => Some (Array, r')
          | _ => None
          end
      | None => None
      end
  end.

(** [JSON.parse(text)]; [None] is a [SyntaxError].  Every call of the three
    functions above reads at least one character before the next call, so
    twice the length of the text is enough fuel. *)
Definition parse (text : JSString) : option value :=
  match parse_value (2 * List.length text + 2) text with
  | Some (v, r) => match skip_ws r with [] => Some v | _ :: _ => None end
  | None => None
  end.

(** The property [name] of an object (here: whether it is truthy): the last
    member of that name. *)
Fixpoint property (members : list (JSString * bool)) (name : JSString) : option bool :=
  match members with
  | [] => None
  | (k, v) :: r =>
      match property r name with
      | Some v' => Some v'
      | None => if jsstr_eqb k name then Some v else None
      end
  end.

End JSON.

(** [try { json = JSON.parse(header); if (json.files) ... } catch {}]:
    whether the branch is taken.  A syntax error and the [TypeError] of
    [null.files] are swallowed; a value that is not an object has no
    property [files]. *)
Definition json_has_files (header : JSString) : bool :=
  match JSON.parse header with
  | Some (JSON.Object members) =>
      match JSON.property members (str "files") with
      | Some files_truthy => files_truthy
      | None => false
      end
  | _ => false
  end.

(* ================================================================== *)
(** ** The dispatcher: [FileTypeParser] *)
(* ================================================================== *)

(** What [parse] returns: [undefined] or a [{ext, mime}] object. *)
Definition Detection := option FileType.

Definition FT (e m : string) : Detection := Some {| ext := e; mime := m |}.

(** [this.check(header, options)] and [this.checkString(header, options)],
    with [this.buffer] passed explicitly. *)
Definition check (buffer : Buffer) (header : list Z) (options : CheckOptions) : bool :=
  _check buffer header options.

Definition checkString (buffer : Buffer) (header : string) (options : CheckOptions) : bool :=
  check buffer (stringToBytes (str header)) options.

(** [x < tokenizer.fileInfo.size]; a comparison with [undefined] is false. *)
Definition lt_size (x : Z) (size : option Z) : bool :=
  match size with Some s => x <? s | None => false end.
Definition gt_size (x : Z) (size : option Z) : bool :=
  match size with Some s => s <? x | None => false end.

Definition Z_min_size (x : Z) (size : option Z) : Z :=
  match size with Some s => Z.min x s | None => x end.

(** [s === 'literal']. *)
Definition is_str (s : JSString) (literal : string) : bool := jsstr_eqb s (str literal).

(** *** ZIP and the formats built on it *)

Definition zip_signature : Buffer := [x50; x4b; x03; x04].

(** The inner loop that looks for the next local file header. *)
Fixpoint zip_find_next_header (fuel : nat) (buffer : Buffer) (nextHeaderIndex : Z)
  : M Buffer :=
  continue <- gets (fun tokenizer =>
                (nextHeaderIndex <? 0)
                && lt_size (position tokenizer) (fileInfo_size tokenizer)) ;;
  if continue then
    match fuel with
    | O => out_of_fuel
    | S fuel' =>
        '(_, buffer) <- peekBuffer buffer (Some opt_mayBeLess) ;;
        let nextHeaderIndex := buf_indexOf buffer zip_signature in
        ignore (if 0 <=? nextHeaderIndex then nextHeaderIndex else buf_length buffer) ;;
        zip_find_next_header fuel' buffer nextHeaderIndex
    end
  else ret buffer.

(** The [while] loop over the local file headers: [Some] is a [return] from
    inside the loop, [None] its normal end. *)
Fixpoint zip_entries (fuel : nat) (buffer : Buffer) : M (option Detection) :=
  continue <- gets (fun tokenizer =>
                lt_size (position tokenizer + 30) (fileInfo_size tokenizer)) ;;
  if negb continue then ret None
  else
    match fuel with
    | O => out_of_fuel
    | S fuel' =>
        '(_, buffer) <- readBuffer buffer (Some (opt_length 30)) ;;
        compressedSize <- lift (readUInt32LE buffer 18) ;;
        uncompressedSize <- lift (readUInt32LE buffer 22) ;;
        filenameLength <- lift (readUInt16LE buffer 26) ;;
        extraFieldLength <- lift (readUInt16LE buffer 28) ;;
        filename <- readToken (StringType filenameLength utf8) ;;
        ignore extraFieldLength ;;
        if is_str filename "META-INF/mozilla.rsa" then
          ret (Some (FT "xpi" "application/x-xpinstall"))
        else
        (* the [switch] on the first path component; its other cases,
           [_rels] among them, only leave the [switch] *)
        let type := split_first filename 0x2F in
        let office := endsWith filename (str ".rels") || endsWith filename (str ".xml") in
        if office && is_str type "word" then
          ret (Some (FT "docx" "application/vnd.openxmlformats-officedocument.wordprocessingml.document"))
        else if office && is_str type "ppt" then
          ret (Some (FT "pptx" "application/vnd.openxmlformats-officedocument.presentationml.presentation"))
        else if office && is_str type "xl" then
          ret (Some (FT "xlsx" "application/vnd.openxmlformats-officedocument.spreadsheetml.sheet"))
        else if startsWith filename (str "xl/") then
          ret (Some (FT "xlsx" "application/vnd.openxmlformats-officedocument.spreadsheetml.sheet"))
        else if startsWith filename (str "3D/") && endsWith filename (str ".model") then
          ret (Some (FT "3mf" "model/3mf"))
        else
          found <-
            (if is_str filename "mimetype" && (compressedSize =? uncompressedSize) then
               raw <- readToken (StringType compressedSize utf8) ;;
               let mimeType := trim raw in
               if is_str mimeType "application/epub+zip" then
                 ret (Some (FT "epub" "application/epub+zip"))
               else if is_str mimeType "application/vnd.oasis.opendocument.text" then
                 ret (Some (FT "odt" "application/vnd.oasis.opendocument.text"))
               else if is_str mimeType "application/vnd.oasis.opendocument.spreadsheet" then
                 ret (Some (FT "ods" "application/vnd.oasis.opendocument.spreadsheet"))
               else if is_str mimeType "application/vnd.oasis.opendocument.presentation" then
                 ret (Some (FT "odp" "application/vnd.oasis.opendocument.presentation"))
               else ret None
             else ret None) ;;
          match found with
          | Some fileType => ret (Some fileType)
          | None =>
              (* Try to find next header manually when current one is corrupted *)
              buffer <-
                (if compressedSize =? 0
                 then zip_find_next_header fuel' buffer (-1)
                 else ignore compressedSize ;; ret buffer) ;;
              zip_entries fuel' buffer
          end
    end.

(** The branch of [parse] for the local file header signature. *)
Definition parse_zip (fuel : nat) (buffer : Buffer) : M Detection :=
  returned <-
    try_catch (zip_entries fuel buffer)
      (fun error =>
         if negb (is_EndOfStreamError error) then throw error else ret None) ;;
  match returned with
  | Some fileType => ret fileType
  | None => ret (FT "zip" "application/zip")
  end.

(** *** Ogg *)

Definition parse_ogg : M Detection :=
  ignore 28 ;;
  let type := Buffer_alloc 8 in
  '(_, type) <- readBuffer type None ;;
  (* Needs to be before `ogg` check *)
  if _check type [0x4F; 0x70; 0x75; 0x73; 0x48; 0x65; 0x61; 0x64] no_options then
    ret (FT "opus" "audio/opus")
  else if _check type [0x80; 0x74; 0x68; 0x65; 0x6F; 0x72; 0x61] no_options then
    ret (FT "ogv" "video/ogg")
  else if _check type [0x01; 0x76; 0x69; 0x64; 0x65; 0x6F; 0x00] no_options then
    ret (FT "ogm" "video/ogg")
  else if _check type [0x7F; 0x46; 0x4C; 0x41; 0x43] no_options then
    ret (FT "oga" "audio/ogg")
  else if _check type [0x53; 0x70; 0x65; 0x65; 0x78; 0x20; 0x20] no_options then
    ret (FT "spx" "audio/ogg")
  else if _check type [0x01; 0x76; 0x6F; 0x72; 0x62; 0x69; 0x73] no_options then
    ret (FT "ogg" "audio/ogg")
  else
    (* Default OGG container *)
    ret (FT "ogx" "application/ogg").

(** *** ISO base media: the [switch] on the major brand *)

Definition ftyp_brand (buffer : Buffer) : Detection :=
  let brandMajor := trim (replace_first (toString buffer binary 8 12) 0 0x20) in
  if is_str brandMajor "avif" || is_str brandMajor "avis" then FT "avif" "image/avif"
  else if is_str brandMajor "mif1" then FT "heic" "image/heif"
  else if is_str brandMajor "msf1" then FT "heic" "image/heif-sequence"
  else if is_str brandMajor "heic" || is_str brandMajor "heix" then FT "heic" "image/heic"
  else if is_str brandMajor "hevc" || is_str brandMajor "hevx" then
    FT "heic" "image/heic-sequence"
  else if is_str brandMajor "qt" then FT "mov" "video/quicktime"
  else if is_str brandMajor "M4V" || is_str brandMajor "M4VH" || is_str brandMajor "M4VP"
  then FT "m4v" "video/x-m4v"
  else if is_str brandMajor "M4P" then FT "m4p" "video/mp4"
  else if is_str brandMajor "M4B" then FT "m4b" "audio/mp4"
  else if is_str brandMajor "M4A" then FT "m4a" "audio/x-m4a"
  else if is_str brandMajor "F4V" then FT "f4v" "video/mp4"
  else if is_str brandMajor "F4P" then FT "f4p" "video/mp4"
  else if is_str brandMajor "F4A" then FT "f4a" "audio/mp4"
  else if is_str brandMajor "F4B" then FT "f4b" "audio/mp4"
  else if is_str brandMajor "crx" then FT "cr3" "image/x-canon-cr3"
  else if startsWith brandMajor (str "3g") then
    if startsWith brandMajor (str "3g2") then FT "3g2" "video/3gpp2"
    else FT "3gp" "video/3gpp"
  else FT "mp4" "video/mp4".

(** *** PDF and Adobe Illustrator *)

Definition parse_pdf : M Detection :=
  ignore 1350 ;;
  let maxBufferSize := 10 * 1024 * 1024 in
  size <- gets fileInfo_size ;;
  let buffer := Buffer_alloc (Z_min_size maxBufferSize size) in
  '(_, buffer) <- readBuffer buffer (Some opt_mayBeLess) ;;
  (* Check if this is an Adobe Illustrator file *)
  if buf_includes buffer (list_byte_of_string "AIPrivateData") then
    ret (FT "ai" "application/postscript")
  else
    (* Assume this is just a normal PDF *)
    ret (FT "pdf" "application/pdf").

(** *** TIFF and the raw formats built on it *)

Definition readTiffTag (bigEndian : bool) : M Detection :=
  tagId <- readToken (if bigEndian then UINT16_BE else UINT16_LE) ;;
  (* not awaited in the source; [ignore] of this tokenizer has no
     suspension point, so it has run to its end when the call returns *)
  ignore 10 ;;
  if tagId =? 50341 then ret (FT "arw" "image/x-sony-arw")
  else if tagId =? 50706 then ret (FT "dng" "image/x-adobe-dng")
  else ret None.

(** The [for] loop of [readTiffIFD]. *)
Fixpoint readTiffIFD_tags (bigEndian : bool) (remaining : nat) : M Detection :=
  match remaining with
  | O => ret None
  | S remaining' =>
      fileType <- readTiffTag bigEndian ;;
      match fileType with
      | Some _ => ret fileType
      | None => readTiffIFD_tags bigEndian remaining'
      end
  end.

Definition readTiffIFD (bigEndian : bool) : M Detection :=
  numberOfTags <- readToken (if bigEndian then UINT16_BE else UINT16_LE) ;;
  readTiffIFD_tags bigEndian (Z.to_nat numberOfTags).

Definition readTiffHeader (buffer : Buffer) (bigEndian : bool) : M Detection :=
  version <- lift (get (if bigEndian then UINT16_BE else UINT16_LE) buffer 2) ;;
  ifdOffset <- lift (get (if bigEndian then UINT32_BE else UINT32_LE) buffer 4) ;;
  if version =? 42 then
    (* TIFF file header *)
    if (6 <=? ifdOffset) && checkString buffer "CR" (at_offset 8) then
      ret (FT "cr2" "image/x-canon-cr2")
    else if (6 <=? ifdOffset) && (8 <=? ifdOffset)
            && (check buffer [0x1C; 0x00; 0xFE; 0x00] (at_offset 8)
                || check buffer [0x1F; 0x00; 0x0B; 0x00] (at_offset 8)) then
      ret (FT "nef" "image/x-nikon-nef")
    else
      ignore ifdOffset ;;
      fileType <- readTiffIFD false ;;
      match fileType with
      | Some _ => ret fileType
      | None => ret (FT "tif" "image/tiff")
      end
  else if version =? 43 then
    (* Big TIFF file header *)
    ret (FT "tif" "image/tiff")
  else ret None.

(** *** Matroska / EBML *)

(** The loop of [readField] that counts the leading zero bits of [msb]:
    [mask] runs from 0x80 down to 0, so eight rounds are enough. *)
Fixpoint leading_zero_bits (rounds : nat) (msb mask ic : Z) : Z :=
  if (js_and msb mask =? 0) && negb (mask =? 0) then
    match rounds with
    | S rounds' => leading_zero_bits rounds' msb (js_sar mask 1) (ic + 1)
    | O => ic
    end
  else ic.

Definition readField : M Buffer :=
  msb <- peekNumber UINT8 ;;
  let ic := leading_zero_bits 8 msb 0x80 0 in
  let id := Buffer_alloc (ic + 1) in
  '(_, id) <- readBuffer id None ;;
  ret id.

(** [lengthField[0] ^= 0x80 >> (lengthField.length - 1)]. *)
Definition clear_length_marker (lengthField : Buffer) : Buffer :=
  match lengthField with
  | b0 :: rest =>
      Z_byte (js_xor (byte_Z b0) (js_sar 0x80 (buf_length lengthField - 1))) :: rest
  | [] => []
  end.

Record EbmlElement : Type := {
  e_id : Z;
  e_len : Z
}.

Definition readElement : M EbmlElement :=
  id <- readField ;;
  lengthField <- readField ;;
  let lengthField := clear_length_marker lengthField in
  let nrLength := Z.min 6 (buf_length lengthField) in
  id_ <- lift (readUIntBE id 0 (buf_length id)) ;;
  len_ <- lift (readUIntBE lengthField (buf_length lengthField - nrLength) nrLength) ;;
  ret {| e_id := id_; e_len := len_ |}.

(** [None] is [undefined]: no DocType among the children. *)
Fixpoint readChildren (fuel : nat) (children : Z) : M (option JSString) :=
  if 0 <? children then
    match fuel with
    | O => out_of_fuel
    | S fuel' =>
        element <- readElement ;;
        if e_id element =? 0x4282 then
          rawValue <- readToken (StringType (e_len element) utf8) ;;
          ret (Some (strip_nul_tail rawValue))          (* Return DocType *)
        else
          ignore (e_len element) ;;                     (* ignore payload *)
          readChildren fuel' (children - 1)
    end
  else ret None.

Definition parse_ebml (fuel : nat) : M Detection :=
  re <- readElement ;;
  docType <- readChildren fuel (e_len re) ;;
  match docType with
  | Some docType =>
      if is_str docType "webm" then ret (FT "webm" "video/webm")
      else if is_str docType "matroska" then ret (FT "mkv" "video/x-matroska")
      else ret None
  | None => ret None
  end.

(** *** Unix archives *)

Definition parse_ar : M Detection :=
  ignore 8 ;;
  string_ <- readToken (StringType 13 ascii_enc) ;;
  if is_str string_ "debian-binary" then ret (FT "deb" "application/x-deb")
  else ret (FT "ar" "application/x-unix-archive").

(** *** PNG and APNG *)

Record PngChunk : Type := {
  c_length : Z;
  c_type : JSString
}.

Definition readChunkHeader : M PngChunk :=
  length_ <- readToken INT32_BE ;;
  type_ <- readToken (StringType 4 binary) ;;
  ret {| c_length := length_; c_type := type_ |}.

(** The [do ... while] loop over the chunks, with the [return] that follows
    it. *)
Fixpoint png_chunks (fuel : nat) : M Detection :=
  match fuel with
  | O => out_of_fuel
  | S fuel' =>
      chunk <- readChunkHeader ;;
      if c_length chunk <? 0 then ret None               (* Invalid chunk length *)
      else if is_str (c_type chunk) "IDAT" then ret (FT "png" "image/png")
      else if is_str (c_type chunk) "acTL" then ret (FT "apng" "image/apng")
      else
        ignore (c_length chunk + 4) ;;                   (* Ignore chunk-data + CRC *)
        continue <- gets (fun tokenizer =>
                      lt_size (position tokenizer + 8) (fileInfo_size tokenizer)) ;;
        if continue then png_chunks fuel'
        else ret (FT "png" "image/png")
  end.

Definition parse_png (fuel : nat) : M Detection :=
  ignore 8 ;;                                            (* ignore PNG signature *)
  png_chunks fuel.

(** *** ASF *)

Record AsfHeader : Type := {
  h_id : Buffer;
  h_size : Z
}.

Definition asf_readHeader : M AsfHeader :=
  let guid := Buffer_alloc 16 in
  '(_, guid) <- readBuffer guid None ;;
  size <- readToken UINT64_LE ;;
  ret {| h_id := guid; h_size := round_double size |}.   (* Number(bigint) *)

(** The [while] loop over the header objects: [Some] is a [return] from
    inside the loop, [None] its end (also by [break]). *)
Fixpoint asf_objects (fuel : nat) : M (option Detection) :=
  continue <- gets (fun tokenizer =>
                lt_size (position tokenizer + 24) (fileInfo_size tokenizer)) ;;
  if negb continue then ret None
  else
    match fuel with
    | O => out_of_fuel
    | S fuel' =>
        header <- asf_readHeader ;;
        let payload := round_double (h_size header - 24) in
        if _check (h_id header)
             [0x91; 0x07; 0xDC; 0xB7; 0xB7; 0xA9; 0xCF; 0x11;
              0x8E; 0xE6; 0x00; 0xC0; 0x0C; 0x20; 0x53; 0x65] no_options then
          (* Sync on Stream-Properties-Object *)
          let typeId := Buffer_alloc 16 in
          '(_, typeId) <- readBuffer typeId None ;;
          if _check typeId
               [0x40; 0x9E; 0x69; 0xF8; 0x4D; 0x5B; 0xCF; 0x11;
                0xA8; 0xFD; 0x00; 0x80; 0x5F; 0x5C; 0x44; 0x2B] no_options then
            ret (Some (FT "asf" "audio/x-ms-asf"))
          else if _check typeId
               [0xC0; 0xEF; 0x19; 0xBC; 0x4D; 0x5B; 0xCF; 0x11;
                0xA8; 0xFD; 0x00; 0x80; 0x5F; 0x5C; 0x44; 0x2B] no_options then
            ret (Some (FT "asf" "video/x-ms-asf"))
          else ret None                                   (* break *)
        else
          ignore payload ;;
          asf_objects fuel'
    end.

Definition parse_asf (fuel : nat) : M Detection :=
  ignore 30 ;;
  returned <- asf_objects fuel ;;
  match returned with
  | Some fileType => ret fileType
  | None => ret (FT "asf" "application/vnd.ms-asf")  (* Default to ASF generic extension *)
  end.

(** *** JPEG 2000 *)

Definition parse_jp2 : M Detection :=
  ignore 20 ;;
  type <- readToken (StringType 4 ascii_enc) ;;
  if is_str type "jp2 " then ret (FT "jp2" "image/jp2")
  else if is_str type "jpx " then ret (FT "jpx" "image/jpx")
  else if is_str type "jpm " then ret (FT "jpm" "image/jpm")
  else if is_str type "mjp2" then ret (FT "mj2" "image/mj2")
  else ret None.

(** *** Asynchronous calls and [fileTypeFromTokenizer] *)

(** A promise is identified with the way it settles. *)
Definition Promise (A : Type) : Type := Res A.

(** What a [return] statement of an [async] function hands over: a plain
    value, or a promise that the function's own promise then follows. *)
Inductive Returned (A : Type) : Type :=
| Value (a : A) (t : BufferTokenizer)
| Thenable (p : Promise A).
Arguments Value {A} _ _.
Arguments Thenable {A} _.

(** How the synchronous evaluation of a block ends. *)
Inductive Completion (X : Type) : Type :=
| Normal (x : X)
| Abrupt (e : error) (t : BufferTokenizer).
Arguments Normal {X} _.
Arguments Abrupt {X} _ _.

(** Calling an [async] function never throws: the call evaluates to the
    promise. *)
Definition call_async {A} (p : Promise A) : Completion (Returned A) := Normal (Thenable p).

(** [await p]: the rejection of [p] is thrown at the place of the [await]. *)
Definition await {A} (p : Promise A) : Completion (Returned A) :=
  match p with
  | Ok a t => Normal (Value a t)
  | Throw e t => Abrupt e t
  | OutOfFuel => Normal (Thenable OutOfFuel)
  end.

(** [try { body } catch (error) { handler }] around a synchronous
    evaluation: only an abrupt completion of [body] reaches the handler. *)
Definition try_block {X} (body : Completion X)
           (handler : error -> BufferTokenizer -> Completion X) : Completion X :=
  match body with
  | Abrupt e t => handler e t
  | Normal x => Normal x
  end.

(** The promise of an [async] function whose body completed with [c]. *)
Definition settle {A} (c : Completion (Returned A)) : Promise A :=
  match c with
  | Normal (Value a t) => Ok a t
  | Normal (Thenable p) => p
  | Abrupt e t => Throw e t
  end.

(** [fileTypeFromTokenizer], over the [parse] it calls:
    [try { return new FileTypeParser().parse(tokenizer); }
     catch (error) { if (!(error instanceof EndOfStreamError)) throw error; }].
    The promise of [parse] is returned as it is, not awaited. *)
Definition fileTypeFromTokenizer_with (parse : M Detection) : M Detection :=
  fun tokenizer =>
    settle (try_block (call_async (parse tokenizer))
              (fun error t =>
                 if negb (is_EndOfStreamError error) then Abrupt error t
                 else Normal (Value None t))).

(** *** The cascade of [parse]

    [parse] is one long sequence of guarded returns.  It is cut here at the
    section comments of the source; each definition is the code from its
    comment to the end of [parse], so the later parts come first. *)

(** After the sample has been grown to 512 bytes. *)
Definition signatures_512 (buffer : Buffer) : M Detection :=
  (* Requires a buffer size of 512 bytes *)
  if tarHeaderChecksumMatches buffer 0 then ret (FT "tar" "application/x-tar")
  else if check buffer [0xFF; 0xFE] no_options then            (* UTF-16-BOM-BE *)
    if check buffer [60; 0; 63; 0; 120; 0; 109; 0; 108; 0] (at_offset 2) then
      ret (FT "xml" "application/xml")
    else if check buffer
              [0xFF; 0x0E; 0x53; 0x00; 0x6B; 0x00; 0x65; 0x00; 0x74; 0x00; 0x63; 0x00;
               0x68; 0x00; 0x55; 0x00; 0x70; 0x00; 0x20; 0x00; 0x4D; 0x00; 0x6F; 0x00;
               0x64; 0x00; 0x65; 0x00; 0x6C; 0x00] (at_offset 2) then
      ret (FT "skp" "application/vnd.sketchup.skp")
    else ret None                                              (* Some text based format *)
  else if checkString buffer "-----BEGIN PGP MESSAGE-----" no_options then
    ret (FT "pgp" "application/pgp-encrypted")
  (* Check MPEG 1 or 2 Layer 3 header, or 'layer 0' for ADTS *)
  else if (2 <=? buf_length buffer)
          && check buffer [0xFF; 0xE0] (with_mask 0 [0xFF; 0xE0]) then
    if check buffer [0x10] (with_mask 1 [0x16]) then
      (* Check for (ADTS) MPEG-2 *)
      if check buffer [0x08] (with_mask 1 [0x08]) then ret (FT "aac" "audio/aac")
      (* Must be (ADTS) MPEG-4 *)
      else ret (FT "aac" "audio/aac")
    (* MPEG 1 or 2 Layer 3 header *)
    else if check buffer [0x02] (with_mask 1 [0x06]) then ret (FT "mp3" "audio/mpeg")
    else if check buffer [0x04] (with_mask 1 [0x06]) then ret (FT "mp2" "audio/mpeg")
    else if check buffer [0x06] (with_mask 1 [0x06]) then ret (FT "mp1" "audio/mpeg")
    else ret None
  else ret None.

(** The rough check for Pickle/ASAR: [Some] is its [return]. *)
Definition asar_probe (buffer : Buffer) : M (option Detection) :=
  if check buffer [0x04; 0x00; 0x00; 0x00] no_options && (16 <=? buf_length buffer) then
    jsonSize <- lift (readUInt32LE buffer 12) ;;
    if (12 <? jsonSize) && (jsonSize + 16 <=? buf_length buffer) then
      let header := utf8_decode (subarray buffer 16 (jsonSize + 16)) in
      (* Final check, assuring Pickle/ASAR format *)
      if json_has_files header then ret (Some (FT "asar" "application/x-asar"))
      else ret None
    else ret None
  else ret None.

(** From [-- 15-byte signatures --], after the sample has been grown to 256
    bytes. *)
Definition signatures_15byte (buffer : Buffer) : M Detection :=
  if checkString buffer "BEGIN:" no_options
     && checkString buffer "VCARD" (at_offset 6) then ret (FT "vcf" "text/vcard")
  else if checkString buffer "BEGIN:" no_options
          && checkString buffer "VCALENDAR" (at_offset 6) then
    ret (FT "ics" "text/calendar")
  (* `raf` is here just to keep all the raw image detectors together. *)
  else if checkString buffer "FUJIFILMCCD-RAW" no_options then
    ret (FT "raf" "image/x-fujifilm-raf")
  else if checkString buffer "Extended Module:" no_options then ret (FT "xm" "audio/x-xm")
  else if checkString buffer "Creative Voice File" no_options then
    ret (FT "voc" "audio/x-voc")
  else
  asar <- asar_probe buffer ;;
  match asar with
  | Some fileType => ret fileType
  | None =>
  if check buffer [0x06; 0x0E; 0x2B; 0x34; 0x02; 0x05; 0x01; 0x01;
                   0x0D; 0x01; 0x02; 0x01; 0x01; 0x02] no_options then
    ret (FT "mxf" "application/mxf")
  else if checkString buffer "SCRM" (at_offset 44) then ret (FT "s3m" "audio/x-s3m")
  (* Raw MPEG-2 transport stream (188-byte packets) *)
  else if check buffer [0x47] no_options && check buffer [0x47] (at_offset 188) then
    ret (FT "mts" "video/mp2t")
  (* Blu-ray Disc Audio-Video (BDAV) MPEG-2 transport stream *)
  else if check buffer [0x47] (at_offset 4) && check buffer [0x47] (at_offset 196) then
    ret (FT "mts" "video/mp2t")
  else if check buffer [0x42; 0x4F; 0x4F; 0x4B; 0x4D; 0x4F; 0x42; 0x49] (at_offset 60) then
    ret (FT "mobi" "application/x-mobipocket-ebook")
  else if check buffer [0x44; 0x49; 0x43; 0x4D] (at_offset 128) then
    ret (FT "dcm" "application/dicom")
  else if check buffer [0x4C; 0x00; 0x00; 0x00; 0x01; 0x14; 0x02; 0x00; 0x00; 0x00;
                        0x00; 0x00; 0xC0; 0x00; 0x00; 0x00; 0x00; 0x00; 0x00; 0x46]
            no_options then
    ret (FT "lnk" "application/x.ms.shortcut")
  else if check buffer [0x62; 0x6F; 0x6F; 0x6B; 0x00; 0x00; 0x00; 0x00;
                        0x6D; 0x61; 0x72; 0x6B; 0x00; 0x00; 0x00; 0x00] no_options then
    ret (FT "alias" "application/x.apple.alias")
  else if check buffer [0x4C; 0x50] (at_offset 34)
          && (check buffer [0x00; 0x00; 0x01] (at_offset 8)
              || check buffer [0x01; 0x00; 0x02] (at_offset 8)
              || check buffer [0x02; 0x00; 0x02] (at_offset 8)) then
    ret (FT "eot" "application/vnd.ms-fontobject")
  else if check buffer [0x06; 0x06; 0xED; 0xF5; 0xD8; 0x1D; 0x46; 0xE5;
                        0xBD; 0x31; 0xEF; 0xE7; 0xFE; 0x74; 0xB7; 0x1D] no_options then
    ret (FT "indd" "application/x-indesign")
  else
    (* Increase sample size from 256 to 512 *)
    size <- gets fileInfo_size ;;
    '(_, buffer) <- peekBuffer buffer (Some (opt_length_mayBeLess (Z_min_size 512 size))) ;;
    signatures_512 buffer
  end.

(** From [-- Unsafe signatures --]. *)
Definition signatures_unsafe (buffer : Buffer) : M Detection :=
  if check buffer [0x0; 0x0; 0x1; 0xBA] no_options
     || check buffer [0x0; 0x0; 0x1; 0xB3] no_options then ret (FT "mpg" "video/mpeg")
  else if check buffer [0x00; 0x01; 0x00; 0x00; 0x00] no_options then ret (FT "ttf" "font/ttf")
  else if check buffer [0x00; 0x00; 0x01; 0x00] no_options then ret (FT "ico" "image/x-icon")
  else if check buffer [0x00; 0x00; 0x02; 0x00] no_options then ret (FT "cur" "image/x-icon")
  else if check buffer [0xD0; 0xCF; 0x11; 0xE0; 0xA1; 0xB1; 0x1A; 0xE1] no_options then
    (* Detected Microsoft Compound File Binary File (MS-CFB) Format. *)
    ret (FT "cfb" "application/x-cfb")
  else
    (* Increase sample size from 12 to 256. *)
    size <- gets fileInfo_size ;;
    '(_, buffer) <- peekBuffer buffer (Some (opt_length_mayBeLess (Z_min_size 256 size))) ;;
    signatures_15byte buffer.

(** From [-- 12-byte signatures --]. *)
Definition signatures_12byte (fuel : nat) (buffer : Buffer) : M Detection :=
  if check buffer [0x49; 0x49; 0x55; 0x00; 0x18; 0x00; 0x00; 0x00;
                   0x88; 0xE7; 0x74; 0xD8] no_options then
    ret (FT "rw2" "image/x-panasonic-rw2")
  (* ASF_Header_Object first 80 bytes *)
  else if check buffer [0x30; 0x26; 0xB2; 0x75; 0x8E; 0x66; 0xCF; 0x11; 0xA6; 0xD9]
            no_options then
    parse_asf fuel
  else if check buffer [0xAB; 0x4B; 0x54; 0x58; 0x20; 0x31; 0x31; 0xBB;
                        0x0D; 0x0A; 0x1A; 0x0A] no_options then
    ret (FT "ktx" "image/ktx")
  else if (check buffer [0x7E; 0x10; 0x04] no_options
           || check buffer [0x7E; 0x18; 0x04] no_options)
          && check buffer [0x30; 0x4D; 0x49; 0x45] (at_offset 4) then
    ret (FT "mie" "application/x-mie")
  else if check buffer [0x27; 0x0A; 0x00; 0x00; 0x00; 0x00; 0x00; 0x00;
                        0x00; 0x00; 0x00; 0x00] (at_offset 2) then
    ret (FT "shp" "application/x-esri-shape")
  else if check buffer [0x00; 0x00; 0x00; 0x0C; 0x6A; 0x50; 0x20; 0x20;
                        0x0D; 0x0A; 0x87; 0x0A] no_options then
    (* JPEG-2000 family *)
    parse_jp2
  else if check buffer [0xFF; 0x0A] no_options
          || check buffer [0x00; 0x00; 0x00; 0x0C; 0x4A; 0x58; 0x4C; 0x20;
                           0x0D; 0x0A; 0x87; 0x0A] no_options then
    ret (FT "jxl" "image/jxl")
  else if check buffer [0xFE; 0xFF] no_options then             (* UTF-16-BOM-LE *)
    if check buffer [0; 60; 0; 63; 0; 120; 0; 109; 0; 108] (at_offset 2) then
      ret (FT "xml" "application/xml")
    else ret None                                 (* Some unknown text based format *)
  else signatures_unsafe buffer.

(** From [-- 9-byte signatures --]. *)
Definition signatures_9byte (fuel : nat) (buffer : Buffer) : M Detection :=
  if check buffer [0x49; 0x49; 0x52; 0x4F; 0x08; 0x00; 0x00; 0x00; 0x18] no_options then
    ret (FT "orf" "image/x-olympus-orf")
  else if checkString buffer "gimp xcf " no_options then ret (FT "xcf" "image/x-xcf")
  else signatures_12byte fuel buffer.

(** From [-- 8-byte signatures --]. *)
Definition signatures_8byte (fuel : nat) (buffer : Buffer) : M Detection :=
  if check buffer [0x89; 0x50; 0x4E; 0x47; 0x0D; 0x0A; 0x1A; 0x0A] no_options then
    parse_png fuel
  else if check buffer [0x41; 0x52; 0x52; 0x4F; 0x57; 0x31; 0x00; 0x00] no_options then
    ret (FT "arrow" "application/x-apache-arrow")
  else if check buffer [0x67; 0x6C; 0x54; 0x46; 0x02; 0x00; 0x00; 0x00] no_options then
    ret (FT "glb" "model/gltf-binary")
  (* `mov` format variants *)
  else if check buffer [0x66; 0x72; 0x65; 0x65] (at_offset 4)      (* `free` *)
          || check buffer [0x6D; 0x64; 0x61; 0x74] (at_offset 4)   (* `mdat` MJPEG *)
          || check buffer [0x6D; 0x6F; 0x6F; 0x76] (at_offset 4)   (* `moov` *)
          || check buffer [0x77; 0x69; 0x64; 0x65] (at_offset 4)   (* `wide` *)
  then ret (FT "mov" "video/quicktime")
  else signatures_9byte fuel buffer.

(** From [-- 7-byte signatures --]. *)
Definition signatures_7byte (fuel : nat) (buffer : Buffer) : M Detection :=
  if checkString buffer "BLENDER" no_options then ret (FT "blend" "application/x-blender")
  else if checkString buffer "!<arch>" no_options then parse_ar
  else signatures_8byte fuel buffer.

(** From [-- 6-byte signatures --]. *)
Definition signatures_6byte (fuel : nat) (buffer : Buffer) : M Detection :=
  if check buffer [0xFD; 0x37; 0x7A; 0x58; 0x5A; 0x00] no_options then
    ret (FT "xz" "application/x-xz")
  else if checkString buffer "<?xml " no_options then ret (FT "xml" "application/xml")
  else if check buffer [0x37; 0x7A; 0xBC; 0xAF; 0x27; 0x1C] no_options then
    ret (FT "7z" "application/x-7z-compressed")
  else if check buffer [0x52; 0x61; 0x72; 0x21; 0x1A; 0x7] no_options
          && (strict_eq 0x0 (buf_get buffer 6) || strict_eq 0x1 (buf_get buffer 6)) then
    ret (FT "rar" "application/x-rar-compressed")
  else if checkString buffer "solid " no_options then ret (FT "stl" "model/stl")
  else signatures_7byte fuel buffer.

(** From [-- 5-byte signatures --]. *)
Definition signatures_5byte (fuel : nat) (buffer : Buffer) : M Detection :=
  if check buffer [0x4F; 0x54; 0x54; 0x4F; 0x00] no_options then ret (FT "otf" "font/otf")
  else if checkString buffer "#!AMR" no_options then ret (FT "amr" "audio/amr")
  else if checkString buffer "{\rtf" no_options then ret (FT "rtf" "application/rtf")
  else if check buffer [0x46; 0x4C; 0x56; 0x01] no_options then ret (FT "flv" "video/x-flv")
  else if checkString buffer "IMPM" no_options then ret (FT "it" "audio/x-it")
  else if checkString buffer "-lh0-" (at_offset 2)
          || checkString buffer "-lh1-" (at_offset 2)
          || checkString buffer "-lh2-" (at_offset 2)
          || checkString buffer "-lh3-" (at_offset 2)
          || checkString buffer "-lh4-" (at_offset 2)
          || checkString buffer "-lh5-" (at_offset 2)
          || checkString buffer "-lh6-" (at_offset 2)
          || checkString buffer "-lh7-" (at_offset 2)
          || checkString buffer "-lzs-" (at_offset 2)
          || checkString buffer "-lz4-" (at_offset 2)
          || checkString buffer "-lz5-" (at_offset 2)
          || checkString buffer "-lhd-" (at_offset 2) then
    ret (FT "lzh" "application/x-lzh-compressed")
  (* MPEG program stream (PS or MPEG-PS) *)
  else if check buffer [0x00; 0x00; 0x01; 0xBA] no_options
          && check buffer [0x21] (with_mask 4 [0xF1]) then
    (* MPEG-PS, MPEG-1 Part 1 *)
    ret (FT "mpg" "video/MP1S")
  else if check buffer [0x00; 0x00; 0x01; 0xBA] no_options
          && check buffer [0x44] (with_mask 4 [0xC4]) then
    (* MPEG-PS, MPEG-2 Part 1 *)
    ret (FT "mpg" "video/MP2P")
  else if checkString buffer "ITSF" no_options then
    ret (FT "chm" "application/vnd.ms-htmlhelp")
  else signatures_6byte fuel buffer.

(** The rest of the 4-byte signatures, after the two TIFF probes. *)
Definition signatures_after_tiff (fuel : nat) (buffer : Buffer) : M Detection :=
  if checkString buffer "MAC " no_options then ret (FT "ape" "audio/ape")
  else if check buffer [0x1A; 0x45; 0xDF; 0xA3] no_options then      (* Root element: EBML *)
    parse_ebml fuel
  (* RIFF file format which might be AVI, WAV, QCP, etc *)
  else if check buffer [0x52; 0x49; 0x46; 0x46] no_options
          && check buffer [0x41; 0x56; 0x49] (at_offset 8) then
    ret (FT "avi" "video/vnd.avi")
  else if check buffer [0x52; 0x49; 0x46; 0x46] no_options
          && check buffer [0x57; 0x41; 0x56; 0x45] (at_offset 8) then
    ret (FT "wav" "audio/vnd.wave")
  else if check buffer [0x52; 0x49; 0x46; 0x46] no_options
          && check buffer [0x51; 0x4C; 0x43; 0x4D] (at_offset 8) then   (* QLCM, QCP file *)
    ret (FT "qcp" "audio/qcelp")
  else if checkString buffer "SQLi" no_options then ret (FT "sqlite" "application/x-sqlite3")
  else if check buffer [0x4E; 0x45; 0x53; 0x1A] no_options then
    ret (FT "nes" "application/x-nintendo-nes-rom")
  else if checkString buffer "Cr24" no_options then
    ret (FT "crx" "application/x-google-chrome-extension")
  else if checkString buffer "MSCF" no_options || checkString buffer "ISc(" no_options then
    ret (FT "cab" "application/vnd.ms-cab-compressed")
  else if check buffer [0xED; 0xAB; 0xEE; 0xDB] no_options then
    ret (FT "rpm" "application/x-rpm")
  else if check buffer [0xC5; 0xD0; 0xD3; 0xC6] no_options then
    ret (FT "eps" "application/eps")
  else if check buffer [0x28; 0xB5; 0x2F; 0xFD] no_options then
    ret (FT "zst" "application/zstd")
  else if check buffer [0x7F; 0x45; 0x4C; 0x46] no_options then
    ret (FT "elf" "application/x-elf")
  else signatures_5byte fuel buffer.

(** The 4-byte signatures from the File Type Box on, with the two TIFF
    probes, which return only when [readTiffHeader] found a type. *)
Definition signatures_after_zip (fuel : nat) (buffer : Buffer) : M Detection :=
  if checkString buffer "ftyp" (at_offset 4)
     && negb (js_and_opt (buf_get buffer 8) (Some 0x60) =? 0x00)
  then ret (ftyp_brand buffer)
  else if checkString buffer "MThd" no_options then ret (FT "mid" "audio/midi")
  else if checkString buffer "wOFF" no_options
          && (check buffer [0x00; 0x01; 0x00; 0x00] (at_offset 4)
              || checkString buffer "OTTO" (at_offset 4)) then
    ret (FT "woff" "font/woff")
  else if checkString buffer "wOF2" no_options
          && (check buffer [0x00; 0x01; 0x00; 0x00] (at_offset 4)
              || checkString buffer "OTTO" (at_offset 4)) then
    ret (FT "woff2" "font/woff2")
  else if check buffer [0xD4; 0xC3; 0xB2; 0xA1] no_options
          || check buffer [0xA1; 0xB2; 0xC3; 0xD4] no_options then
    ret (FT "pcap" "application/vnd.tcpdump.pcap")
  (* Sony DSD Stream File (DSF) *)
  else if checkString buffer "DSD " no_options then ret (FT "dsf" "audio/x-dsf")
  else if checkString buffer "LZIP" no_options then ret (FT "lz" "application/x-lzip")
  else if checkString buffer "fLaC" no_options then ret (FT "flac" "audio/x-flac")
  else if check buffer [0x42; 0x50; 0x47; 0xFB] no_options then ret (FT "bpg" "image/bpg")
  else if checkString buffer "wvpk" no_options then ret (FT "wv" "audio/wavpack")
  else if checkString buffer "%PDF" no_options then parse_pdf
  else if check buffer [0x00; 0x61; 0x73; 0x6D] no_options then
    ret (FT "wasm" "application/wasm")
  else
    (* TIFF, little-endian type *)
    fileType <- (if check buffer [0x49; 0x49] no_options
                 then readTiffHeader buffer false else ret None) ;;
    match fileType with
    | Some _ => ret fileType
    | None =>
        (* TIFF, big-endian type *)
        fileType <- (if check buffer [0x4D; 0x4D] no_options
                     then readTiffHeader buffer true else ret None) ;;
        match fileType with
        | Some _ => ret fileType
        | None => signatures_after_tiff fuel buffer
        end
    end.

(** From [-- 4-byte signatures --]. *)
Definition signatures_4byte (fuel : nat) (buffer : Buffer) : M Detection :=
  if checkString buffer "FLIF" no_options then ret (FT "flif" "image/flif")
  else if checkString buffer "8BPS" no_options then
    ret (FT "psd" "image/vnd.adobe.photoshop")
  else if checkString buffer "WEBP" (at_offset 8) then ret (FT "webp" "image/webp")
  (* Musepack, SV8 *)
  else if checkString buffer "MPCK" no_options then ret (FT "mpc" "audio/x-musepack")
  else if checkString buffer "FORM" no_options then ret (FT "aif" "audio/aiff")
  else if checkString buffer "icns" (at_offset 0) then ret (FT "icns" "image/icns")
  (* Zip-based file formats; need to be before the `zip` check *)
  else if check buffer [0x50; 0x4B; 0x3; 0x4] no_options then    (* Local file header signature *)
    parse_zip fuel buffer
  else if checkString buffer "OggS" no_options then
    (* This is an OGG container *)
    parse_ogg
  else if check buffer [0x50; 0x4B] no_options
          && (strict_eq 0x3 (buf_get buffer 2) || strict_eq 0x5 (buf_get buffer 2)
              || strict_eq 0x7 (buf_get buffer 2))
          && (strict_eq 0x4 (buf_get buffer 3) || strict_eq 0x6 (buf_get buffer 3)
              || strict_eq 0x8 (buf_get buffer 3)) then
    ret (FT "zip" "application/zip")
  else signatures_after_zip fuel buffer.

(** From [-- 3-byte signatures --].  [self] is [parse] as it is re-entered
    after a UTF-8 byte order mark and, through [fileTypeFromTokenizer], after
    an ID3 header. *)
Definition signatures_3byte (fuel : nat) (self : M Detection) (buffer : Buffer)
  : M Detection :=
  if check buffer [0xEF; 0xBB; 0xBF] no_options then             (* UTF-8-BOM *)
    (* Strip off UTF-8-BOM; [ignore] is not awaited in the source, but on
       this tokenizer it has no suspension point and has run to its end when
       the call returns *)
    ignore 3 ;;
    self
  else if check buffer [0x47; 0x49; 0x46] no_options then ret (FT "gif" "image/gif")
  else if check buffer [0xFF; 0xD8; 0xFF] no_options then ret (FT "jpg" "image/jpeg")
  else if check buffer [0x49; 0x49; 0xBC] no_options then ret (FT "jxr" "image/vnd.ms-photo")
  else if check buffer [0x1F; 0x8B; 0x8] no_options then ret (FT "gz" "application/gzip")
  else if check buffer [0x42; 0x5A; 0x68] no_options then ret (FT "bz2" "application/x-bzip2")
  else if checkString buffer "ID3" no_options then
    ignore 6 ;;                          (* Skip ID3 header until the header size *)
    id3HeaderLength <- readToken uint32SyncSafeToken ;;
    beyond <- gets (fun tokenizer =>
                gt_size (position tokenizer + id3HeaderLength) (fileInfo_size tokenizer)) ;;
    if beyond then
      (* Guess file type based on ID3 header for backward compatibility *)
      ret (FT "mp3" "audio/mpeg")
    else
      ignore id3HeaderLength ;;
      fileTypeFromTokenizer_with self    (* Skip ID3 header, recursion *)
  (* Musepack, SV7 *)
  else if checkString buffer "MP+" no_options then ret (FT "mpc" "audio/x-musepack")
  else if (strict_eq 0x43 (buf_get buffer 0) || strict_eq 0x46 (buf_get buffer 0))
          && check buffer [0x57; 0x53] (at_offset 1) then
    ret (FT "swf" "application/x-shockwave-flash")
  else signatures_4byte fuel buffer.

(** From [-- 2-byte signatures --]. *)
Definition signatures_2byte (fuel : nat) (self : M Detection) (buffer : Buffer)
  : M Detection :=
  if check buffer [0x42; 0x4D] no_options then ret (FT "bmp" "image/bmp")
  else if check buffer [0x0B; 0x77] no_options then ret (FT "ac3" "audio/vnd.dolby.dd-raw")
  else if check buffer [0x78; 0x01] no_options then
    ret (FT "dmg" "application/x-apple-diskimage")
  else if check buffer [0x4D; 0x5A] no_options then ret (FT "exe" "application/x-msdownload")
  else if check buffer [0x25; 0x21] no_options then
    '(_, buffer) <- peekBuffer buffer (Some (opt_length_mayBeLess 24)) ;;
    if checkString buffer "PS-Adobe-" (at_offset 2)
       && checkString buffer " EPSF-" (at_offset 14) then
      ret (FT "eps" "application/eps")
    else ret (FT "ps" "application/postscript")
  else if check buffer [0x1F; 0xA0] no_options || check buffer [0x1F; 0x9D] no_options then
    ret (FT "Z" "application/x-compress")
  else signatures_3byte fuel self buffer.

(** The body of [FileTypeParser.parse]. *)
Definition parse_body (fuel : nat) (self : M Detection) : M Detection :=
  let buffer := Buffer_alloc minimumBytes in
  (* Keep reading until EOF if the file size is unknown. *)
  size <- gets fileInfo_size ;;
  match size with
  | None => modify (fun tokenizer => set_size tokenizer (Some MAX_SAFE_INTEGER))
  | Some _ => ret tt
  end ;;
  '(_, buffer) <- peekBuffer buffer (Some (opt_length_mayBeLess 12)) ;;
  signatures_2byte fuel self buffer.

(** [FileTypeParser.parse]: [fuel] bounds the depth of its re-entry and the
    number of rounds of every loop inside. *)
Fixpoint parse (fuel : nat) : M Detection :=
  match fuel with
  | O => out_of_fuel
  | S fuel' => parse_body fuel' (parse fuel')
  end.

Definition fileTypeFromTokenizer (fuel : nat) : M Detection :=
  fileTypeFromTokenizer_with (parse fuel).

(** *** The entry points *)

(** How the promise of an entry point settles, as its caller sees it. *)
Inductive Outcome (A : Type) : Type :=
| Fulfilled (a : A)
| Rejected (e : error)
| Pending.
Arguments Fulfilled {A} _.
Arguments Rejected {A} _.
Arguments Pending {A}.

Definition outcome {A} (r : Res A) : Outcome A :=
  match r with
  | Ok a _ => Fulfilled a
  | Throw e _ => Rejected e
  | OutOfFuel => Pending
  end.

(** The argument of [fileTypeFromBuffer]. *)
Inductive Input : Type :=
| AUint8Array (bytes : Buffer)
| AnArrayBuffer (bytes : Buffer)
| Other (type_of : string).

Definition fileTypeFromBuffer (fuel : nat) (input : Input) : Outcome Detection :=
  match input with
  | Other type_of =>
      Rejected (TypeError ("Expected the `input` argument to be of type `Uint8Array` or `Buffer` or `ArrayBuffer`, got `" ++ type_of ++ "`"))
  | AUint8Array buffer | AnArrayBuffer buffer =>
      if negb (1 <? buf_length buffer) then Fulfilled None
      else outcome (fileTypeFromTokenizer fuel (fromBuffer buffer None))
  end.

(** A value in call position: [undefined], or a function from a path to the
    promise of a tokenizer. *)
Inductive Callee : Type :=
| Undefined
| Function (f : string -> Promise unit).

(** Calling a value: a [TypeError] when it is not a function. *)
Definition js_call (f : Callee) (arg : string) : error + Promise unit :=
  match f with
  | Undefined => inl (TypeError "undefined is not a function")
  | Function f => inr (f arg)
  end.

(** [fileTypeFromFile]: [const tokenizer = await undefined(path)], then
    [try { return await fileTypeFromTokenizer(tokenizer) }
     finally { await tokenizer.close() }] with an empty [close]. *)
Definition fileTypeFromFile (fuel : nat) (path : string) : Outcome Detection :=
  match js_call Undefined path with
  | inl e => Rejected e
  | inr opened =>
      match opened with
      | Ok _ tokenizer => outcome (fileTypeFromTokenizer fuel tokenizer)
      | Throw e _ => Rejected e
      | OutOfFuel => Pending
      end
  end.

(* ================================================================== *)
(** ** Specification-side definitions *)
(* ================================================================== *)

(** The comparison that the specification describes for one entry of a
    header: [header[i]] against [mask[i] & sample[offset + i]] when a mask
    is given, against [sample[offset + i]] otherwise. *)
Definition entry_matches (buffer : Buffer) (options : CheckOptions) (index header : Z) : Prop :=
  let offset_ := match offset options with Some o => o | None => 0 end in
  match mask options with
  | Some mask_ => header = js_and_opt (arr_get mask_ index) (buf_get buffer (index + offset_))
  | None => buf_get buffer (index + offset_) = Some header
  end.

(** The 8-byte PNG signature. *)
Definition png_signature : Buffer := [x89; x50; x4e; x47; x0d; x0a; x1a; x0a].

(** The UTF-8 byte order mark. *)
Definition utf8_bom : Buffer := [xef; xbb; xbf].

(** The sum of the bytes of a list, each taken as an unsigned number. *)
Definition byte_sum (l : Buffer) : Z := fold_right (fun b acc => byte_Z b + acc) 0 l.

(** *** The checksum field of a TAR header, in the words of the specification *)

(** The field: the six bytes 148..153. *)
Definition tar_checksum_bytes (buffer : Buffer) : Buffer := firstn 6 (skipn 148 buffer).

(** NUL-terminated: the characters before the first NUL. *)
Fixpoint text_before_nul (s : JSString) : JSString :=
  match s with
  | [] => []
  | c :: r => if c =? 0 then [] else c :: text_before_nul r
  end.

(** Whitespace-trimmed: without the white space and the line terminators at
    its two ends.  [blank] lists them. *)
Definition blank (c : Z) : bool :=
  existsb (Z.eqb c)
    [0x09; 0x0A; 0x0B; 0x0C; 0x0D; 0x20; 0xA0; 0x1680; 0x2028; 0x2029; 0x202F; 0x205F;
     0x3000; 0xFEFF]
  || ((0x2000 <=? c) && (c <=? 0x200A)).

Fixpoint drop_blanks (s : JSString) : JSString :=
  match s with
  | [] => []
  | c :: r => if blank c then drop_blanks r else c :: r
  end.

Definition strip_blanks (s : JSString) : JSString :=
  rev (drop_blanks (rev (drop_blanks s))).

(** Parsed base 8: the values of the octal digits that the text starts
    with, read as a number in base 8; without such a digit the text is not
    parsable.  A sign in front is accepted and what follows the digits is
    left out. *)
Fixpoint octal_digits (s : JSString) : list Z :=
  match s with
  | [] => []
  | c :: r => if (0x30 <=? c) && (c <=? 0x37) then (c - 0x30) :: octal_digits r else []
  end.

Definition base8 (digits : list Z) : option Z :=
  match digits with
  | [] => None
  | _ :: _ => Some (fold_left (fun n d => 8 * n + d) digits 0)
  end.

Definition octal_number (s : JSString) : option Z :=
  match s with
  | 0x2D :: r => option_map Z.opp (base8 (octal_digits r))
  | 0x2B :: r => base8 (octal_digits r)
  | _ => base8 (octal_digits s)
  end.

(** The number in the checksum field; [None] when it is not parsable. *)
Definition tar_checksum_field (buffer : Buffer) : option Z :=
  octal_number (strip_blanks (text_before_nul (utf8_decode (tar_checksum_bytes buffer)))).

(** A character that is neither an octal digit nor a sign ends the number. *)
Definition ends_number (c : Z) : Prop :=
  (0x30 <=? c) && (c <=? 0x37) = false /\ c <> 0x2D /\ c <> 0x2B.

(** A detection result that lies in the exported catalogs. *)
Definition in_catalog (d : Detection) : Prop :=
  match d with
  | None => True
  | Some fileType =>
      Set_has supportedExtensions (ext fileType) = true
      /\ Set_has supportedMimeTypes (mime fileType) = true
  end.

Definition in_catalog_opt (r : option Detection) : Prop :=
  match r with Some d => in_catalog d | None => True end.

(** Hoare triples over the tokenizer monad, for an invariant [I] of the
    tokenizer that also holds where an error is thrown, and a postcondition
    [Q] on the value. *)
Definition hoare {A} (I : BufferTokenizer -> Prop) (m : M A) (Q : A -> Prop) : Prop :=
  forall t, I t ->
    match m t with
    | Ok a t' => I t' /\ Q a
    | Throw _ t' => I t'
    | OutOfFuel => True
    end.

(** The invariant that says nothing. *)
Definition any_state (t : BufferTokenizer) : Prop := True.

(** A tokenizer as [fromBuffer] makes it and as the operations keep it: the
    size is the length of the array, the position lies inside, the scratch
    buffer has its eight bytes. *)
Definition wf (t : BufferTokenizer) : Prop :=
  fileInfo_size t = Some (buf_length (uint8Array t))
  /\ 0 <= position t <= buf_length (uint8Array t)
  /\ List.length (numBuffer t) = 8%nat.

(** An array after [source] has been copied to its start. *)
Definition overlay (source target : Buffer) : Buffer :=
  source ++ skipn (List.length source) target.

(** The [n] bytes of the tokenizer from its position on (fewer at the end). *)
Definition upcoming (t : BufferTokenizer) (n : Z) : Buffer :=
  firstn (Z.to_nat n) (skipn (Z.to_nat (position t)) (uint8Array t)).

(** The number of bytes from the position to the end. *)
Definition remaining (t : BufferTokenizer) : Z :=
  buf_length (uint8Array t) - position t.

(** The bytes of the tokenizer from its position on. *)
Definition unread (t : BufferTokenizer) : Buffer :=
  skipn (Z.to_nat (position t)) (uint8Array t).

(** How the walk over the chunks of a PNG ends, as the specification
    describes it. *)
Inductive PngWalk : Type :=
| Detected (d : Detection)   (* the walk answers [d] *)
| Truncated                  (* the bytes end inside a chunk header *)
| Unfinished.                (* more rounds are needed *)

(** The walk over [chunks], the bytes that follow the signature, in the
    words of the specification: read [{length: i32be, type: 4 bytes}]; a
    negative length gives "unknown", [IDAT] gives png, [acTL] gives apng;
    otherwise skip [length + 4] bytes and go on while more than 8 bytes are
    left (position + 8 < size), answering png when they are not. *)
Fixpoint png_walk (rounds : nat) (chunks : Buffer) : PngWalk :=
  match rounds with
  | O => Unfinished
  | S rounds' =>
      if (List.length chunks <? 8)%nat then Truncated
      else
        let length_ := to_signed32 (uint_be (firstn 4 chunks)) in
        let type_ := map byte_Z (firstn 4 (skipn 4 chunks)) in
        if length_ <? 0 then Detected None
        else if is_str type_ "IDAT" then Detected (FT "png" "image/png")
        else if is_str type_ "acTL" then Detected (FT "apng" "image/apng")
        else
          let rest := skipn (Z.to_nat (8 + length_ + 4)) chunks in
          if (8 <? List.length rest)%nat then png_walk rounds' rest
          else Detected (FT "png" "image/png")
  end.

(** *** The same bytes behind a prefix *)

(** The tokenizer over the same bytes with [prefix] put in front, at the
    corresponding position. *)
Definition shift (prefix : Buffer) (t : BufferTokenizer) : BufferTokenizer :=
  {| uint8Array := prefix ++ uint8Array t;
     position := position t + buf_length prefix;
     numBuffer := numBuffer t;
     fileInfo_size := option_map (fun s => s + buf_length prefix) (fileInfo_size t) |}.

(** Well-formed and at or after [p0]. *)
Definition Inv (p0 : Z) (t : BufferTokenizer) : Prop := wf t /\ p0 <= position t.

(** [m] keeps the tokenizer well-formed and at or after [p0], returns values
    that satisfy [Q], and runs on the shifted tokenizer as on the tokenizer
    itself. *)
Definition shifted {A} (prefix : Buffer) (p0 : Z) (m : M A) (Q : A -> Prop) : Prop :=
  forall t, Inv p0 t ->
    match m t with
    | Ok a t' => Inv p0 t' /\ Q a /\ m (shift prefix t) = Ok a (shift prefix t')
    | Throw e t' => Inv p0 t' /\ m (shift prefix t) = Throw e (shift prefix t')
    | OutOfFuel => m (shift prefix t) = OutOfFuel
    end.

(** The length and the [mayBeLess] flag that [normalizeOptions] settles on. *)
Definition norm_length (target : Buffer) (o : ReadOptions) : Z :=
  or_default (o_length o) (buf_length target - or_default (o_offset o) 0).

Definition norm_mayBeLess (o : ReadOptions) : bool :=
  match o_mayBeLess o with Some true => true | _ => false end.

(** *** Detection from the start of an input and of a longer one *)

(** Run from the start of [X], [m] either leaves the tokenizer where it is,
    and then does and returns the same from the start of [X ++ Y], or ends
    somewhere else. *)
Definition stable (X Y : Buffer) {A} (m : M A) : Prop :=
  forall a t', m (fromBuffer X None) = Ok a t' -> position t' = 0 ->
    t' = fromBuffer X None
    /\ m (fromBuffer (X ++ Y) None) = Ok a (fromBuffer (X ++ Y) None).

(** Run from the start of [X], [m] does not return with the tokenizer still
    at the start. *)
Definition advances (X : Buffer) {A} (m : M A) : Prop :=
  forall a t', m (fromBuffer X None) = Ok a t' -> 0 < position t'.

(** Wherever it is run, [m] does not return without having moved the
    tokenizer forward. *)
Definition moves_on {A} (m : M A) : Prop :=
  forall t, wf t ->
    match m t with
    | Ok _ t' => wf t' /\ position t < position t'
    | _ => True
    end.

(* ================================================================== *)
(** * Properties *)
(* ================================================================== *)

(** ** The tokenizer operations in closed form *)

Lemma peekBuffer_some target o t :
  peekBuffer target (Some o) t =
  if match o_position o with Some p => p <? position t | None => false end
  then Throw position_error t
  else
    let length_ := or_default (o_length o) (buf_length target - or_default (o_offset o) 0) in
    let position_ := or_default (o_position o) (position t) in
    let bytes2read := Z.min (buf_length (uint8Array t) - position_) length_ in
    if negb (match o_mayBeLess o with Some true => true | _ => false end)
       && (bytes2read <? length_)
    then Throw EndOfStreamError t
    else match buf_set target (subarray (uint8Array t) position_ (position_ + bytes2read))
                 (or_default (o_offset o) 0) with
         | inl e => Throw e t
         | inr filled => Ok (bytes2read, filled) t
         end.
Proof.
  unfold peekBuffer, normalizeOptions, bind, gets, throw, ret.
  destruct (match o_position o with Some p => p <? position t | None => false end);
    [reflexivity|].
  cbv zeta. simpl.
  match goal with |- context [if ?c then _ else _] => destruct c end; [reflexivity|].
  unfold lift. destruct (buf_set _ _ _); reflexivity.
Qed.

Lemma length_subarray_le b p n :
  0 <= p -> 0 <= p + n \/ 0 <= n ->
  (List.length (subarray b p (p + n)) <= Z.to_nat n)%nat.
Proof.
  intros Hp Hn. unfold subarray, rel_index.
  rewrite length_firstn, length_skipn. unfold buf_length.
  destruct (p <? 0) eqn:E1; [apply Z.ltb_lt in E1; lia|].
  destruct (p + n <? 0) eqn:E2.
  - apply Z.ltb_lt in E2. lia.
  - apply Z.ltb_ge in E2. lia.
Qed.

(** ** The probe primitive *)

Lemma strict_eq_true h v : strict_eq h v = true <-> v = Some h.
Proof.
  unfold strict_eq. destruct v as [v|]; split; intros H; try discriminate.
  - apply Z.eqb_eq in H. congruence.
  - inversion H. apply Z.eqb_refl.
Qed.

Lemma check_entries_spec buffer off mask_ headers :
  forall index,
    check_entries buffer headers index off mask_ = true <->
    (forall (i : nat) header, nth_error headers i = Some header ->
       entry_matches buffer {| offset := Some off; mask := mask_ |}
         (index + Z.of_nat i) header).
Proof.
  induction headers as [|h rest IH]; intros index; simpl.
  - split; [intros _ i header Hi; destruct i; discriminate | reflexivity].
  - unfold entry_matches; simpl. destruct mask_ as [m|].
    + destruct (h =? js_and_opt (arr_get m index) (buf_get buffer (index + off))) eqn:E; simpl.
      * apply Z.eqb_eq in E. rewrite IH. split.
        -- intros H [|i] header Hi; simpl in Hi.
           ++ injection Hi as <-. rewrite Z.add_0_r. exact E.
           ++ specialize (H i header Hi). unfold entry_matches in H; simpl in H.
              replace (index + Z.of_nat (S i)) with (index + 1 + Z.of_nat i) by lia. exact H.
        -- intros H i header Hi. specialize (H (S i) header Hi).
           unfold entry_matches; simpl.
           replace (index + Z.of_nat (S i)) with (index + 1 + Z.of_nat i) in H by lia. exact H.
      * split; [discriminate|]. intros H. specialize (H O h eq_refl).
        rewrite Z.add_0_r in H. apply Z.eqb_neq in E. contradiction.
    + destruct (strict_eq h (buf_get buffer (index + off))) eqn:E; simpl.
      * apply strict_eq_true in E. rewrite IH. split.
        -- intros H [|i] header Hi; simpl in Hi.
           ++ injection Hi as <-. rewrite Z.add_0_r. exact E.
           ++ specialize (H i header Hi). unfold entry_matches in H; simpl in H.
              replace (index + Z.of_nat (S i)) with (index + 1 + Z.of_nat i) by lia. exact H.
        -- intros H i header Hi. specialize (H (S i) header Hi).
           unfold entry_matches; simpl.
           replace (index + Z.of_nat (S i)) with (index + 1 + Z.of_nat i) in H by lia. exact H.
      * split; [discriminate|]. intros H. specialize (H O h eq_refl).
        rewrite Z.add_0_r in H. apply strict_eq_true in H. congruence.
Qed.

Lemma check_spec buffer headers options :
  _check buffer headers options = true <->
  (forall (i : nat) header, nth_error headers i = Some header ->
     entry_matches buffer options (Z.of_nat i) header).
Proof.
  unfold _check. rewrite check_entries_spec. unfold entry_matches; simpl.
  split; intros H i header Hi; specialize (H i header Hi); simpl in *; exact H.
Qed.

(** A byte of a freshly allocated array that a write at offset 0 did not
    reach is still zero. *)
Lemma buf_get_beyond_written (sub : Buffer) size_ j :
  Z.of_nat (List.length sub) <= j -> j < Z.of_nat size_ ->
  buf_get (firstn (Z.to_nat 0) (repeat x00 size_) ++ sub
           ++ skipn (Z.to_nat 0 + List.length sub) (repeat x00 size_)) j = Some 0.
Proof.
  intros H1 H2. unfold buf_get.
  destruct (j <? 0) eqn:E; [apply Z.ltb_lt in E; lia|].
  simpl. rewrite nth_error_app2 by lia.
  rewrite nth_error_skipn.
  replace (List.length sub + (Z.to_nat j - List.length sub))%nat with (Z.to_nat j) by lia.
  rewrite nth_error_repeat by lia. reflexivity.
Qed.

Lemma fresh_fill_zero data p m j filled :
  0 <= p -> 0 <= p + m \/ 0 <= m ->
  buf_set (Buffer_alloc minimumBytes) (subarray data p (p + m)) 0 = inr filled ->
  m <= j -> 0 <= j < minimumBytes ->
  buf_get filled j = Some 0.
Proof.
  intros Hp Hc H Hm Hj. unfold buf_set in H.
  match type of H with context [if ?c then _ else _] => destruct c end; [discriminate|].
  injection H as <-. unfold Buffer_alloc.
  apply buf_get_beyond_written.
  - pose proof (length_subarray_le data p m Hp Hc). lia.
  - unfold minimumBytes in *. lia.
Qed.

Lemma peek_fresh_sample_zero t length_ n sample t' j :
  0 <= position t -> 0 <= length_ ->
  peekBuffer (Buffer_alloc minimumBytes) (Some (opt_length_mayBeLess length_)) t
    = Ok (n, sample) t' ->
  n <= j -> 0 <= j < minimumBytes ->
  buf_get sample j = Some 0.
Proof.
  intros Hp Hl H Hn Hj. rewrite peekBuffer_some in H.
  cbn [opt_length_mayBeLess o_position o_length o_offset o_mayBeLess negb andb] in H.
  cbv zeta in H. unfold or_default at 3 4 in H. cbn [truthy] in H.
  destruct (buf_set _ _ _) as [e|filled] eqn:E; [discriminate|].
  injection H as <- <- <-.
  eapply fresh_fill_zero; [exact Hp | | exact E | exact Hn | exact Hj].
  unfold or_default, truthy, buf_length, Buffer_alloc, minimumBytes.
  rewrite repeat_length.
  destruct (length_ =? 0); simpl negb; cbv iota; lia.
Qed.

(** C3 (as amended).  [_check] returns true exactly when every entry of the
    header equals the sample byte at its position, after masking when a mask
    is given; and a compared position that lies beyond the bytes peeked into
    the freshly allocated sample, but inside it, holds zero, so that the probe
    fails whenever the header byte at that index is not zero. *)
Theorem check_true_iff_entries_match_and_unset_bytes_are_zero :
  forall (headers : list Z) (options : CheckOptions),
    (forall buffer,
        _check buffer headers options = true <->
        (forall (i : nat) header, nth_error headers i = Some header ->
           entry_matches buffer options (Z.of_nat i) header))
    /\
    (forall t length_ n sample t' (i : nat) header,
        0 <= position t -> 0 <= length_ ->
        peekBuffer (Buffer_alloc minimumBytes) (Some (opt_length_mayBeLess length_)) t
          = Ok (n, sample) t' ->
        nth_error headers i = Some header ->
        n <= Z.of_nat i + match offset options with Some o => o | None => 0 end ->
        0 <= Z.of_nat i + match offset options with Some o => o | None => 0 end
          < minimumBytes ->
        header <> 0 ->
        _check sample headers options = false).
Proof.
  intros headers options. split.
  - intros buffer. apply check_spec.
  - intros t length_ n sample t' i header Hp Hl Hpeek Hi Hn Hj Hh.
    destruct (_check sample headers options) eqn:E; [|reflexivity].
    exfalso. apply check_spec with (i := i) (header := header) in E; [|exact Hi].
    pose proof (peek_fresh_sample_zero _ _ _ _ _ _ Hp Hl Hpeek Hn Hj) as Hz.
    unfold entry_matches in E. cbv zeta in E. rewrite Hz in E.
    destruct (mask options) as [m|].
    + unfold js_and_opt in E. simpl in E.
      change (ToInt32 0) with 0 in E. rewrite Z.land_0_r in E. contradiction.
    + congruence.
Qed.

(** A run of the theorem: three bytes peeked, the probe for the MPEG
    program stream fails at the fourth position. *)
Lemma check_true_iff_entries_match_and_unset_bytes_are_zero_witness :
  let t := fromBuffer [x00; x00; x01] None in
  let sample := [x00; x00; x01] ++ repeat x00 4097 in
  0 <= position t /\ 0 <= 12 /\
  peekBuffer (Buffer_alloc minimumBytes) (Some (opt_length_mayBeLess 12)) t
    = Ok (3, sample) t /\
  nth_error [0x00; 0x00; 0x01; 0xBA] 3 = Some 0xBA /\
  3 <= Z.of_nat 3 + 0 /\ 0 <= Z.of_nat 3 + 0 < minimumBytes /\ 0xBA <> 0 /\
  _check sample [0x00; 0x00; 0x01; 0xBA] no_options = false.
Proof.
  intros t sample.
  assert (Hpeek : peekBuffer (Buffer_alloc minimumBytes) (Some (opt_length_mayBeLess 12)) t
                  = Ok (3, sample) t) by (vm_compute; reflexivity).
  assert (H0 : 0 <= position t) by (vm_compute; discriminate).
  assert (H1 : 0 <= 12) by lia.
  assert (H2 : nth_error [0x00; 0x00; 0x01; 0xBA] 3 = Some 0xBA) by reflexivity.
  assert (H3 : 3 <= Z.of_nat 3 + 0) by (vm_compute; discriminate).
  assert (H4 : 0 <= Z.of_nat 3 + 0 < minimumBytes)
    by (split; vm_compute; [discriminate | reflexivity]).
  assert (H5 : 0xBA <> 0) by discriminate.
  repeat (split; [assumption|]).
  exact (proj2 (check_true_iff_entries_match_and_unset_bytes_are_zero
                  [0x00; 0x00; 0x01; 0xBA] no_options)
               t 12 3 sample t 3%nat 0xBA H0 H1 Hpeek H2 H3 H4 H5).
Defined.

(** C3, as stated, fails: the input 00 00 01 has three bytes peeked, the
    icon signature 00 00 01 00 is compared at positions 0..3, position 3 lies
    beyond the peeked bytes, and the probe succeeds. *)
Lemma check_unset_byte_counterexample :
  let t := fromBuffer [x00; x00; x01] None in
  let sample := [x00; x00; x01] ++ repeat x00 4097 in
  peekBuffer (Buffer_alloc minimumBytes) (Some (opt_length_mayBeLess 12)) t
    = Ok (3, sample) t
  /\ 3 <= 3 + 0
  /\ _check sample [0x00; 0x00; 0x01; 0x00] no_options = true.
Proof.
  intros t sample. split; [vm_compute; reflexivity|].
  split; [lia | vm_compute; reflexivity].
Qed.

(** ** The sync-safe token *)

(** C2.  The decoder masks bit 7 of the last byte only: on FF FF FF FF it
    yields 2^29 - 1, which is not below 2^28 and is not the value 2^28 - 1
    that the four 7-bit groups concatenate to. *)
Theorem uint32SyncSafeToken_keeps_bit_7 :
  uint32SyncSafeToken_get [xff; xff; xff; xff] 0 = 2 ^ 29 - 1
  /\ ~ uint32SyncSafeToken_get [xff; xff; xff; xff] 0 < 2 ^ 28
  /\ uint32SyncSafeToken_get [xff; xff; xff; xff] 0
     <> ((0x7F * 128 + 0x7F) * 128 + 0x7F) * 128 + 0x7F.
Proof.
  vm_compute. repeat split; intros H; discriminate H.
Qed.

(** ** The entry points *)

(** C9.  [fileTypeFromBuffer] answers [undefined] for an input of at most one
    byte and hands every longer input to [fileTypeFromTokenizer] over a
    tokenizer made by [fromBuffer]. *)
Theorem fileTypeFromBuffer_short_or_delegates :
  forall (fuel : nat) (input : Input) (bytes : Buffer),
    input = AUint8Array bytes \/ input = AnArrayBuffer bytes ->
    ((List.length bytes <= 1)%nat -> fileTypeFromBuffer fuel input = Fulfilled None)
    /\ ((2 <= List.length bytes)%nat ->
        fileTypeFromBuffer fuel input
        = outcome (fileTypeFromTokenizer fuel (fromBuffer bytes None))).
Proof.
  intros fuel input bytes [-> | ->]; unfold fileTypeFromBuffer, buf_length; split; intros H.
  - destruct (1 <? Z.of_nat (List.length bytes)) eqn:E; [apply Z.ltb_lt in E; lia|reflexivity].
  - destruct (1 <? Z.of_nat (List.length bytes)) eqn:E; [reflexivity|apply Z.ltb_ge in E; lia].
  - destruct (1 <? Z.of_nat (List.length bytes)) eqn:E; [apply Z.ltb_lt in E; lia|reflexivity].
  - destruct (1 <? Z.of_nat (List.length bytes)) eqn:E; [reflexivity|apply Z.ltb_ge in E; lia].
Qed.

Lemma fileTypeFromBuffer_short_or_delegates_witness :
  (AUint8Array [x42] = AUint8Array [x42] \/ AUint8Array [x42] = AnArrayBuffer [x42])
  /\ (List.length [x42] <= 1)%nat
  /\ fileTypeFromBuffer 5 (AUint8Array [x42]) = Fulfilled None.
Proof.
  assert (H0 : AUint8Array [x42] = AUint8Array [x42] \/ AUint8Array [x42] = AnArrayBuffer [x42])
    by (left; reflexivity).
  assert (H1 : (List.length [x42] <= 1)%nat) by (simpl; lia).
  split; [exact H0|]. split; [exact H1|].
  exact (proj1 (fileTypeFromBuffer_short_or_delegates 5 (AUint8Array [x42]) [x42] H0) H1).
Defined.

(** C10.  [fileTypeFromFile] calls [undefined] as its opener: for every path
    its promise is rejected with a [TypeError], and it is never fulfilled with
    a detection result. *)
Theorem fileTypeFromFile_always_rejects :
  forall (fuel : nat) (path : string),
    fileTypeFromFile fuel path = Rejected (TypeError "undefined is not a function")
    /\ forall r : Detection, fileTypeFromFile fuel path <> Fulfilled r.
Proof.
  intros fuel path. split; [reflexivity|]. intros r H. discriminate H.
Qed.

(** ** [fileTypeFromTokenizer] and the end of the stream *)

(** The [try] of [fileTypeFromTokenizer] never sees a rejection of the
    promise of [parse]: the function settles exactly as [parse] does. *)
Lemma fileTypeFromTokenizer_with_is_parse (parse_ : M Detection) tokenizer :
  fileTypeFromTokenizer_with parse_ tokenizer = parse_ tokenizer.
Proof. reflexivity. Qed.

(** C1.  On the eight bytes of the PNG signature alone the chunk walk reads
    past the end, [parse] is rejected with [EndOfStreamError], and
    [fileTypeFromTokenizer] (hence [fileTypeFromBuffer]) is rejected with that
    error instead of being fulfilled with [undefined]. *)
Theorem fileTypeFromTokenizer_leaks_EndOfStream :
  forall fuel : nat,
    outcome (fileTypeFromTokenizer (S (S fuel)) (fromBuffer png_signature None))
    = Rejected EndOfStreamError
    /\ fileTypeFromBuffer (S (S fuel)) (AUint8Array png_signature)
       = Rejected EndOfStreamError.
Proof.
  intros fuel. split; vm_compute; reflexivity.
Qed.

(** ** The TAR checksum *)

Lemma skipn_nth_error_cons {A} (l : list A) n x :
  nth_error l n = Some x -> skipn n l = x :: skipn (S n) l.
Proof.
  revert n; induction l as [|a l IH]; intros [|n] H; simpl in *; try discriminate.
  - injection H as ->. reflexivity.
  - apply IH in H. rewrite H. destruct l; reflexivity.
Qed.

(** A summing loop over a range that lies inside the array adds up the
    bytes of that range. *)
Lemma for_range_sum buffer count :
  forall (start : nat) s,
    (start + count <= List.length buffer)%nat ->
    for_range (Z.of_nat start) count (add_element buffer) (Some s)
    = Some (s + byte_sum (firstn count (skipn start buffer))).
Proof.
  induction count as [|c IH]; intros start s H; simpl.
  - f_equal. lia.
  - destruct (nth_error buffer start) as [b|] eqn:E.
    2:{ apply nth_error_None in E. lia. }
    unfold add_element at 1. unfold buf_get.
    destruct (Z.of_nat start <? 0) eqn:E0; [apply Z.ltb_lt in E0; lia|].
    rewrite Nat2Z.id, E. simpl.
    replace (Z.of_nat start + 1) with (Z.of_nat (S start)) by lia.
    rewrite IH by lia. rewrite (skipn_nth_error_cons _ _ _ E). simpl.
    f_equal. lia.
Qed.

Lemma tar_checksum_iff buffer :
  (512 <= List.length buffer)%nat ->
  tarHeaderChecksumMatches buffer 0 = true <->
  tar_readSum buffer
  = Some (8 * 0x20 + byte_sum (firstn 148 buffer)
          + byte_sum (firstn (512 - 156) (skipn 156 buffer))).
Proof.
  intros H. unfold tarHeaderChecksumMatches.
  destruct (tar_readSum buffer) as [r|]; [|split; discriminate].
  assert (H1 : for_range 0 148 (add_element buffer) (Some (8 * 0x20))
               = Some (8 * 0x20 + byte_sum (firstn 148 buffer))).
  { apply (for_range_sum buffer 148 0). lia. }
  rewrite H1.
  assert (H2 : for_range (0 + 156) (512 - 156) (add_element buffer)
                 (Some (8 * 0x20 + byte_sum (firstn 148 buffer)))
               = Some (8 * 0x20 + byte_sum (firstn 148 buffer)
                       + byte_sum (firstn (512 - 156) (skipn 156 buffer)))).
  { apply (for_range_sum buffer (512 - 156) 156). simpl. lia. }
  rewrite H2. rewrite Z.eqb_eq.
  split; [intros ->; reflexivity | intros E; injection E as ->; reflexivity].
Qed.

(** In the last part of the cascade only the TAR probe answers [tar]. *)
Lemma signatures_512_tar buffer t :
  (exists t', signatures_512 buffer t = Ok (FT "tar" "application/x-tar") t')
  <-> tarHeaderChecksumMatches buffer 0 = true.
Proof.
  unfold signatures_512.
  destruct (tarHeaderChecksumMatches buffer 0).
  - split; [reflexivity|]. intros _. exists t. reflexivity.
  - split; [|discriminate]. intros [t' H]. exfalso. revert H.
    repeat match goal with |- context [if ?c then _ else _] => destruct c end;
      unfold ret; intros H; discriminate H.
Qed.

(** *** The checksum field *)

Lemma blank_is_whitespace c : blank c = is_whitespace c.
Proof.
  apply eq_true_iff_eq. unfold blank, is_whitespace. cbn [existsb]. rewrite orb_false_r.
  rewrite !orb_true_iff. tauto.
Qed.

Lemma drop_blanks_is_trimStart s : drop_blanks s = trimStart s.
Proof.
  induction s as [|c r IH]; [reflexivity|]. simpl. rewrite blank_is_whitespace.
  destruct (is_whitespace c); [exact IH|reflexivity].
Qed.

Lemma strip_blanks_is_trim s : strip_blanks s = trim s.
Proof. unfold strip_blanks, trim. rewrite !drop_blanks_is_trimStart. reflexivity. Qed.

(** The digits read by [parseInt] are the digits of the specification. *)
Lemma octal_prefix_some s : forall a,
  octal_prefix (Some a) s = Some (fold_left (fun n d => 8 * n + d) (octal_digits s) a).
Proof.
  induction s as [|c r IH]; intros a; [reflexivity|]. cbn [octal_prefix octal_digits].
  unfold octal_digit. destruct ((48 <=? c) && (c <=? 55)); [|reflexivity].
  rewrite IH. cbn [fold_left]. do 2 f_equal. lia.
Qed.

Lemma octal_prefix_none s : octal_prefix None s = base8 (octal_digits s).
Proof.
  destruct s as [|c r]; [reflexivity|]. cbn [octal_prefix octal_digits].
  unfold octal_digit. destruct ((48 <=? c) && (c <=? 55)); [|reflexivity].
  rewrite octal_prefix_some. unfold base8. cbn [fold_left]. do 2 f_equal.
Qed.

Lemma octal_number_cons a r :
  octal_number (a :: r)
  = if a =? 0x2D then option_map Z.opp (base8 (octal_digits r))
    else if a =? 0x2B then base8 (octal_digits r)
    else base8 (octal_digits (a :: r)).
Proof.
  destruct (a =? 45) eqn:E1; [apply Z.eqb_eq in E1; subst; reflexivity|].
  destruct (a =? 43) eqn:E2; [apply Z.eqb_eq in E2; subst; reflexivity|].
  apply Z.eqb_neq in E1, E2. unfold octal_number.
  destruct a as [|p|p]; try reflexivity.
  do 6 (destruct p as [p|p|]; try reflexivity); congruence.
Qed.

(** What [parseInt] reads once the leading white space is gone. *)
Lemma parseInt8_is_octal_number s : parseInt8 s = octal_number (trimStart s).
Proof.
  unfold parseInt8. destruct (trimStart s) as [|c r]; [reflexivity|].
  rewrite octal_number_cons, !octal_prefix_none. reflexivity.
Qed.

Lemma octal_digits_app u c v :
  (0x30 <=? c) && (c <=? 0x37) = false -> octal_digits (u ++ c :: v) = octal_digits u.
Proof.
  intros H. induction u as [|a u IH]; cbn [app octal_digits]; [rewrite H; reflexivity|].
  destruct ((48 <=? a) && (a <=? 55)); [rewrite IH|]; reflexivity.
Qed.

Lemma octal_number_app u c v :
  ends_number c -> octal_number (u ++ c :: v) = octal_number u.
Proof.
  intros [Hd [Hm Hp]]. destruct u as [|a u]; cbn [app].
  - rewrite octal_number_cons. apply Z.eqb_neq in Hm, Hp. rewrite Hm, Hp.
    cbn [octal_digits]. rewrite Hd. reflexivity.
  - rewrite !octal_number_cons.
    change (a :: u ++ c :: v) with ((a :: u) ++ c :: v).
    rewrite !octal_digits_app by exact Hd. reflexivity.
Qed.

Lemma whitespace_ends_number c : is_whitespace c = true -> ends_number c.
Proof.
  intros H. unfold ends_number.
  destruct ((48 <=? c) && (c <=? 55)) eqn:E.
  { apply andb_true_iff in E. destruct E as [E1 E2]. apply Z.leb_le in E1, E2.
    assert (Hc : In c [48; 49; 50; 51; 52; 53; 54; 55]) by (simpl; lia).
    simpl in Hc. decompose [or] Hc; subst; try discriminate H. contradiction. }
  split; [reflexivity|]. split; intros ->; discriminate H.
Qed.

Lemma nul_ends_number : ends_number 0.
Proof. repeat split; intros H; discriminate H. Qed.

(** White space after the text does not change the number. *)
Lemma octal_number_app_whitespace u w :
  forallb is_whitespace w = true -> octal_number (u ++ w) = octal_number u.
Proof.
  destruct w as [|c v]; [rewrite app_nil_r; reflexivity|]. cbn [forallb]. intros H.
  apply andb_true_iff in H. apply octal_number_app, whitespace_ends_number, H.
Qed.

Lemma trimStart_split s :
  exists w, forallb is_whitespace w = true /\ s = w ++ trimStart s.
Proof.
  induction s as [|c r [w [Hw E]]]; [exists []; split; reflexivity|].
  cbn [trimStart]. destruct (is_whitespace c) eqn:Hc.
  - exists (c :: w). cbn [forallb]. rewrite Hc, Hw. split; [reflexivity|].
    cbn [app]. f_equal. exact E.
  - exists []. split; reflexivity.
Qed.

Lemma forallb_rev {A} (f : A -> bool) l : forallb f (rev l) = forallb f l.
Proof.
  induction l as [|a l IH]; [reflexivity|]. cbn [rev forallb].
  rewrite forallb_app, IH. cbn [forallb]. rewrite andb_true_r. apply andb_comm.
Qed.

(** Trimming at the end takes white space away. *)
Lemma trim_split s :
  exists w, forallb is_whitespace w = true /\ trimStart s = trim s ++ w.
Proof.
  unfold trim. destruct (trimStart_split (rev (trimStart s))) as [w [Hw E]].
  exists (rev w). rewrite forallb_rev. split; [exact Hw|].
  rewrite <- (rev_involutive (trimStart s)) at 1. rewrite E at 1.
  apply rev_app_distr.
Qed.

Lemma octal_number_trim s : octal_number (trim s) = octal_number (trimStart s).
Proof.
  destruct (trim_split s) as [w [Hw E]]. rewrite E.
  symmetry. apply octal_number_app_whitespace. exact Hw.
Qed.

Lemma trimStart_fixed s :
  match s with [] => True | c :: _ => is_whitespace c = false end -> trimStart s = s.
Proof. destruct s as [|c r]; [reflexivity|]. cbn [trimStart]. intros ->. reflexivity. Qed.

Lemma trimStart_head s :
  match trimStart s with [] => True | c :: _ => is_whitespace c = false end.
Proof.
  induction s as [|c r IH]; [exact I|]. cbn [trimStart].
  destruct (is_whitespace c) eqn:E; [exact IH|exact E].
Qed.

Lemma trimStart_trim s : trimStart (trim s) = trim s.
Proof.
  apply trimStart_fixed. destruct (trim_split s) as [w [_ E]].
  pose proof (trimStart_head s) as H. rewrite E in H.
  destruct (trim s) as [|c r]; [exact I|exact H].
Qed.

(** The cut of the regular expression keeps the text before the first NUL;
    what it keeps after it starts with that NUL. *)
Lemma strip_nul_tail_split s :
  exists z, strip_nul_tail s = text_before_nul s ++ z
            /\ (z = [] \/ exists z', z = 0 :: z').
Proof.
  induction s as [|c r [z [E Hz]]]; [exists []; split; [reflexivity|left; reflexivity]|].
  cbn [strip_nul_tail text_before_nul]. destruct (c =? 0) eqn:Hc.
  - apply Z.eqb_eq in Hc. subst c. cbn [andb].
    destruct (negb (existsb is_line_terminator r)).
    + exists []. split; [reflexivity|left; reflexivity].
    + exists (0 :: strip_nul_tail r). split; [reflexivity|right; eexists; reflexivity].
  - cbn [andb]. exists z. rewrite E. split; [reflexivity|exact Hz].
Qed.

Lemma octal_number_trimStart_app p z :
  z = [] \/ (exists z', z = 0 :: z') ->
  octal_number (trimStart (p ++ z)) = octal_number (trimStart p).
Proof.
  intros Hz. induction p as [|c r IH]; cbn [app].
  - destruct Hz as [->|[z' ->]]; [reflexivity|].
    cbn [trimStart]. change (is_whitespace 0) with false. cbv iota.
    apply (octal_number_app [] 0 z' nul_ends_number).
  - cbn [trimStart]. destruct (is_whitespace c); [exact IH|].
    destruct Hz as [->|[z' ->]]; [rewrite app_nil_r; reflexivity|].
    apply (octal_number_app (c :: r) 0 z' nul_ends_number).
Qed.

(** The number that the code reads from a text is the number of the
    specification. *)
Lemma parseInt8_trim_strip_nul_tail s :
  parseInt8 (trim (strip_nul_tail s)) = octal_number (strip_blanks (text_before_nul s)).
Proof.
  rewrite parseInt8_is_octal_number, trimStart_trim, octal_number_trim.
  destruct (strip_nul_tail_split s) as [z [-> Hz]].
  rewrite octal_number_trimStart_app by exact Hz.
  rewrite strip_blanks_is_trim, octal_number_trim. reflexivity.
Qed.

Lemma tar_readSum_is_checksum_field buffer :
  (154 <= List.length buffer)%nat -> tar_readSum buffer = tar_checksum_field buffer.
Proof.
  intros H. unfold tar_readSum, tar_checksum_field, tar_checksum_bytes.
  rewrite parseInt8_trim_strip_nul_tail. do 3 f_equal.
  unfold toString, buf_length. cbv zeta.
  replace (Z.min 154 (Z.of_nat (List.length buffer))) with 154 by lia.
  reflexivity.
Qed.

(** ASCII bytes decode to themselves. *)
Lemma utf8_decode_ascii (l : Buffer) :
  Forall (fun b => byte_Z b < 0x80) l -> utf8_decode l = map byte_Z l.
Proof.
  unfold utf8_decode. induction 1 as [|b r Hb Hr IH]; [reflexivity|].
  cbn [utf8_code_points map]. unfold utf8_step, utf8_lead. cbn [u_needed utf8_start].
  destruct (byte_Z b <=? 127) eqn:E; [|apply Z.leb_gt in E; lia].
  cbn [app flat_map]. rewrite IH. unfold utf16_units.
  destruct (byte_Z b <? 65536) eqn:E'; [reflexivity|apply Z.ltb_ge in E'; lia].
Qed.

(** C8.  On a sample of at least 512 bytes the TAR probe answers
    [{tar, application/x-tar}] exactly when the number in the checksum field
    (the six bytes 148..153 decoded, up to the first NUL, without the white
    space at its ends, read in base 8) equals 8 * 0x20 plus the sum of bytes
    0..147 and of bytes 156..511; a field that is not parsable never matches.
    When the six bytes are ASCII, the decoded field is their values. *)
Theorem tar_probe_iff_checksum_matches :
  forall (buffer : Buffer) (t : BufferTokenizer),
    (512 <= List.length buffer)%nat ->
    ((exists t', signatures_512 buffer t = Ok (FT "tar" "application/x-tar") t')
     <-> tar_checksum_field buffer
         = Some (8 * 0x20 + byte_sum (firstn 148 buffer)
                 + byte_sum (firstn (512 - 156) (skipn 156 buffer))))
    /\ (tar_checksum_field buffer = None ->
        tarHeaderChecksumMatches buffer 0 = false
        /\ forall t', signatures_512 buffer t <> Ok (FT "tar" "application/x-tar") t')
    /\ (Forall (fun b => byte_Z b < 0x80) (tar_checksum_bytes buffer) ->
        tar_checksum_field buffer
        = octal_number (strip_blanks (text_before_nul
                                        (map byte_Z (tar_checksum_bytes buffer))))).
Proof.
  intros buffer t H.
  assert (E : tar_readSum buffer = tar_checksum_field buffer)
    by (apply tar_readSum_is_checksum_field; lia).
  split; [|split].
  - rewrite signatures_512_tar, <- E. apply tar_checksum_iff. exact H.
  - intros Hnone. rewrite <- E in Hnone.
    assert (Hf : tarHeaderChecksumMatches buffer 0 = false).
    { unfold tarHeaderChecksumMatches. rewrite Hnone. reflexivity. }
    split; [exact Hf|]. intros t' Ht.
    assert (Ht' : tarHeaderChecksumMatches buffer 0 = true).
    { apply (signatures_512_tar buffer t). exists t'. exact Ht. }
    congruence.
  - intros Hascii. unfold tar_checksum_field. rewrite utf8_decode_ascii by exact Hascii.
    reflexivity.
Qed.

(** A run of the theorem: a header of zero bytes whose checksum field reads
    000400, that is 256. *)
Lemma tar_probe_iff_checksum_matches_witness :
  let buffer := repeat x00 148 ++ list_byte_of_string "000400" ++ repeat x00 358 in
  (512 <= List.length buffer)%nat
  /\ tar_checksum_field buffer = Some 256
  /\ exists t', signatures_512 buffer (fromBuffer buffer None)
                = Ok (FT "tar" "application/x-tar") t'.
Proof.
  intros buffer.
  assert (H : (512 <= List.length buffer)%nat) by (vm_compute; lia).
  split; [exact H|]. split; [vm_compute; reflexivity|].
  apply (proj1 (tar_probe_iff_checksum_matches buffer (fromBuffer buffer None) H)).
  vm_compute. reflexivity.
Defined.

(** ** Hoare rules for the tokenizer monad *)

Section HoareRules.
Context (I : BufferTokenizer -> Prop).

Lemma hoare_ret {A} (a : A) (Q : A -> Prop) : Q a -> hoare I (ret a) Q.
Proof. intros H t Ht. simpl. auto. Qed.

Lemma hoare_throw {A} e (Q : A -> Prop) : hoare I (throw e) Q.
Proof. intros t Ht. exact Ht. Qed.

Lemma hoare_out_of_fuel {A} (Q : A -> Prop) : hoare I out_of_fuel Q.
Proof. intros t Ht. exact Logic.I. Qed.

Lemma hoare_bind {A B} (m : M A) (k : A -> M B) (P : A -> Prop) (Q : B -> Prop) :
    hoare I m P -> (forall a, P a -> hoare I (k a) Q) -> hoare I (bind m k) Q.
Proof.
    intros Hm Hk t Ht. unfold bind. specialize (Hm t Ht).
    destruct (m t) as [a t'|e t'|]; auto.
    destruct Hm as [Ht' Pa]. apply (Hk a Pa t' Ht').
Qed.

Lemma hoare_weaken {A} (m : M A) (P Q : A -> Prop) :
    hoare I m P -> (forall a, P a -> Q a) -> hoare I m Q.
Proof.
    intros Hm HPQ t Ht. specialize (Hm t Ht).
    destruct (m t) as [a t'|e t'|]; auto. destruct Hm; auto.
Qed.

Lemma hoare_lift {A} (x : error + A) (Q : A -> Prop) :
    (forall a, x = inr a -> Q a) -> hoare I (lift x) Q.
Proof. intros H t Ht. destruct x; simpl; auto. Qed.

Lemma hoare_gets {A} (f : BufferTokenizer -> A) (Q : A -> Prop) :
    (forall t, I t -> Q (f t)) -> hoare I (gets f) Q.
Proof. intros H t Ht. simpl. auto. Qed.

Lemma hoare_try_catch {A} (body : M A) handler (Q : A -> Prop) :
    hoare I body Q -> (forall e, hoare I (handler e) Q) -> hoare I (try_catch body handler) Q.
Proof.
    intros Hb Hh t Ht. unfold try_catch. specialize (Hb t Ht).
    destruct (body t) as [a t'|e t'|]; auto. apply (Hh e t' Hb).
Qed.
End HoareRules.


(** ** Every result lies in the catalogs *)

Lemma hoare_any {A} (m : M A) : hoare any_state m (fun _ => True).
Proof. intros t _. destruct (m t); unfold any_state; auto. Qed.

Create HintDb catalog_db.

Ltac catalog_ret :=
  apply hoare_ret;
  first [ exact Logic.I | assumption | solve [auto with catalog_db]
        | (vm_compute; auto; fail) | idtac ].

Ltac catalog_step :=
  lazymatch goal with
  | |- hoare _ (ret _) _ => catalog_ret
  | |- hoare _ (throw _) _ => apply hoare_throw
  | |- hoare _ out_of_fuel _ => apply hoare_out_of_fuel
  | |- hoare _ (@bind ?A _ _ _) _ =>
      let A' := eval cbv delta [Detection] in A in
      lazymatch A' with
      | option (option FileType) =>
          apply hoare_bind with (P := in_catalog_opt); [ | intros ? ?]
      | option FileType =>
          apply hoare_bind with (P := in_catalog); [ | intros ? ?]
      | _ => apply hoare_bind with (P := fun _ => True); [apply hoare_any | intros ? _]
      end
  | |- hoare _ (if ?c then _ else _) _ => destruct c
  | |- hoare _ (match ?x with _ => _ end) _ => destruct x
  | |- hoare _ (try_catch _ _) _ => apply hoare_try_catch; [|intros ?]
  | |- hoare _ _ _ => first [ eassumption | solve [auto with catalog_db] ]
  end.

Ltac catalog := repeat catalog_step.

Lemma catalog_zip_entries fuel : forall buffer,
  hoare any_state (zip_entries fuel buffer) in_catalog_opt.
Proof.
  induction fuel as [|fuel IH]; intros buffer; simpl; catalog.
Qed.
#[local] Hint Resolve catalog_zip_entries : catalog_db.

Lemma catalog_parse_zip fuel buffer : hoare any_state (parse_zip fuel buffer) in_catalog.
Proof. unfold parse_zip. catalog. Qed.

Lemma catalog_parse_ogg : hoare any_state parse_ogg in_catalog.
Proof. unfold parse_ogg. catalog. Qed.

Lemma catalog_ftyp_brand buffer : in_catalog (ftyp_brand buffer).
Proof.
  unfold ftyp_brand.
  repeat match goal with |- context [if ?c then _ else _] => destruct c end;
    vm_compute; auto.
Qed.

Lemma catalog_parse_pdf : hoare any_state parse_pdf in_catalog.
Proof. unfold parse_pdf. catalog. Qed.

Lemma catalog_readTiffTag b : hoare any_state (readTiffTag b) in_catalog.
Proof. unfold readTiffTag. catalog. Qed.
#[local] Hint Resolve catalog_readTiffTag : catalog_db.

Lemma catalog_readTiffIFD_tags b n : hoare any_state (readTiffIFD_tags b n) in_catalog.
Proof. induction n; simpl; catalog. Qed.
#[local] Hint Resolve catalog_readTiffIFD_tags : catalog_db.

Lemma catalog_readTiffIFD b : hoare any_state (readTiffIFD b) in_catalog.
Proof. unfold readTiffIFD. catalog. Qed.
#[local] Hint Resolve catalog_readTiffIFD : catalog_db.

Lemma catalog_readTiffHeader buffer b : hoare any_state (readTiffHeader buffer b) in_catalog.
Proof. unfold readTiffHeader. catalog. Qed.
#[local] Hint Resolve catalog_readTiffHeader : catalog_db.

Lemma catalog_parse_ebml fuel : hoare any_state (parse_ebml fuel) in_catalog.
Proof. unfold parse_ebml. catalog. Qed.

Lemma catalog_parse_ar : hoare any_state parse_ar in_catalog.
Proof. unfold parse_ar. catalog. Qed.

Lemma catalog_png_chunks fuel : hoare any_state (png_chunks fuel) in_catalog.
Proof. induction fuel; simpl; catalog. Qed.
#[local] Hint Resolve catalog_png_chunks : catalog_db.

Lemma catalog_parse_png fuel : hoare any_state (parse_png fuel) in_catalog.
Proof. unfold parse_png. catalog. Qed.

Lemma catalog_asf_objects fuel : hoare any_state (asf_objects fuel) in_catalog_opt.
Proof. induction fuel; simpl; catalog. Qed.
#[local] Hint Resolve catalog_asf_objects : catalog_db.

Lemma catalog_parse_asf fuel : hoare any_state (parse_asf fuel) in_catalog.
Proof. unfold parse_asf. catalog. Qed.

Lemma catalog_parse_jp2 : hoare any_state parse_jp2 in_catalog.
Proof. unfold parse_jp2. catalog. Qed.

#[local] Hint Resolve catalog_parse_zip catalog_parse_ogg catalog_parse_pdf
  catalog_parse_ebml catalog_parse_ar catalog_parse_png catalog_parse_asf
  catalog_parse_jp2 catalog_ftyp_brand : catalog_db.

Lemma catalog_signatures_512 buffer : hoare any_state (signatures_512 buffer) in_catalog.
Proof. unfold signatures_512. catalog. Qed.
#[local] Hint Resolve catalog_signatures_512 : catalog_db.

Lemma catalog_asar_probe buffer : hoare any_state (asar_probe buffer) in_catalog_opt.
Proof. unfold asar_probe. catalog. Qed.
#[local] Hint Resolve catalog_asar_probe : catalog_db.

Lemma catalog_signatures_15byte buffer : hoare any_state (signatures_15byte buffer) in_catalog.
Proof. unfold signatures_15byte. catalog. Qed.
#[local] Hint Resolve catalog_signatures_15byte : catalog_db.

Lemma catalog_signatures_unsafe buffer : hoare any_state (signatures_unsafe buffer) in_catalog.
Proof. unfold signatures_unsafe. catalog. Qed.
#[local] Hint Resolve catalog_signatures_unsafe : catalog_db.

Lemma catalog_signatures_12byte fuel buffer :
  hoare any_state (signatures_12byte fuel buffer) in_catalog.
Proof. unfold signatures_12byte. catalog. Qed.
#[local] Hint Resolve catalog_signatures_12byte : catalog_db.

Lemma catalog_signatures_9byte fuel buffer :
  hoare any_state (signatures_9byte fuel buffer) in_catalog.
Proof. unfold signatures_9byte. catalog. Qed.
#[local] Hint Resolve catalog_signatures_9byte : catalog_db.

Lemma catalog_signatures_8byte fuel buffer :
  hoare any_state (signatures_8byte fuel buffer) in_catalog.
Proof. unfold signatures_8byte. catalog. Qed.
#[local] Hint Resolve catalog_signatures_8byte : catalog_db.

Lemma catalog_signatures_7byte fuel buffer :
  hoare any_state (signatures_7byte fuel buffer) in_catalog.
Proof. unfold signatures_7byte. catalog. Qed.
#[local] Hint Resolve catalog_signatures_7byte : catalog_db.

Lemma catalog_signatures_6byte fuel buffer :
  hoare any_state (signatures_6byte fuel buffer) in_catalog.
Proof. unfold signatures_6byte. catalog. Qed.
#[local] Hint Resolve catalog_signatures_6byte : catalog_db.

Lemma catalog_signatures_5byte fuel buffer :
  hoare any_state (signatures_5byte fuel buffer) in_catalog.
Proof. unfold signatures_5byte. catalog. Qed.
#[local] Hint Resolve catalog_signatures_5byte : catalog_db.

Lemma catalog_signatures_after_tiff fuel buffer :
  hoare any_state (signatures_after_tiff fuel buffer) in_catalog.
Proof. unfold signatures_after_tiff. catalog. Qed.
#[local] Hint Resolve catalog_signatures_after_tiff : catalog_db.

Lemma catalog_signatures_after_zip fuel buffer :
  hoare any_state (signatures_after_zip fuel buffer) in_catalog.
Proof. unfold signatures_after_zip. catalog. Qed.
#[local] Hint Resolve catalog_signatures_after_zip : catalog_db.

Lemma catalog_signatures_4byte fuel buffer :
  hoare any_state (signatures_4byte fuel buffer) in_catalog.
Proof. unfold signatures_4byte. catalog. Qed.
#[local] Hint Resolve catalog_signatures_4byte : catalog_db.

Lemma catalog_fileTypeFromTokenizer_with (self : M Detection) :
  hoare any_state self in_catalog ->
  hoare any_state (fileTypeFromTokenizer_with self) in_catalog.
Proof. intros H t Ht. exact (H t Ht). Qed.

Lemma catalog_signatures_3byte fuel self buffer :
  hoare any_state self in_catalog ->
  hoare any_state (signatures_3byte fuel self buffer) in_catalog.
Proof.
  intros Hself. pose proof (catalog_fileTypeFromTokenizer_with self Hself).
  unfold signatures_3byte. catalog.
Qed.

Lemma catalog_signatures_2byte fuel self buffer :
  hoare any_state self in_catalog ->
  hoare any_state (signatures_2byte fuel self buffer) in_catalog.
Proof.
  intros Hself. pose proof (catalog_signatures_3byte fuel self buffer Hself).
  unfold signatures_2byte. catalog.
Qed.

Lemma catalog_parse fuel : hoare any_state (parse fuel) in_catalog.
Proof.
  induction fuel as [|fuel IH]; simpl.
  - apply hoare_out_of_fuel.
  - pose proof (fun buffer => catalog_signatures_2byte fuel (parse fuel) buffer IH).
    unfold parse_body. catalog.
Qed.

(** C5.  Whenever detection on an input is fulfilled, the result is
    [undefined] or an [{ext, mime}] whose [ext] is in [supportedExtensions]
    and whose [mime] is in [supportedMimeTypes]. *)
Theorem detection_in_catalogs :
  forall (fuel : nat) (input : Input) (d : Detection),
    fileTypeFromBuffer fuel input = Fulfilled d ->
    d = None
    \/ exists e m, d = Some {| ext := e; mime := m |}
                   /\ Set_has supportedExtensions e = true
                   /\ Set_has supportedMimeTypes m = true.
Proof.
  intros fuel input d H.
  assert (Hc : in_catalog d).
  { unfold fileTypeFromBuffer in H.
    destruct input as [buffer|buffer|ty]; [| |discriminate];
      (destruct (negb (1 <? buf_length buffer));
       [injection H as <-; exact Logic.I|];
       unfold fileTypeFromTokenizer in H;
       rewrite fileTypeFromTokenizer_with_is_parse in H;
       pose proof (catalog_parse fuel (fromBuffer buffer None) Logic.I) as Hp;
       destruct (parse fuel (fromBuffer buffer None)); try discriminate;
       injection H as <-; apply Hp). }
  destruct d as [[e m]|]; [right|left; reflexivity].
  exists e, m. simpl in Hc. tauto.
Qed.

Lemma detection_in_catalogs_witness :
  fileTypeFromBuffer 3 (AUint8Array (list_byte_of_string "GIF89a"))
  = Fulfilled (FT "gif" "image/gif")
  /\ (FT "gif" "image/gif" = None
      \/ exists e m, FT "gif" "image/gif" = Some {| ext := e; mime := m |}
                     /\ Set_has supportedExtensions e = true
                     /\ Set_has supportedMimeTypes m = true).
Proof.
  assert (H : fileTypeFromBuffer 3 (AUint8Array (list_byte_of_string "GIF89a"))
              = Fulfilled (FT "gif" "image/gif")) by (vm_compute; reflexivity).
  split; [exact H|].
  exact (detection_in_catalogs 3 (AUint8Array (list_byte_of_string "GIF89a"))
           (FT "gif" "image/gif") H).
Defined.

(** ** The tokenizer operations on a well-formed tokenizer *)

Lemma set_position_id t : set_position t (position t) = t.
Proof. destruct t; reflexivity. Qed.

Lemma wf_fromBuffer data : wf (fromBuffer data None).
Proof.
  unfold wf, fromBuffer, buf_length; simpl. split; [reflexivity|]. split; [lia|reflexivity].
Qed.

Lemma subarray_wf data p n :
  0 <= p <= buf_length data -> 0 <= n ->
  subarray data p (p + Z.min (buf_length data - p) n)
  = firstn (Z.to_nat n) (skipn (Z.to_nat p) data).
Proof.
  intros Hp Hn. unfold subarray, rel_index, buf_length in *.
  destruct (p <? 0) eqn:E1; [apply Z.ltb_lt in E1; lia|].
  destruct (p + Z.min (Z.of_nat (List.length data) - p) n <? 0) eqn:E2;
    [apply Z.ltb_lt in E2; lia|].
  replace (Z.min (p + Z.min (Z.of_nat (List.length data) - p) n)
                 (Z.of_nat (List.length data)) - Z.min p (Z.of_nat (List.length data)))
    with (Z.min (Z.of_nat (List.length data) - p) n) by lia.
  replace (Z.min p (Z.of_nat (List.length data))) with p by lia.
  destruct (Z.le_ge_cases (Z.of_nat (List.length data) - p) n) as [H|H].
  - rewrite Z.min_l by lia.
    rewrite !firstn_all2 by (rewrite length_skipn; lia). reflexivity.
  - rewrite Z.min_r by lia. reflexivity.
Qed.

Lemma buf_set_overlay target source :
  (List.length source <= List.length target)%nat ->
  buf_set target source 0 = inr (overlay source target).
Proof.
  intros H. unfold buf_set, overlay, buf_length.
  destruct ((0 <? 0) || (Z.of_nat (List.length target) <? 0 + Z.of_nat (List.length source))) eqn:E.
  - apply orb_true_iff in E. destruct E as [E|E]; [discriminate|]. apply Z.ltb_lt in E. lia.
  - reflexivity.
Qed.

Lemma length_upcoming t n :
  List.length (upcoming t n) = Nat.min (Z.to_nat n) (List.length (uint8Array t) - Z.to_nat (position t)).
Proof. unfold upcoming. rewrite length_firstn, length_skipn. reflexivity. Qed.

(** [peekBuffer(target, {length, mayBeLess: true})]. *)
Lemma peekBuffer_mayBeLess target length_ t :
  wf t -> 0 < length_ <= buf_length target ->
  peekBuffer target (Some (opt_length_mayBeLess length_)) t
  = Ok (Z.min (remaining t) length_, overlay (upcoming t length_) target) t.
Proof.
  intros [Hs [Hp _]] Hl. rewrite peekBuffer_some.
  cbn [opt_length_mayBeLess o_position o_length o_offset o_mayBeLess negb andb].
  cbv zeta. unfold or_default, truthy.
  destruct (length_ =? 0) eqn:E; [apply Z.eqb_eq in E; lia|]. cbn [negb].
  rewrite subarray_wf by lia. fold (upcoming t length_).
  rewrite buf_set_overlay; [reflexivity|].
  rewrite length_upcoming. unfold buf_length in *. lia.
Qed.

(** [ignore(length)] for a length that is not negative. *)
Lemma ignore_wf length_ t :
  wf t -> 0 <= length_ ->
  ignore length_ t
  = Ok (Z.min (remaining t) length_)
       (set_position t (position t + Z.min (remaining t) length_)).
Proof.
  intros [Hs [Hp _]] Hl. unfold ignore, bind, gets, modify, ret. rewrite Hs. unfold remaining.
  destruct (buf_length (uint8Array t) - position t <? length_) eqn:E.
  - apply Z.ltb_lt in E. rewrite Z.min_l by lia. reflexivity.
  - apply Z.ltb_ge in E. rewrite Z.min_r by lia. reflexivity.
Qed.

Lemma wf_set_position t p :
  wf t -> 0 <= p <= buf_length (uint8Array t) -> wf (set_position t p).
Proof. intros [Hs [Hp Hn]] H. repeat split; simpl; auto; lia. Qed.

(** [readBuffer(target)] (no options): all of [target] is filled or the
    stream has ended. *)
Lemma readBuffer_none target t :
  wf t ->
  readBuffer target None t
  = if remaining t <? buf_length target then Throw EndOfStreamError t
    else Ok (buf_length target, upcoming t (buf_length target))
            (set_position t (position t + buf_length target)).
Proof.
  intros [Hs [Hp _]]. unfold readBuffer, peekBuffer, normalizeOptions, bind, gets, ret, modify, throw.
  cbn [n_mayBeLess n_length n_position n_offset negb andb]. unfold remaining.
  assert (Hl : 0 <= buf_length target) by (unfold buf_length; lia).
  destruct (buf_length (uint8Array t) - position t <? buf_length target) eqn:E.
  - apply Z.ltb_lt in E. rewrite Z.min_l by lia.
    destruct (buf_length (uint8Array t) - position t <? buf_length target) eqn:E'; [reflexivity|].
    apply Z.ltb_ge in E'. lia.
  - apply Z.ltb_ge in E.
    destruct (Z.min (buf_length (uint8Array t) - position t) (buf_length target) <? buf_length target) eqn:E';
      [apply Z.ltb_lt in E'; lia|].
    rewrite subarray_wf by lia. fold (upcoming t (buf_length target)).
    rewrite buf_set_overlay.
    2:{ rewrite length_upcoming. unfold buf_length in *. lia. }
    unfold lift, ret. rewrite Z.min_r by lia.
    unfold overlay. rewrite skipn_all2.
    2:{ rewrite length_upcoming. unfold buf_length in *. lia. }
    rewrite app_nil_r. reflexivity.
Qed.

Lemma buf_length_alloc n : 0 <= n -> buf_length (Buffer_alloc n) = n.
Proof. intros H. unfold buf_length, Buffer_alloc. rewrite repeat_length. lia. Qed.

(** [readBuffer(target, {position})] at the current position reads as
    [readBuffer(target)] does. *)
Lemma readBuffer_at_position target t :
  readBuffer target (Some (opt_position (position t))) t = readBuffer target None t.
Proof.
  destruct t as [data p nb sz].
  unfold readBuffer, peekBuffer, normalizeOptions, bind, gets, ret, modify, throw, set_position.
  cbn [opt_position o_position o_length o_offset o_mayBeLess position uint8Array numBuffer
       fileInfo_size n_mayBeLess n_length n_position n_offset].
  rewrite Z.ltb_irrefl. unfold or_default, truthy.
  destruct (p =? 0) eqn:E; cbn [negb]; rewrite ?Z.ltb_irrefl;
    cbn [position uint8Array n_mayBeLess n_length n_position n_offset negb andb];
    rewrite ?Z.sub_0_r; reflexivity.
Qed.

(** [readToken(token)]. *)
Lemma readToken_wf {A} (token : Token A) t :
  wf t -> 0 <= len token ->
  readToken token t
  = if remaining t <? len token then Throw EndOfStreamError t
    else match get token (upcoming t (len token)) 0 with
         | inl e => Throw e (set_position t (position t + len token))
         | inr v => Ok v (set_position t (position t + len token))
         end.
Proof.
  intros Hwf Hl. unfold readToken. unfold bind at 1. unfold gets at 1.
  unfold bind. rewrite readBuffer_at_position, readBuffer_none by exact Hwf.
  rewrite buf_length_alloc by exact Hl.
  destruct (remaining t <? len token); [reflexivity|].
  rewrite Z.ltb_irrefl. unfold lift. destruct (get token _ 0); reflexivity.
Qed.

Lemma readBuffer_length target length_ t :
  wf t -> 0 < length_ <= buf_length target ->
  readBuffer target (Some (opt_length length_)) t
  = if remaining t <? length_ then Throw EndOfStreamError t
    else Ok (length_, overlay (upcoming t length_) target)
            (set_position t (position t + length_)).
Proof.
  intros [Hs [Hp _]] Hl.
  unfold readBuffer. unfold bind at 1. unfold gets at 1. cbn [opt_length o_position truthy].
  unfold bind at 1. unfold ret at 1. unfold bind at 1. rewrite peekBuffer_some.
  cbn [opt_length o_position o_length o_offset o_mayBeLess negb andb]. cbv zeta.
  unfold or_default, truthy. destruct (length_ =? 0) eqn:E; [apply Z.eqb_eq in E; lia|].
  cbn [negb]. unfold remaining.
  destruct (buf_length (uint8Array t) - position t <? length_) eqn:E1.
  - apply Z.ltb_lt in E1. rewrite Z.min_l by lia.
    destruct (buf_length (uint8Array t) - position t <? length_) eqn:E2; [reflexivity|].
    apply Z.ltb_ge in E2. lia.
  - apply Z.ltb_ge in E1.
    destruct (Z.min (buf_length (uint8Array t) - position t) length_ <? length_) eqn:E2;
      [apply Z.ltb_lt in E2; lia|].
    rewrite subarray_wf by lia. fold (upcoming t length_).
    rewrite buf_set_overlay.
    2:{ rewrite length_upcoming. unfold buf_length in *. lia. }
    unfold bind, modify, ret. rewrite Z.min_r by lia. reflexivity.
Qed.

Lemma readBuffer_mayBeLess target t :
  wf t ->
  readBuffer target (Some opt_mayBeLess) t
  = Ok (Z.min (remaining t) (buf_length target),
        overlay (upcoming t (buf_length target)) target)
       (set_position t (position t + Z.min (remaining t) (buf_length target))).
Proof.
  intros [Hs [Hp _]].
  assert (Hl : 0 <= buf_length target) by (unfold buf_length; lia).
  unfold readBuffer. unfold bind at 1. unfold gets at 1. cbn [opt_mayBeLess o_position truthy].
  unfold bind at 1. unfold ret at 1. unfold bind at 1. rewrite peekBuffer_some.
  cbn [opt_mayBeLess o_position o_length o_offset o_mayBeLess negb andb]. cbv zeta.
  unfold or_default, truthy. rewrite Z.sub_0_r.
  rewrite subarray_wf by lia. fold (upcoming t (buf_length target)).
  rewrite buf_set_overlay.
  2:{ rewrite length_upcoming. unfold buf_length in *. lia. }
  unfold bind, modify, ret. reflexivity.
Qed.

(** ** The PNG chunk walk *)

Lemma length_unread t : wf t -> Z.of_nat (List.length (unread t)) = remaining t.
Proof.
  intros [_ [Hp _]]. unfold unread, remaining, buf_length in *. rewrite length_skipn. lia.
Qed.

Lemma upcoming_unread t n : upcoming t n = firstn (Z.to_nat n) (unread t).
Proof. reflexivity. Qed.

Lemma unread_set_position t k :
  0 <= position t -> 0 <= k ->
  unread (set_position t (position t + k)) = skipn (Z.to_nat k) (unread t).
Proof.
  intros Hp Hk. unfold unread. simpl. rewrite skipn_skipn.
  f_equal. lia.
Qed.

Lemma get_INT32_BE b :
  List.length b = 4%nat -> get INT32_BE b 0 = inr (to_signed32 (uint_be b)).
Proof.
  intros H. destruct b as [|b0 [|b1 [|b2 [|b3 [|]]]]]; try discriminate H. reflexivity.
Qed.

Lemma get_StringType_binary b :
  List.length b = 4%nat -> get (StringType 4 binary) b 0 = inr (map byte_Z b).
Proof.
  intros H. destruct b as [|b0 [|b1 [|b2 [|b3 [|]]]]]; try discriminate H. reflexivity.
Qed.

Lemma readChunkHeader_wf t :
  wf t ->
  readChunkHeader t
  = if remaining t <? 4 then Throw EndOfStreamError t
    else if remaining t <? 8 then
           Throw EndOfStreamError (set_position t (position t + 4))
    else Ok {| c_length := to_signed32 (uint_be (firstn 4 (unread t)));
               c_type := map byte_Z (firstn 4 (skipn 4 (unread t))) |}
            (set_position t (position t + 8)).
Proof.
  intros Hwf. pose proof Hwf as [Hs [Hp Hn]].
  pose proof (length_unread t Hwf) as Hlen.
  unfold readChunkHeader, bind. rewrite readToken_wf by (auto; simpl; lia).
  change (len INT32_BE) with 4.
  destruct (remaining t <? 4) eqn:E1; [reflexivity|]. apply Z.ltb_ge in E1.
  rewrite get_INT32_BE.
  2:{ rewrite upcoming_unread, length_firstn. lia. }
  assert (Hwf1 : wf (set_position t (position t + 4))).
  { apply wf_set_position; auto. unfold remaining in *. simpl. lia. }
  rewrite readToken_wf by (auto; simpl; lia).
  change (len (StringType 4 binary)) with 4.
  replace (remaining (set_position t (position t + 4))) with (remaining t - 4)
    by (unfold remaining; simpl; lia).
  destruct (remaining t <? 8) eqn:E2.
  - apply Z.ltb_lt in E2.
    destruct (remaining t - 4 <? 4) eqn:E3; [reflexivity|apply Z.ltb_ge in E3; lia].
  - apply Z.ltb_ge in E2.
    destruct (remaining t - 4 <? 4) eqn:E3; [apply Z.ltb_lt in E3; lia|].
    rewrite get_StringType_binary.
    2:{ rewrite upcoming_unread, length_firstn.
        rewrite unread_set_position by lia. rewrite length_skipn. lia. }
    unfold ret. f_equal.
    + rewrite !upcoming_unread. rewrite unread_set_position by lia. reflexivity.
    + unfold set_position; simpl. f_equal. lia.
Qed.

(** Projections of an updated tokenizer. *)
Lemma position_set_position t p : position (set_position t p) = p.
Proof. reflexivity. Qed.
Lemma uint8Array_set_position t p : uint8Array (set_position t p) = uint8Array t.
Proof. reflexivity. Qed.
Lemma fileInfo_size_set_position t p : fileInfo_size (set_position t p) = fileInfo_size t.
Proof. reflexivity. Qed.
Lemma remaining_set_position t p :
  remaining (set_position t p) = buf_length (uint8Array t) - p.
Proof. reflexivity. Qed.
Create Rewrite HintDb tok.
#[local] Hint Rewrite position_set_position uint8Array_set_position
  fileInfo_size_set_position remaining_set_position : tok.

Ltac tok_lia :=
  repeat match goal with x := _ : BufferTokenizer |- _ => subst x end;
  autorewrite with tok in *; unfold remaining in *; lia.

Lemma png_chunks_truncated rounds t :
  wf t -> remaining t < 8 ->
  exists t', png_chunks (S rounds) t = Throw EndOfStreamError t'.
Proof.
  intros Hwf H. cbn [png_chunks]. unfold bind. rewrite readChunkHeader_wf by exact Hwf.
  destruct (remaining t <? 4); [eexists; reflexivity|].
  destruct (remaining t <? 8) eqn:E; [eexists; reflexivity|apply Z.ltb_ge in E; lia].
Qed.

(** One round of the loop when a chunk header is there. *)
Lemma png_chunks_step rounds t :
  wf t -> 8 <= remaining t ->
  let length_ := to_signed32 (uint_be (firstn 4 (unread t))) in
  let type_ := map byte_Z (firstn 4 (skipn 4 (unread t))) in
  let t2 := set_position t (position t + 8) in
  let t3 := set_position t2 (position t2 + Z.min (remaining t2) (length_ + 4)) in
  png_chunks (S rounds) t
  = if length_ <? 0 then Ok None t2
    else if is_str type_ "IDAT" then Ok (FT "png" "image/png") t2
    else if is_str type_ "acTL" then Ok (FT "apng" "image/apng") t2
    else if position t3 + 8 <? buf_length (uint8Array t) then png_chunks rounds t3
    else Ok (FT "png" "image/png") t3.
Proof.
  intros Hwf H length_ type_ t2 t3. pose proof Hwf as [Hs [Hp Hn]].
  cbn [png_chunks]. unfold bind at 1. rewrite readChunkHeader_wf by exact Hwf.
  destruct (remaining t <? 4) eqn:E4; [apply Z.ltb_lt in E4; lia|].
  destruct (remaining t <? 8) eqn:E; [apply Z.ltb_lt in E; lia|].
  cbn [c_length c_type]. fold length_ type_ t2.
  destruct (length_ <? 0) eqn:El; [reflexivity|]. apply Z.ltb_ge in El.
  destruct (is_str type_ "IDAT"); [reflexivity|].
  destruct (is_str type_ "acTL"); [reflexivity|].
  assert (Hwf2 : wf t2).
  { apply wf_set_position; auto. unfold remaining in *. simpl. lia. }
  unfold bind at 1. rewrite ignore_wf by (auto; lia). fold t3.
  unfold bind at 1. unfold gets at 1.
  assert (Hs3 : fileInfo_size t3 = Some (buf_length (uint8Array t))) by exact Hs.
  rewrite Hs3. cbn [lt_size].
  destruct (position t3 + 8 <? buf_length (uint8Array t)); reflexivity.
Qed.

Lemma png_chunks_walk rounds :
  forall t, wf t ->
    match png_walk rounds (unread t) with
    | Detected d => exists t', png_chunks rounds t = Ok d t'
    | Truncated => exists t', png_chunks rounds t = Throw EndOfStreamError t'
    | Unfinished => png_chunks rounds t = OutOfFuel
    end.
Proof.
  induction rounds as [|rounds IH]; intros t Hwf; [reflexivity|].
  pose proof Hwf as [Hs [Hp Hn]].
  pose proof (length_unread t Hwf) as Hlen.
  cbn [png_walk].
  destruct (List.length (unread t) <? 8)%nat eqn:E8.
  - apply Nat.ltb_lt in E8. apply png_chunks_truncated; [exact Hwf|lia].
  - apply Nat.ltb_ge in E8.
    rewrite (png_chunks_step rounds t Hwf) by lia. cbv zeta.
    set (length_ := to_signed32 (uint_be (firstn 4 (unread t)))).
    set (type_ := map byte_Z (firstn 4 (skipn 4 (unread t)))).
    set (t2 := set_position t (position t + 8)).
    set (t3 := set_position t2 (position t2 + Z.min (remaining t2) (length_ + 4))).
    destruct (length_ <? 0) eqn:El; [eexists; reflexivity|]. apply Z.ltb_ge in El.
    destruct (is_str type_ "IDAT"); [eexists; reflexivity|].
    destruct (is_str type_ "acTL"); [eexists; reflexivity|].
    assert (Hwf2 : wf t2).
    { apply wf_set_position; auto. tok_lia. }
    assert (Hwf3 : wf t3).
    { apply wf_set_position; auto. tok_lia. }
    assert (Hrest : (8 <? List.length (skipn (Z.to_nat (8 + length_ + 4)) (unread t)))%nat
                    = (position t3 + 8 <? buf_length (uint8Array t))).
    { rewrite length_skipn.
      destruct (position t3 + 8 <? buf_length (uint8Array t)) eqn:E3.
      - apply Z.ltb_lt in E3. apply Nat.ltb_lt. tok_lia.
      - apply Z.ltb_ge in E3. apply Nat.ltb_ge. tok_lia. }
    rewrite Hrest.
    destruct (position t3 + 8 <? buf_length (uint8Array t)) eqn:E3.
    + apply Z.ltb_lt in E3.
      replace (skipn (Z.to_nat (8 + length_ + 4)) (unread t)) with (unread t3).
      * apply IH. exact Hwf3.
      * unfold unread. change (uint8Array t3) with (uint8Array t).
        rewrite skipn_skipn. f_equal. tok_lia.
    + eexists; reflexivity.
Qed.

Lemma png_walk_finishes rounds :
  forall chunks, (List.length chunks < rounds)%nat -> png_walk rounds chunks <> Unfinished.
Proof.
  induction rounds as [|rounds IH]; intros chunks H; [lia|].
  cbn [png_walk].
  destruct (List.length chunks <? 8)%nat eqn:E8; [discriminate|]. apply Nat.ltb_ge in E8.
  cbv zeta.
  destruct (_ <? 0) eqn:El; [discriminate|]. apply Z.ltb_ge in El.
  destruct (is_str _ "IDAT"); [discriminate|].
  destruct (is_str _ "acTL"); [discriminate|].
  destruct (8 <? _)%nat; [|discriminate].
  apply IH. rewrite length_skipn. lia.
Qed.

Lemma cascade_reaches_png fuel self (tail : Buffer) :
  checkString (png_signature ++ tail) "WEBP" (at_offset 8) = false ->
  signatures_2byte fuel self (png_signature ++ tail) = parse_png fuel.
Proof.
  intros H.
  change (signatures_4byte fuel (png_signature ++ tail) = parse_png fuel).
  unfold signatures_4byte. rewrite H. reflexivity.
Qed.

Lemma byte_Z_inj a b : byte_Z a = byte_Z b -> a = b.
Proof.
  unfold byte_Z. intros H. apply N2Z.inj in H.
  assert (E : Some a = Some b) by (rewrite <- (Byte.of_to_N a), <- (Byte.of_to_N b), H; reflexivity).
  congruence.
Qed.

Lemma strict_eq_byte h b : strict_eq (byte_Z h) (Some (byte_Z b)) = true -> b = h.
Proof.
  unfold strict_eq. intros H. apply Z.eqb_eq in H. symmetry. apply byte_Z_inj. exact H.
Qed.

Ltac next_header_byte h :=
  match goal with
  | |- (if negb (strict_eq ?k ?v) then _ else _) = true -> _ =>
      change k with (byte_Z h);
      destruct (strict_eq (byte_Z h) v) eqn:?; cbn [negb];
      [|let Hx := fresh in intros Hx; discriminate Hx]
  end.

(** The probe for WEBP at offset 8 looks at the four bytes that follow the
    PNG signature. *)
Lemma webp_after_signature (tail : Buffer) :
  checkString (png_signature ++ tail) "WEBP" (at_offset 8) = true ->
  exists tail', tail = list_byte_of_string "WEBP" ++ tail'.
Proof.
  unfold checkString, check, _check.
  destruct tail as [|b0 [|b1 [|b2 [|b3 tail]]]]; cbn.
  - intros H; discriminate H.
  - next_header_byte x57. intros H; discriminate H.
  - next_header_byte x57. next_header_byte x45. intros H; discriminate H.
  - next_header_byte x57. next_header_byte x45. next_header_byte x42.
    intros H; discriminate H.
  - next_header_byte x57. next_header_byte x45. next_header_byte x42.
    next_header_byte x50. intros _.
    repeat match goal with
           | H : strict_eq _ _ = true |- _ => apply strict_eq_byte in H; subst
           end.
    exists tail. reflexivity.
Qed.

Lemma skipn_repeat_head {A} (x : A) n k :
  (k < n)%nat -> exists zs, skipn k (repeat x n) = x :: zs.
Proof.
  revert k; induction n as [|n IH]; intros k H; [lia|].
  destruct k as [|k]; simpl; [eexists; reflexivity|]. apply IH. lia.
Qed.

Lemma sample_after_signature (rest : Buffer) :
  firstn 4 rest <> list_byte_of_string "WEBP" ->
  exists tail,
    overlay (upcoming (fromBuffer (png_signature ++ rest) None) 12) (Buffer_alloc minimumBytes)
    = png_signature ++ tail
    /\ checkString (png_signature ++ tail) "WEBP" (at_offset 8) = false.
Proof.
  intros H.
  exists (firstn 4 rest ++ skipn (8 + List.length (firstn 4 rest)) (Buffer_alloc minimumBytes)).
  split.
  { unfold overlay, upcoming. cbn [fromBuffer position uint8Array].
    change (Z.to_nat 0) with 0%nat. change (Z.to_nat 12) with 12%nat.
    cbn [skipn png_signature app firstn List.length]. reflexivity. }
  destruct (checkString _ "WEBP" (at_offset 8)) eqn:E; [|reflexivity].
  exfalso. apply webp_after_signature in E. destruct E as [tail' E].
  assert (Hz : forall k, (k < 4)%nat ->
            exists zs, skipn (8 + k) (Buffer_alloc minimumBytes) = x00 :: zs).
  { intros k Hk. apply skipn_repeat_head. unfold minimumBytes.
    change (Z.to_nat 4100) with 4100%nat. lia. }
  destruct rest as [|b0 [|b1 [|b2 [|b3 rest]]]].
  - destruct (Hz 0%nat ltac:(lia)) as [zs Hzs]. cbn [firstn List.length app] in E.
    rewrite Hzs in E. discriminate E.
  - destruct (Hz 1%nat ltac:(lia)) as [zs Hzs]. cbn [firstn List.length app] in E.
    rewrite Hzs in E. discriminate E.
  - destruct (Hz 2%nat ltac:(lia)) as [zs Hzs]. cbn [firstn List.length app] in E.
    rewrite Hzs in E. discriminate E.
  - destruct (Hz 3%nat ltac:(lia)) as [zs Hzs]. cbn [firstn List.length app] in E.
    rewrite Hzs in E. discriminate E.
  - cbn [firstn app] in E, H. apply H. injection E as -> -> -> -> _. reflexivity.
Qed.

(** C7 (as amended).  For an input that begins with the PNG signature and
    whose next four bytes are not WEBP, the dispatcher skips the signature and
    walks the chunks as [png_walk] describes: the walk over the bytes [rest]
    that follow the signature settles within [length rest + 1] rounds, and
    whenever it answers [d] (png on the first IDAT, apng on an acTL before it,
    "unknown" on a negative length, png when no more than 8 bytes are left
    after a skip), detection is fulfilled with [d]. *)
Theorem png_walk_detects :
  forall rest : Buffer,
    firstn 4 rest <> list_byte_of_string "WEBP" ->
    png_walk (S (List.length rest)) rest <> Unfinished
    /\ forall (rounds : nat) (d : Detection),
         png_walk rounds rest = Detected d ->
         fileTypeFromBuffer (S rounds) (AUint8Array (png_signature ++ rest)) = Fulfilled d.
Proof.
  intros rest Hwebp. split; [apply png_walk_finishes; lia|].
  intros rounds d Hwalk.
  set (t0 := fromBuffer (png_signature ++ rest) None).
  assert (Hwf0 : wf t0) by apply wf_fromBuffer.
  unfold fileTypeFromBuffer.
  destruct (negb (1 <? buf_length (png_signature ++ rest))) eqn:E.
  { exfalso. unfold buf_length in E. rewrite length_app, Nat2Z.inj_add in E.
    change (Z.of_nat (List.length png_signature)) with 8 in E.
    apply negb_true_iff in E. apply Z.ltb_ge in E. lia. }
  unfold fileTypeFromTokenizer. rewrite fileTypeFromTokenizer_with_is_parse. fold t0.
  cbn [parse]. unfold parse_body.
  unfold bind at 1. unfold gets at 1.
  replace (fileInfo_size t0) with (Some (buf_length (uint8Array t0))) by (symmetry; apply Hwf0).
  unfold bind at 1. unfold ret at 1.
  unfold bind at 1. rewrite peekBuffer_mayBeLess by (auto; vm_compute; split; congruence).
  destruct (sample_after_signature rest Hwebp) as [tail [Hs Hc]].
  fold t0 in Hs. rewrite Hs. rewrite (cascade_reaches_png _ _ _ Hc).
  unfold parse_png, bind. rewrite ignore_wf by (auto; lia).
  assert (Hrem : remaining t0 = 8 + Z.of_nat (List.length rest)).
  { unfold remaining, t0, buf_length. cbn [fromBuffer position uint8Array].
    rewrite length_app, Nat2Z.inj_add.
    change (Z.of_nat (List.length png_signature)) with 8. lia. }
  rewrite Z.min_r by lia.
  set (t8 := set_position t0 (position t0 + 8)).
  assert (Hwf8 : wf t8).
  { apply wf_set_position; auto. unfold remaining in Hrem.
    change (position t0) with 0 in *. lia. }
  pose proof (png_chunks_walk rounds t8 Hwf8) as Hw.
  replace (unread t8) with rest in Hw by reflexivity.
  rewrite Hwalk in Hw. destruct Hw as [t' ->]. reflexivity.
Qed.

(** A run of the theorem: an IHDR chunk followed by an IDAT chunk. *)
Lemma png_walk_detects_witness :
  let rest := [x00; x00; x00; x0d] ++ list_byte_of_string "IHDR" ++ repeat x00 17
              ++ [x00; x00; x00; x01] ++ list_byte_of_string "IDAT" ++ repeat x00 5 in
  firstn 4 rest <> list_byte_of_string "WEBP"
  /\ png_walk 2 rest = Detected (FT "png" "image/png")
  /\ fileTypeFromBuffer 3 (AUint8Array (png_signature ++ rest))
     = Fulfilled (FT "png" "image/png").
Proof.
  intros rest.
  assert (H0 : firstn 4 rest <> list_byte_of_string "WEBP")
    by (vm_compute; intros H; discriminate H).
  assert (H1 : png_walk 2 rest = Detected (FT "png" "image/png"))
    by (vm_compute; reflexivity).
  split; [exact H0|]. split; [exact H1|].
  exact (proj2 (png_walk_detects rest H0) 2%nat (FT "png" "image/png") H1).
Defined.

(** C7, as stated, fails: after the signature come the bytes WEBP and IDAT,
    that is a chunk header of length 0x57454250 and type IDAT, for which the
    claim says png; the earlier probe for WEBP at offset 8 answers webp. *)
Lemma png_signature_then_webp_counterexample :
  let rest := list_byte_of_string "WEBPIDAT" in
  png_walk 1 rest = Detected (FT "png" "image/png")
  /\ forall fuel : nat,
       fileTypeFromBuffer (S fuel) (AUint8Array (png_signature ++ rest))
       = Fulfilled (FT "webp" "image/webp").
Proof.
  intros rest. split; [vm_compute; reflexivity|].
  intros fuel. vm_compute. reflexivity.
Qed.

(** ** Detection behind a prefix *)

Section Shift.
Context (prefix : Buffer).

Lemma wf_shift t : wf t -> wf (shift prefix t).
Proof.
  intros [Hs [Hp Hn]]. unfold wf, shift, buf_length in *. simpl. rewrite Hs. simpl.
  rewrite length_app. repeat split; try lia. f_equal. lia.
Qed.

Lemma remaining_shift t : remaining (shift prefix t) = remaining t.
Proof. unfold remaining, shift, buf_length. simpl. rewrite length_app. lia. Qed.

Lemma unread_shift t : 0 <= position t -> unread (shift prefix t) = unread t.
Proof.
  intros H. unfold unread, shift, buf_length. simpl.
  replace (Z.to_nat (position t + Z.of_nat (List.length prefix)))
    with (Z.to_nat (position t) + List.length prefix)%nat by lia.
  rewrite <- skipn_skipn. rewrite skipn_app, skipn_all, Nat.sub_diag. reflexivity.
Qed.

Lemma upcoming_shift t n : 0 <= position t -> upcoming (shift prefix t) n = upcoming t n.
Proof. intros H. rewrite !upcoming_unread, unread_shift by exact H. reflexivity. Qed.

Lemma shift_set_position t k :
  set_position (shift prefix t) (position (shift prefix t) + k)
  = shift prefix (set_position t (position t + k)).
Proof. unfold shift, set_position. simpl. f_equal. lia. Qed.

Lemma shift_set_numBuffer t b :
  set_numBuffer (shift prefix t) b = shift prefix (set_numBuffer t b).
Proof. reflexivity. Qed.

Context (p0 : Z).

Lemma shifted_ret {A} (a : A) (Q : A -> Prop) : Q a -> shifted prefix p0 (ret a) Q.
Proof. intros H t Ht. simpl. auto. Qed.

Lemma shifted_throw {A} e (Q : A -> Prop) : shifted prefix p0 (throw e) Q.
Proof. intros t Ht. simpl. auto. Qed.

Lemma shifted_out_of_fuel {A} (Q : A -> Prop) : shifted prefix p0 out_of_fuel Q.
Proof. intros t Ht. reflexivity. Qed.

Lemma shifted_lift {A} (x : error + A) (Q : A -> Prop) :
  (forall a, x = inr a -> Q a) -> shifted prefix p0 (lift x) Q.
Proof. intros H t Ht. destruct x; simpl; auto. Qed.

Lemma shifted_bind {A B} (m : M A) (k : A -> M B) (P : A -> Prop) (Q : B -> Prop) :
  shifted prefix p0 m P -> (forall a, P a -> shifted prefix p0 (k a) Q) ->
  shifted prefix p0 (bind m k) Q.
Proof.
  intros Hm Hk t Ht. unfold bind. specialize (Hm t Ht).
  destruct (m t) as [a t'|e t'|].
  - destruct Hm as [Ht' [Pa ->]]. apply (Hk a Pa t' Ht').
  - destruct Hm as [Ht' ->]. auto.
  - rewrite Hm. reflexivity.
Qed.

Lemma shifted_weaken {A} (m : M A) (P Q : A -> Prop) :
  shifted prefix p0 m P -> (forall a, P a -> Q a) -> shifted prefix p0 m Q.
Proof.
  intros Hm HPQ t Ht. specialize (Hm t Ht).
  destruct (m t) as [a t'|e t'|]; auto. destruct Hm as [? [? ?]]; auto.
Qed.

Lemma shifted_try_catch {A} (body : M A) handler (Q : A -> Prop) :
  shifted prefix p0 body Q -> (forall e, shifted prefix p0 (handler e) Q) ->
  shifted prefix p0 (try_catch body handler) Q.
Proof.
  intros Hb Hh t Ht. unfold try_catch. specialize (Hb t Ht).
  destruct (body t) as [a t'|e t'|].
  - destruct Hb as [Ht' [Qa ->]]. auto.
  - destruct Hb as [Ht' ->]. apply (Hh e t' Ht').
  - rewrite Hb. reflexivity.
Qed.

(** Reading a quantity that does not change under the shift. *)
Lemma shifted_gets {A} (f : BufferTokenizer -> A) (Q : A -> Prop) :
  (forall t, Inv p0 t -> f (shift prefix t) = f t /\ Q (f t)) ->
  shifted prefix p0 (gets f) Q.
Proof.
  intros H t Ht. unfold gets. destruct (H t Ht) as [-> HQ]. auto.
Qed.


End Shift.

(** *** The read operations, whatever the options *)

Lemma peekBuffer_wf target o t :
  wf t -> o_position o = None -> 0 <= norm_length target o ->
  peekBuffer target (Some o) t
  = if negb (norm_mayBeLess o)
       && (Z.min (remaining t) (norm_length target o) <? norm_length target o)
    then Throw EndOfStreamError t
    else match buf_set target (upcoming t (norm_length target o))
                 (or_default (o_offset o) 0) with
         | inl e => Throw e t
         | inr filled => Ok (Z.min (remaining t) (norm_length target o), filled) t
         end.
Proof.
  intros [Hs [Hp Hn]] Ho HL. rewrite peekBuffer_some. rewrite Ho. cbv zeta.
  fold (norm_length target o). fold (norm_mayBeLess o).
  change (or_default None (position t)) with (position t).
  fold (remaining t). unfold remaining at 3.
  rewrite subarray_wf by lia. reflexivity.
Qed.

Lemma readBuffer_peekBuffer target o t :
  o_position o = None ->
  readBuffer target (Some o) t
  = match peekBuffer target (Some o) t with
    | Ok (n, filled) t' => Ok (n, filled) (set_position t' (position t' + n))
    | Throw e t' => Throw e t'
    | OutOfFuel => OutOfFuel
    end.
Proof.
  intros Ho. unfold readBuffer. unfold bind at 1. unfold gets at 1. rewrite Ho.
  cbn [truthy]. unfold bind at 1. unfold ret at 1. unfold bind at 1.
  destruct (peekBuffer target (Some o) t) as [[n filled] t'|e t'|]; reflexivity.
Qed.

Lemma readBuffer_wf target o t :
  wf t -> o_position o = None -> 0 <= norm_length target o ->
  readBuffer target (Some o) t
  = if negb (norm_mayBeLess o)
       && (Z.min (remaining t) (norm_length target o) <? norm_length target o)
    then Throw EndOfStreamError t
    else match buf_set target (upcoming t (norm_length target o))
                 (or_default (o_offset o) 0) with
         | inl e => Throw e t
         | inr filled =>
             Ok (Z.min (remaining t) (norm_length target o), filled)
                (set_position t (position t + Z.min (remaining t) (norm_length target o)))
         end.
Proof.
  intros Hwf Ho HL. rewrite readBuffer_peekBuffer, peekBuffer_wf by assumption.
  destruct (_ && _); [reflexivity|]. destruct (buf_set _ _ _); reflexivity.
Qed.

Lemma buf_length_alloc_nonneg n : 0 <= buf_length (Buffer_alloc n).
Proof. unfold buf_length. lia. Qed.

Lemma buf_length_alloc_ge n : n <= buf_length (Buffer_alloc n).
Proof. unfold buf_length, Buffer_alloc. rewrite repeat_length. lia. Qed.

(** [readToken(token)], whatever the length of the token. *)
Lemma readToken_wf_any {A} (token : Token A) t :
  wf t ->
  readToken token t
  = if remaining t <? buf_length (Buffer_alloc (len token)) then Throw EndOfStreamError t
    else match get token (upcoming t (buf_length (Buffer_alloc (len token)))) 0 with
         | inl e => Throw e (set_position t (position t + buf_length (Buffer_alloc (len token))))
         | inr v => Ok v (set_position t (position t + buf_length (Buffer_alloc (len token))))
         end.
Proof.
  intros Hwf. unfold readToken. unfold bind at 1. unfold gets at 1.
  unfold bind. rewrite readBuffer_at_position, readBuffer_none by exact Hwf.
  destruct (remaining t <? _); [reflexivity|].
  pose proof (buf_length_alloc_ge (len token)).
  destruct (_ <? len token) eqn:E; [apply Z.ltb_lt in E; lia|].
  unfold lift. destruct (get token _ 0); reflexivity.
Qed.

Section ShiftOperations.
Context (prefix : Buffer) (p0 : Z).

Lemma Inv_advance t k :
  Inv p0 t -> 0 <= k <= remaining t -> Inv p0 (set_position t (position t + k)).
Proof.
  intros [Hwf Hp] Hk. pose proof Hwf as [Hs [Hr Hn]]. split.
  - apply wf_set_position; [exact Hwf|]. unfold remaining in *. lia.
  - simpl. lia.
Qed.

Lemma shifted_peekBuffer target o :
  o_position o = None -> 0 <= norm_length target o ->
  shifted prefix p0 (peekBuffer target (Some o)) (fun _ => True).
Proof.
  intros Ho HL t Ht. pose proof Ht as [Hwf Hp]. pose proof Hwf as [_ [Hr _]].
  rewrite !peekBuffer_wf by (auto using wf_shift).
  rewrite remaining_shift, upcoming_shift by lia.
  destruct (_ && _); [split; [exact Ht|reflexivity]|].
  destruct (buf_set _ _ _); [split; [exact Ht|reflexivity]|].
  split; [exact Ht|]. split; [exact I|reflexivity].
Qed.

Lemma shifted_readBuffer target o :
  o_position o = None -> 0 <= norm_length target o ->
  shifted prefix p0 (readBuffer target (Some o)) (fun _ => True).
Proof.
  intros Ho HL t Ht. pose proof Ht as [Hwf Hp]. pose proof Hwf as [_ [Hr _]].
  rewrite !readBuffer_wf by (auto using wf_shift).
  rewrite remaining_shift, upcoming_shift by lia.
  destruct (_ && _); [split; [exact Ht|reflexivity]|].
  destruct (buf_set _ _ _); [split; [exact Ht|reflexivity]|].
  rewrite shift_set_position. split; [|split; [exact I|reflexivity]].
  apply Inv_advance; [exact Ht|]. unfold remaining in *. lia.
Qed.

Lemma shifted_readBuffer_none target :
  shifted prefix p0 (readBuffer target None) (fun _ => True).
Proof.
  intros t Ht. pose proof Ht as [Hwf Hp]. pose proof Hwf as [_ [Hr _]].
  rewrite !readBuffer_none by (auto using wf_shift).
  rewrite remaining_shift, upcoming_shift by lia.
  destruct (remaining t <? buf_length target) eqn:E; [split; [exact Ht|reflexivity]|].
  apply Z.ltb_ge in E. rewrite shift_set_position. split; [|split; [exact I|reflexivity]].
  apply Inv_advance; [exact Ht|]. unfold buf_length in *. lia.
Qed.

Lemma shifted_readToken {A} (token : Token A) (Q : A -> Prop) :
  (forall b v, get token b 0 = inr v -> Q v) ->
  shifted prefix p0 (readToken token) Q.
Proof.
  intros HQ t Ht. pose proof Ht as [Hwf Hp]. pose proof Hwf as [_ [Hr _]].
  rewrite !readToken_wf_any by (auto using wf_shift).
  rewrite remaining_shift, upcoming_shift by lia.
  pose proof (buf_length_alloc_nonneg (len token)) as HL.
  destruct (remaining t <? _) eqn:E; [split; [exact Ht|reflexivity]|].
  apply Z.ltb_ge in E. rewrite shift_set_position.
  assert (HI : Inv p0 (set_position t (position t + buf_length (Buffer_alloc (len token))))).
  { apply Inv_advance; [exact Ht|lia]. }
  destruct (get token _ 0) eqn:G; [split; [exact HI|reflexivity]|].
  split; [exact HI|]. split; [eapply HQ; exact G|reflexivity].
Qed.

End ShiftOperations.

(** *** Numbers that are not negative *)

Lemma byte_Z_range b : 0 <= byte_Z b < 256.
Proof.
  unfold byte_Z. pose proof (Byte.to_N_bounded b) as H.
  pose proof (N2Z.is_nonneg (Byte.to_N b)). lia.
Qed.

Lemma uint_be_acc_nonneg l : forall acc, 0 <= acc -> 0 <= uint_be_acc acc l.
Proof.
  induction l as [|b l IH]; intros acc H; simpl; [exact H|].
  apply IH. pose proof (byte_Z_range b). lia.
Qed.

Lemma uint_be_nonneg l : 0 <= uint_be l.
Proof. apply uint_be_acc_nonneg. lia. Qed.

Lemma uint_le_nonneg l : 0 <= uint_le l.
Proof. apply uint_be_nonneg. Qed.

Lemma map_except_inr {A B} (f : A -> B) x v :
  map_except f x = inr v -> exists a, x = inr a /\ v = f a.
Proof. destruct x; simpl; intros H; [discriminate|]. injection H as <-. eauto. Qed.

Lemma readUInt32LE_nonneg b o v : readUInt32LE b o = inr v -> 0 <= v.
Proof. intros H. apply map_except_inr in H. destruct H as [a [_ ->]]. apply uint_le_nonneg. Qed.

Lemma readUInt16LE_nonneg b o v : readUInt16LE b o = inr v -> 0 <= v.
Proof. intros H. apply map_except_inr in H. destruct H as [a [_ ->]]. apply uint_le_nonneg. Qed.

Lemma readUIntBE_nonneg b o n v : readUIntBE b o n = inr v -> 0 <= v.
Proof.
  unfold readUIntBE. destruct (_ || _); [discriminate|].
  intros H. apply map_except_inr in H. destruct H as [a [_ ->]]. apply uint_be_nonneg.
Qed.

Lemma get_UINT32_nonneg (bigEndian : bool) b o v :
  get (if bigEndian then UINT32_BE else UINT32_LE) b o = inr v -> 0 <= v.
Proof.
  destruct bigEndian; simpl; intros H; apply map_except_inr in H;
    destruct H as [a [_ ->]]; [apply uint_be_nonneg|apply uint_le_nonneg].
Qed.


Lemma ToInt32_small x : 0 <= x < 2 ^ 31 -> ToInt32 x = x.
Proof. intros H. unfold ToInt32. rewrite Z.mod_small; lia. Qed.

Lemma ToInt32_opt_buf_get b i : 0 <= ToInt32_opt (buf_get b i) < 256.
Proof.
  unfold buf_get. destruct (i <? 0); simpl; [lia|].
  destruct (nth_error b (Z.to_nat i)) as [x|]; simpl; [|lia].
  pose proof (byte_Z_range x). rewrite ToInt32_small; lia.
Qed.

Lemma lor_range n a b :
  0 <= n -> 0 <= a < 2 ^ n -> 0 <= b < 2 ^ n -> 0 <= Z.lor a b < 2 ^ n.
Proof.
  intros Hn Ha Hb. split; [apply Z.lor_nonneg; lia|].
  assert (Hp : 0 < 2 ^ n) by (apply Z.pow_pos_nonneg; lia).
  assert (Hs : Z.shiftr (Z.lor a b) n = 0).
  { rewrite Z.shiftr_lor, !Z.shiftr_div_pow2 by lia.
    rewrite !Z.div_small by lia. reflexivity. }
  rewrite Z.shiftr_div_pow2 in Hs by lia.
  apply Z.div_small_iff in Hs; [|lia].
  assert (0 <= Z.lor a b) by (apply Z.lor_nonneg; lia). lia.
Qed.

Lemma js_or_range a b :
  0 <= a < 2 ^ 29 -> 0 <= b < 2 ^ 29 -> 0 <= js_or a b < 2 ^ 29.
Proof.
  intros Ha Hb. unfold js_or. rewrite !ToInt32_small by lia. apply lor_range; lia.
Qed.

Lemma js_shl_opt_range b i k :
  0 <= k <= 21 -> 0 <= js_shl_opt (buf_get b i) k < 2 ^ 29.
Proof.
  intros Hk. unfold js_shl_opt. pose proof (ToInt32_opt_buf_get b i) as Hx.
  rewrite (Z.mod_small k 32) by lia. rewrite Z.shiftl_mul_pow2 by lia.
  assert (Hp : 0 < 2 ^ k <= 2 ^ 21).
  { split; [apply Z.pow_pos_nonneg; lia|apply Z.pow_le_mono_r; lia]. }
  assert (Hm : 0 <= ToInt32_opt (buf_get b i) * 2 ^ k < 2 ^ 29).
  { change (2 ^ 29) with (256 * 2 ^ 21). split; [nia|nia]. }
  rewrite ToInt32_small; lia.
Qed.

Lemma js_and_opt_7F_range b i : 0 <= js_and_opt (buf_get b i) (Some 0x7F) < 2 ^ 29.
Proof.
  unfold js_and_opt. pose proof (ToInt32_opt_buf_get b i) as Hx.
  change (ToInt32_opt (Some 127)) with 127.
  assert (H : 0 <= Z.land (ToInt32_opt (buf_get b i)) 127 <= 127).
  { assert (Hn : 0 <= Z.land (ToInt32_opt (buf_get b i)) 127)
      by (apply Z.land_nonneg; lia).
    split; [exact Hn|].
    assert (Hs : Z.shiftr (Z.land (ToInt32_opt (buf_get b i)) 127) 7 = 0).
    { rewrite Z.shiftr_land. change (Z.shiftr 127 7) with 0. apply Z.land_0_r. }
    rewrite Z.shiftr_div_pow2 in Hs by lia.
    apply Z.div_small_iff in Hs; lia. }
  lia.
Qed.

(** The sync-safe decoder never yields a negative number (nor one of 2^29 or
    more). *)
Lemma uint32SyncSafeToken_get_range b o : 0 <= uint32SyncSafeToken_get b o < 2 ^ 29.
Proof.
  unfold uint32SyncSafeToken_get.
  repeat apply js_or_range; try apply js_shl_opt_range; try apply js_and_opt_7F_range; lia.
Qed.

(** *** Loop conditions and the scratch buffer *)

Lemma ltb_congr a b c d : (a < b <-> c < d) -> (a <? b) = (c <? d).
Proof. intros H. destruct (Z.ltb_spec a b), (Z.ltb_spec c d); try reflexivity; lia. Qed.

Lemma buf_set_length target source offset filled :
  buf_set target source offset = inr filled -> List.length filled = List.length target.
Proof.
  unfold buf_set, buf_length. destruct (_ || _) eqn:E; [discriminate|].
  apply orb_false_iff in E. destruct E as [E1 E2].
  apply Z.ltb_ge in E1, E2. intros H. injection H as <-.
  rewrite !length_app, length_firstn, length_skipn. lia.
Qed.

Lemma round_double_lower z c :
  - 2 ^ 53 < c <= 0 -> c <= z -> c <= round_double z.
Proof.
  intros Hc Hz. unfold round_double.
  destruct (Z.abs z <? 2 ^ 53) eqn:E; [exact Hz|].
  apply Z.ltb_ge in E. assert (Hp : 0 < z) by lia.
  rewrite Z.sgn_pos by exact Hp. rewrite Z.mul_1_l.
  assert (Hu : 0 < 2 ^ (Z.log2 (Z.abs z) - 52)).
  { apply Z.pow_pos_nonneg; [lia|].
    assert (53 <= Z.log2 (Z.abs z)) by (apply Z.log2_le_pow2; lia). lia. }
  assert (Hq : 0 <= Z.abs z / 2 ^ (Z.log2 (Z.abs z) - 52)) by (apply Z.div_pos; lia).
  assert (0 <= (if 2 * (Z.abs z mod 2 ^ (Z.log2 (Z.abs z) - 52)) <? 2 ^ (Z.log2 (Z.abs z) - 52)
                then Z.abs z / 2 ^ (Z.log2 (Z.abs z) - 52)
                else if 2 ^ (Z.log2 (Z.abs z) - 52) <? 2 * (Z.abs z mod 2 ^ (Z.log2 (Z.abs z) - 52))
                     then Z.abs z / 2 ^ (Z.log2 (Z.abs z) - 52) + 1
                     else if Z.even (Z.abs z / 2 ^ (Z.log2 (Z.abs z) - 52))
                          then Z.abs z / 2 ^ (Z.log2 (Z.abs z) - 52)
                          else Z.abs z / 2 ^ (Z.log2 (Z.abs z) - 52) + 1)).
  { repeat match goal with |- context [if ?c then _ else _] => destruct c end; lia. }
  cbv zeta. nia.
Qed.

(** [peekNumber(token)]. *)
Lemma peekNumber_wf {A} (token : Token A) t :
  wf t -> 0 < len token ->
  peekNumber token t
  = if remaining t <? len token then Throw EndOfStreamError t
    else match buf_set (numBuffer t) (upcoming t (len token)) 0 with
         | inl e => Throw e t
         | inr filled =>
             match get token filled 0 with
             | inl e => Throw e (set_numBuffer t filled)
             | inr v => Ok v (set_numBuffer t filled)
             end
         end.
Proof.
  intros Hwf HL.
  assert (HN : norm_length (numBuffer t) (opt_length (len token)) = len token).
  { unfold norm_length, or_default, opt_length, truthy. simpl.
    destruct (len token =? 0) eqn:E; [apply Z.eqb_eq in E; lia|reflexivity]. }
  unfold peekNumber. unfold bind at 1. unfold gets. unfold bind at 1.
  rewrite peekBuffer_wf by (rewrite ?HN; try reflexivity; try exact Hwf; lia).
  rewrite HN. change (norm_mayBeLess (opt_length (len token))) with false.
  change (or_default (o_offset (opt_length (len token))) 0) with 0.
  cbn [negb andb].
  destruct (remaining t <? len token) eqn:E.
  - apply Z.ltb_lt in E. rewrite Z.min_l by lia.
    destruct (remaining t <? len token) eqn:E'; [reflexivity|apply Z.ltb_ge in E'; lia].
  - apply Z.ltb_ge in E. rewrite Z.min_r by lia. rewrite Z.ltb_irrefl.
    destruct (buf_set _ _ _) as [e|filled]; [reflexivity|].
    unfold bind, modify. rewrite Z.ltb_irrefl. unfold lift.
    destruct (get token filled 0); reflexivity.
Qed.

Section ShiftConditions.
Context (prefix : Buffer) (p0 : Z).

Lemma lt_size_shift t x :
  wf t ->
  lt_size (x + buf_length prefix) (fileInfo_size (shift prefix t)) = lt_size x (fileInfo_size t).
Proof.
  intros [Hs _]. unfold shift. cbn [fileInfo_size]. rewrite Hs. simpl. apply ltb_congr. lia.
Qed.

Lemma gt_size_shift t x :
  wf t ->
  gt_size (x + buf_length prefix) (fileInfo_size (shift prefix t)) = gt_size x (fileInfo_size t).
Proof.
  intros [Hs _]. unfold shift. cbn [fileInfo_size]. rewrite Hs. simpl. apply ltb_congr. lia.
Qed.

Lemma shifted_gets_lt_size c :
  shifted prefix p0
    (gets (fun tokenizer => lt_size (position tokenizer + c) (fileInfo_size tokenizer)))
    (fun _ => True).
Proof.
  apply shifted_gets. intros t [Hwf _]. split; [|exact I].
  rewrite <- (lt_size_shift t (position t + c) Hwf). f_equal. unfold shift. simpl. lia.
Qed.

Lemma shifted_gets_gt_size c :
  shifted prefix p0
    (gets (fun tokenizer => gt_size (position tokenizer + c) (fileInfo_size tokenizer)))
    (fun _ => True).
Proof.
  apply shifted_gets. intros t [Hwf _]. split; [|exact I].
  rewrite <- (gt_size_shift t (position t + c) Hwf). f_equal. unfold shift. simpl. lia.
Qed.

Lemma shifted_gets_zip_continue (nextHeaderIndex : Z) :
  shifted prefix p0
    (gets (fun tokenizer => (nextHeaderIndex <? 0)
                            && lt_size (position tokenizer) (fileInfo_size tokenizer)))
    (fun _ => True).
Proof.
  apply shifted_gets. intros t [Hwf _]. split; [|exact I].
  f_equal. exact (lt_size_shift t (position t) Hwf).
Qed.

Lemma Inv_set_numBuffer t b :
  Inv p0 t -> List.length b = 8%nat -> Inv p0 (set_numBuffer t b).
Proof. intros [[Hs [Hp Hn]] H0] Hb. repeat split; simpl; auto; lia. Qed.

Lemma shifted_peekNumber {A} (token : Token A) (Q : A -> Prop) :
  0 < len token ->
  (forall b v, get token b 0 = inr v -> Q v) ->
  shifted prefix p0 (peekNumber token) Q.
Proof.
  intros HL HQ t Ht. pose proof Ht as [Hwf Hp]. pose proof Hwf as [_ [Hr Hn]].
  rewrite !peekNumber_wf by (auto using wf_shift).
  rewrite remaining_shift, upcoming_shift by lia.
  change (numBuffer (shift prefix t)) with (numBuffer t).
  destruct (remaining t <? len token) eqn:E; [split; [exact Ht|reflexivity]|].
  destruct (buf_set _ _ _) as [e|filled] eqn:B; [split; [exact Ht|reflexivity]|].
  rewrite shift_set_numBuffer.
  assert (HI : Inv p0 (set_numBuffer t filled)).
  { apply Inv_set_numBuffer; [exact Ht|]. apply buf_set_length in B. congruence. }
  destruct (get token filled 0) eqn:G.
  - split; [exact HI|reflexivity].
  - split; [exact HI|]. split; [eapply HQ; exact G|reflexivity].
Qed.

End ShiftConditions.

(** *** Reads whose length depends on the size *)

Lemma bind_gets {A B} (f : BufferTokenizer -> A) (k : A -> M B) t :
  bind (gets f) k t = k (f t) t.
Proof. reflexivity. Qed.

Lemma upcoming_all t n : wf t -> remaining t <= n -> upcoming t n = unread t.
Proof.
  intros Hwf H. rewrite upcoming_unread. apply firstn_all2.
  pose proof (length_unread t Hwf). lia.
Qed.

(** Reading up to [min n size] bytes is reading up to [n] bytes. *)
Lemma upcoming_min_size t n :
  wf t -> upcoming t (Z.min n (buf_length (uint8Array t))) = upcoming t n.
Proof.
  intros Hwf. pose proof Hwf as [_ [Hp _]].
  destruct (Z.le_ge_cases n (buf_length (uint8Array t))) as [H|H].
  - rewrite Z.min_l by lia. reflexivity.
  - rewrite Z.min_r by lia. rewrite !upcoming_all; auto; unfold remaining; lia.
Qed.

(** Growing the sample to [n] bytes, [Math.min(n, size)] with
    [mayBeLess]. *)
Lemma grow_peek_wf n target t :
  wf t -> 0 < n ->
  peekBuffer target (Some (opt_length_mayBeLess (Z_min_size n (fileInfo_size t)))) t
  = match buf_set target (upcoming t n) 0 with
    | inl e => Throw e t
    | inr filled => Ok (Z.min (remaining t) n, filled) t
    end.
Proof.
  intros Hwf Hn. pose proof Hwf as [Hs [Hp _]]. rewrite Hs. cbn [Z_min_size].
  assert (Hd : 0 <= buf_length target) by (unfold buf_length; lia).
  destruct (Z.eq_dec (Z.min n (buf_length (uint8Array t))) 0) as [E|E].
  - rewrite E. rewrite peekBuffer_wf; [|exact Hwf|reflexivity|].
    2:{ unfold norm_length, or_default. simpl. lia. }
    change (norm_mayBeLess (opt_length_mayBeLess 0)) with true.
    change (norm_length target (opt_length_mayBeLess 0)) with (buf_length target - 0).
    change (or_default (o_offset (opt_length_mayBeLess 0)) 0) with 0.
    cbn [negb andb]. rewrite !upcoming_all by (auto; unfold remaining; lia).
    replace (Z.min (remaining t) (buf_length target - 0)) with (Z.min (remaining t) n)
      by (unfold remaining; lia).
    reflexivity.
  - assert (HN : norm_length target (opt_length_mayBeLess (Z.min n (buf_length (uint8Array t))))
                 = Z.min n (buf_length (uint8Array t))).
    { unfold norm_length, or_default, truthy. simpl.
      destruct (Z.min n (buf_length (uint8Array t)) =? 0) eqn:E'; [apply Z.eqb_eq in E'; lia|].
      reflexivity. }
    rewrite peekBuffer_wf; [|exact Hwf|reflexivity|rewrite HN; lia].
    rewrite HN.
    change (norm_mayBeLess (opt_length_mayBeLess (Z.min n (buf_length (uint8Array t))))) with true.
    change (or_default (o_offset (opt_length_mayBeLess (Z.min n (buf_length (uint8Array t))))) 0)
      with 0.
    cbn [negb andb]. rewrite upcoming_min_size by exact Hwf.
    replace (Z.min (remaining t) (Z.min n (buf_length (uint8Array t))))
      with (Z.min (remaining t) n) by (unfold remaining; lia).
    reflexivity.
Qed.

Lemma skipn_repeat {A} (x : A) n k : skipn n (repeat x k) = repeat x (k - n).
Proof.
  revert k. induction n as [|n IH]; intros k; simpl.
  - rewrite Nat.sub_0_r. reflexivity.
  - destruct k; simpl; [reflexivity|apply IH].
Qed.

(** The read of [parse] in the PDF branch: into a buffer of
    [Math.min(n, size)] bytes, with [mayBeLess]. *)
Lemma sized_read_wf n t :
  wf t -> 0 <= n ->
  readBuffer (Buffer_alloc (Z_min_size n (fileInfo_size t))) (Some opt_mayBeLess) t
  = Ok (Z.min (remaining t) n,
        upcoming t n
        ++ repeat x00 (Z.to_nat (Z.min n (buf_length (uint8Array t)))
                       - List.length (upcoming t n)))
       (set_position t (position t + Z.min (remaining t) n)).
Proof.
  intros Hwf Hn. pose proof Hwf as [Hs [Hp _]]. rewrite Hs. cbn [Z_min_size].
  rewrite readBuffer_mayBeLess by exact Hwf.
  rewrite buf_length_alloc by lia. rewrite upcoming_min_size by exact Hwf.
  replace (Z.min (remaining t) (Z.min n (buf_length (uint8Array t))))
    with (Z.min (remaining t) n) by (unfold remaining; lia).
  unfold overlay, Buffer_alloc. rewrite skipn_repeat. reflexivity.
Qed.

Lemma prefix_eqb_padding needle : forall hay k,
  Forall (fun b => b <> x00) needle ->
  prefix_eqb needle (hay ++ repeat x00 k) = prefix_eqb needle hay.
Proof.
  induction needle as [|a needle IH]; intros hay k H; [reflexivity|].
  inversion H as [|? ? Ha Hn]; subst.
  destruct hay as [|y hay]; simpl.
  - destruct k; simpl; [reflexivity|].
    destruct (Byte.eqb a x00) eqn:E; [|reflexivity].
    apply Byte.byte_dec_bl in E. contradiction.
  - rewrite IH by exact Hn. reflexivity.
Qed.

Lemma indexOf_from_zeros needle k : forall from,
  needle <> [] -> Forall (fun b => b <> x00) needle ->
  indexOf_from needle (repeat x00 k) from = -1.
Proof.
  induction k as [|k IH]; intros from Hne H; simpl; [reflexivity|].
  change (x00 :: repeat x00 k) with ([] ++ repeat x00 (S k)).
  rewrite prefix_eqb_padding by exact H.
  destruct needle; [congruence|]. simpl. apply IH; auto.
Qed.

(** Zero bytes after the bytes read do not add an occurrence of a needle
    without zero bytes. *)
Lemma indexOf_from_padding needle hay k : forall from,
  needle <> [] -> Forall (fun b => b <> x00) needle ->
  indexOf_from needle (hay ++ repeat x00 k) from = indexOf_from needle hay from.
Proof.
  induction hay as [|y hay IH]; intros from Hne H.
  - simpl. apply indexOf_from_zeros; auto.
  - cbn [app indexOf_from]. change (y :: hay ++ repeat x00 k) with ((y :: hay) ++ repeat x00 k).
    rewrite prefix_eqb_padding by exact H. rewrite IH by auto. reflexivity.
Qed.

Lemma buf_includes_padding needle hay k :
  needle <> [] -> Forall (fun b => b <> x00) needle ->
  buf_includes (hay ++ repeat x00 k) needle = buf_includes hay needle.
Proof.
  intros Hne H. unfold buf_includes, buf_indexOf. rewrite indexOf_from_padding; auto.
Qed.

Lemma ignore_wf_any length_ t :
  wf t ->
  ignore length_ t
  = Ok (Z.min (remaining t) length_)
       (set_position t (position t + Z.min (remaining t) length_)).
Proof.
  intros [Hs [Hp _]]. unfold ignore, bind, gets, modify, ret. rewrite Hs. unfold remaining.
  destruct (buf_length (uint8Array t) - position t <? length_) eqn:E.
  - apply Z.ltb_lt in E. rewrite Z.min_l by lia. reflexivity.
  - apply Z.ltb_ge in E. rewrite Z.min_r by lia. reflexivity.
Qed.

(** *** The pass over the dispatcher *)

Lemma get_UINT16_nonneg (bigEndian : bool) b o v :
  get (if bigEndian then UINT16_BE else UINT16_LE) b o = inr v -> 0 <= v.
Proof.
  destruct bigEndian; simpl; intros H; apply map_except_inr in H;
    destruct H as [a [_ ->]]; [apply uint_be_nonneg|apply uint_le_nonneg].
Qed.

Lemma get_UINT8_nonneg b o v : get UINT8 b o = inr v -> 0 <= v.
Proof.
  simpl; intros H; apply map_except_inr in H. destruct H as [a [_ ->]]. apply uint_be_nonneg.
Qed.

Lemma get_UINT64_LE_nonneg b o v : get UINT64_LE b o = inr v -> 0 <= v.
Proof.
  simpl; intros H; apply map_except_inr in H. destruct H as [a [_ ->]]. apply uint_le_nonneg.
Qed.

Lemma get_uint32SyncSafeToken_nonneg b o v : get uint32SyncSafeToken b o = inr v -> 0 <= v.
Proof.
  simpl. intros H. injection H as <-. apply uint32SyncSafeToken_get_range.
Qed.

Section ShiftComposite.
Context (prefix : Buffer) (p0 : Z).

Lemma shifted_ignore_nonneg n :
  0 <= n -> shifted prefix p0 (ignore n) (fun v => 0 <= v).
Proof.
  intros Hn t Ht. pose proof Ht as [Hwf Hp]. pose proof Hwf as [_ [Hr _]].
  rewrite !ignore_wf by (auto using wf_shift).
  rewrite remaining_shift, shift_set_position.
  split; [|split; [unfold remaining; lia|reflexivity]].
  apply Inv_advance; [exact Ht|]. unfold remaining in *. lia.
Qed.

Lemma shifted_grow n target {B} (k : Z * Buffer -> M B) (Q : B -> Prop) :
  0 < n -> (forall r, shifted prefix p0 (k r) Q) ->
  shifted prefix p0
    (size <- gets fileInfo_size ;;
     r <- peekBuffer target (Some (opt_length_mayBeLess (Z_min_size n size))) ;;
     k r) Q.
Proof.
  intros Hn Hk t Ht. pose proof Ht as [Hwf Hp]. pose proof Hwf as [_ [Hr _]].
  rewrite !bind_gets. unfold bind. rewrite !grow_peek_wf by (auto using wf_shift).
  rewrite upcoming_shift, remaining_shift by lia.
  destruct (buf_set _ _ _) as [e|filled]; [split; [exact Ht|reflexivity]|].
  apply (Hk _ t Ht).
Qed.

Lemma shifted_fileTypeFromTokenizer_with (self : M Detection) (Q : Detection -> Prop) :
  shifted prefix p0 self Q -> shifted prefix p0 (fileTypeFromTokenizer_with self) Q.
Proof.
  intros H t Ht. rewrite !fileTypeFromTokenizer_with_is_parse. exact (H t Ht).
Qed.

End ShiftComposite.

Create HintDb shifted_db.

Ltac ltb_hyps :=
  repeat match goal with
         | H : (_ <? _) = false |- _ => apply Z.ltb_ge in H
         | H : (_ <? _) = true |- _ => apply Z.ltb_lt in H
         | H : (_ <=? _) = false |- _ => apply Z.leb_gt in H
         | H : (_ <=? _) = true |- _ => apply Z.leb_le in H
         end.

Ltac nonneg :=
  first [ assumption
        | eapply readUInt32LE_nonneg; eassumption
        | eapply readUInt16LE_nonneg; eassumption
        | eapply readUIntBE_nonneg; eassumption
        | eapply get_UINT32_nonneg; eassumption
        | eapply get_UINT16_nonneg; eassumption
        | eapply get_UINT8_nonneg; eassumption
        | eapply get_uint32SyncSafeToken_nonneg; eassumption
        | (ltb_hyps; simpl; lia) ].

Ltac norm_side :=
  first [ reflexivity
        | (unfold norm_length, or_default, truthy, buf_length; simpl; lia) ].

(** A primitive operation whose result is not negative. *)
Ltac shifted_prim_nonneg :=
  first [ apply shifted_readToken; intros; nonneg
        | apply shifted_peekNumber; [simpl; lia | intros; nonneg]
        | apply shifted_lift; intros; nonneg
        | apply shifted_ignore_nonneg; nonneg ].

(** A primitive operation, with nothing said about its result. *)
Ltac shifted_prim :=
  first [ apply shifted_readToken; intros; exact I
        | apply shifted_lift; intros; exact I
        | apply shifted_peekBuffer; norm_side
        | apply shifted_readBuffer; norm_side
        | apply shifted_readBuffer_none
        | apply shifted_gets_lt_size
        | apply shifted_gets_gt_size
        | apply shifted_gets_zip_continue
        | (eapply shifted_weaken; [apply shifted_ignore_nonneg; nonneg | intros; exact I])
        | eassumption
        | solve [eauto with shifted_db] ].

Ltac shifted_step :=
  lazymatch goal with
  | |- shifted _ _ (ret _) _ =>
      apply shifted_ret; first [ exact I | assumption | (simpl; nonneg) ]
  | |- shifted _ _ (throw _) _ => apply shifted_throw
  | |- shifted _ _ out_of_fuel _ => apply shifted_out_of_fuel
  | |- shifted _ _ (let _ := _ in _) _ => cbv zeta
  | |- shifted _ _
         (bind (gets fileInfo_size)
               (fun size => bind (peekBuffer _ (Some (opt_length_mayBeLess (Z_min_size _ size)))) _))
         _ =>
      apply shifted_grow; [lia | intros ?]
  | |- shifted _ _ (@bind ?A _ ?m _) _ =>
      first [ apply shifted_bind with (P := fun v : Z => 0 <= v);
              [solve [shifted_prim_nonneg] | intros ? ?]
            | apply shifted_bind with (P := fun e : EbmlElement => 0 <= e_len e);
              [solve [eauto with shifted_db] | intros ? ?]
            | apply shifted_bind with (P := fun _ => True);
              [try solve [shifted_prim] | intros ? _] ]
  | |- shifted _ _ (if ?c then _ else _) _ => destruct c eqn:?
  | |- shifted _ _ (match ?x with _ => _ end) _ => destruct x
  | |- shifted _ _ (try_catch _ _) _ => apply shifted_try_catch; [|intros ?]
  | |- shifted _ _ _ _ => first [ eassumption | solve [eauto with shifted_db] ]
  end.

Ltac shifted_run := repeat shifted_step.

Section ShiftWalkers.
Context (prefix : Buffer) (p0 : Z).

Lemma shifted_zip_find_next_header fuel : forall buffer nextHeaderIndex,
  shifted prefix p0 (zip_find_next_header fuel buffer nextHeaderIndex) (fun _ => True).
Proof.
  induction fuel as [|fuel IH]; intros buffer nextHeaderIndex; simpl.
  - shifted_run.
  - apply shifted_bind with (P := fun _ => True); [apply shifted_gets_zip_continue|].
    intros c _. destruct c; [|shifted_run].
    apply shifted_bind with (P := fun _ => True); [shifted_prim|]. intros [n filled] _.
    apply shifted_bind with (P := fun _ => True); [|intros _ _; apply IH].
    eapply shifted_weaken; [apply shifted_ignore_nonneg|intros; exact I].
    destruct (0 <=? buf_indexOf filled zip_signature) eqn:E;
      [apply Z.leb_le in E; lia|unfold buf_length; lia].
Qed.

Lemma shifted_zip_entries fuel : forall buffer,
  shifted prefix p0 (zip_entries fuel buffer) (fun _ => True).
Proof.
  pose proof shifted_zip_find_next_header as Hfind.
  induction fuel as [|fuel IH]; intros buffer; simpl; shifted_run.
Qed.

Lemma shifted_parse_zip fuel buffer :
  shifted prefix p0 (parse_zip fuel buffer) (fun _ => True).
Proof.
  pose proof shifted_zip_entries as Hentries. unfold parse_zip. shifted_run.
Qed.

Lemma shifted_parse_ogg : shifted prefix p0 parse_ogg (fun _ => True).
Proof. unfold parse_ogg. shifted_run. Qed.

Lemma shifted_parse_ar : shifted prefix p0 parse_ar (fun _ => True).
Proof. unfold parse_ar. shifted_run. Qed.

Lemma shifted_parse_jp2 : shifted prefix p0 parse_jp2 (fun _ => True).
Proof. unfold parse_jp2. shifted_run. Qed.

End ShiftWalkers.

(** *** The container walks *)

(** [asf_readHeader]: sixteen bytes of GUID and eight of size. *)
Lemma asf_readHeader_wf t :
  wf t ->
  asf_readHeader t
  = if remaining t <? 16 then Throw EndOfStreamError t
    else if remaining t <? 24
         then Throw EndOfStreamError (set_position t (position t + 16))
         else match get UINT64_LE (upcoming (set_position t (position t + 16)) 8) 0 with
              | inl e => Throw e (set_position t (position t + 24))
              | inr size =>
                  Ok {| h_id := upcoming t 16; h_size := round_double size |}
                     (set_position t (position t + 24))
              end.
Proof.
  intros Hwf. pose proof Hwf as [_ [Hp _]].
  unfold asf_readHeader. cbv zeta. unfold bind at 1.
  rewrite readBuffer_none by exact Hwf.
  change (buf_length (Buffer_alloc 16)) with 16.
  destruct (remaining t <? 16) eqn:E; [reflexivity|]. apply Z.ltb_ge in E.
  assert (Hwf' : wf (set_position t (position t + 16))).
  { apply wf_set_position; [exact Hwf|]. unfold remaining in E. lia. }
  unfold bind. rewrite readToken_wf by (try exact Hwf'; simpl; lia).
  change (len UINT64_LE) with 8.
  replace (remaining (set_position t (position t + 16)) <? 8) with (remaining t <? 24)
    by (apply ltb_congr; unfold remaining; simpl; lia).
  destruct (remaining t <? 24); [reflexivity|].
  assert (Hs : set_position (set_position t (position t + 16))
                 (position (set_position t (position t + 16)) + 8)
               = set_position t (position t + 24)).
  { unfold set_position. simpl. f_equal. lia. }
  rewrite Hs. destruct (get UINT64_LE _ 0); reflexivity.
Qed.

Section ShiftContainers.
Context (prefix : Buffer) (p0 : Z).

Lemma shifted_parse_pdf : shifted prefix p0 parse_pdf (fun _ => True).
Proof.
  unfold parse_pdf.
  apply shifted_bind with (P := fun _ => True); [shifted_prim|]. intros _ _. cbv zeta.
  intros t Ht. pose proof Ht as [Hwf Hp]. pose proof Hwf as [_ [Hr _]].
  rewrite !bind_gets. unfold bind.
  rewrite !(sized_read_wf (10 * 1024 * 1024)) by (auto using wf_shift; lia).
  rewrite upcoming_shift, remaining_shift by lia.
  rewrite !buf_includes_padding by (try discriminate; repeat constructor; discriminate).
  rewrite shift_set_position.
  assert (HI : Inv p0 (set_position t (position t + Z.min (remaining t) (10 * 1024 * 1024)))).
  { apply Inv_advance; [exact Ht|]. unfold remaining in *. lia. }
  destruct (buf_includes _ _); (split; [exact HI|]; split; [exact I|reflexivity]).
Qed.

Lemma shifted_readTiffTag b : shifted prefix p0 (readTiffTag b) (fun _ => True).
Proof. unfold readTiffTag. shifted_run. Qed.

Lemma shifted_readTiffIFD_tags b n : shifted prefix p0 (readTiffIFD_tags b n) (fun _ => True).
Proof.
  pose proof shifted_readTiffTag as Htag. induction n; simpl; shifted_run.
Qed.

Lemma shifted_readTiffIFD b : shifted prefix p0 (readTiffIFD b) (fun _ => True).
Proof.
  pose proof shifted_readTiffIFD_tags as Htags. unfold readTiffIFD. shifted_run.
Qed.

Lemma shifted_readTiffHeader buffer b :
  shifted prefix p0 (readTiffHeader buffer b) (fun _ => True).
Proof.
  pose proof shifted_readTiffIFD as Hifd. unfold readTiffHeader. shifted_run.
Qed.

Lemma shifted_readField : shifted prefix p0 readField (fun _ => True).
Proof. unfold readField. shifted_run. Qed.

Lemma shifted_readElement : shifted prefix p0 readElement (fun e => 0 <= e_len e).
Proof.
  pose proof shifted_readField as Hfield. unfold readElement. shifted_run.
Qed.

Lemma shifted_readChildren fuel : forall children,
  shifted prefix p0 (readChildren fuel children) (fun _ => True).
Proof.
  pose proof shifted_readElement as Helement.
  induction fuel as [|fuel IH]; intros children; simpl; shifted_run.
Qed.

Lemma shifted_parse_ebml fuel : shifted prefix p0 (parse_ebml fuel) (fun _ => True).
Proof.
  pose proof shifted_readElement as Helement. pose proof shifted_readChildren as Hchildren.
  unfold parse_ebml. shifted_run.
Qed.

Lemma shifted_readChunkHeader : shifted prefix p0 readChunkHeader (fun _ => True).
Proof. unfold readChunkHeader. shifted_run. Qed.

Lemma shifted_png_chunks fuel : shifted prefix p0 (png_chunks fuel) (fun _ => True).
Proof.
  pose proof shifted_readChunkHeader as Hheader.
  induction fuel as [|fuel IH]; simpl; shifted_run.
Qed.

Lemma shifted_parse_png fuel : shifted prefix p0 (parse_png fuel) (fun _ => True).
Proof.
  pose proof shifted_png_chunks as Hchunks. unfold parse_png. shifted_run.
Qed.

End ShiftContainers.

Section ShiftAsf.
Context (prefix : Buffer) (p0 : Z).

(** One round of the loop over the ASF header objects, after the header of
    the object has been read: the payload size computed from an object size
    below 24 is negative and moves the position back, but not before the
    start of the header. *)
Lemma asf_round_shifted (rest : M (option Detection)) (header : AsfHeader) :
  shifted prefix p0 rest (fun _ => True) ->
  0 <= h_size header ->
  forall u, wf u -> 24 <= position u -> p0 + 24 <= position u ->
    let k :=
      (let payload := round_double (h_size header - 24) in
       if _check (h_id header)
            [0x91; 0x07; 0xDC; 0xB7; 0xB7; 0xA9; 0xCF; 0x11;
             0x8E; 0xE6; 0x00; 0xC0; 0x0C; 0x20; 0x53; 0x65] no_options then
         let typeId := Buffer_alloc 16 in
         '(_, typeId) <- readBuffer typeId None ;;
         if _check typeId
              [0x40; 0x9E; 0x69; 0xF8; 0x4D; 0x5B; 0xCF; 0x11;
               0xA8; 0xFD; 0x00; 0x80; 0x5F; 0x5C; 0x44; 0x2B] no_options then
           ret (Some (FT "asf" "audio/x-ms-asf"))
         else if _check typeId
              [0xC0; 0xEF; 0x19; 0xBC; 0x4D; 0x5B; 0xCF; 0x11;
               0xA8; 0xFD; 0x00; 0x80; 0x5F; 0x5C; 0x44; 0x2B] no_options then
           ret (Some (FT "asf" "video/x-ms-asf"))
         else ret None
       else
         ignore payload ;;
         rest) in
    match k u with
    | Ok a u' => Inv p0 u' /\ True /\ k (shift prefix u) = Ok a (shift prefix u')
    | Throw e u' => Inv p0 u' /\ k (shift prefix u) = Throw e (shift prefix u')
    | OutOfFuel => k (shift prefix u) = OutOfFuel
    end.
Proof.
  intros Hrest Hsize u Hwf H24 Hp. cbv zeta.
  assert (Hu : Inv p0 u) by (split; [exact Hwf|lia]).
  destruct (_check (h_id header) _ no_options).
  - assert (H : shifted prefix p0
                  ('(_, typeId) <- readBuffer (Buffer_alloc 16) None ;;
                   if _check typeId
                        [0x40; 0x9E; 0x69; 0xF8; 0x4D; 0x5B; 0xCF; 0x11;
                         0xA8; 0xFD; 0x00; 0x80; 0x5F; 0x5C; 0x44; 0x2B] no_options then
                     ret (Some (FT "asf" "audio/x-ms-asf"))
                   else if _check typeId
                        [0xC0; 0xEF; 0x19; 0xBC; 0x4D; 0x5B; 0xCF; 0x11;
                         0xA8; 0xFD; 0x00; 0x80; 0x5F; 0x5C; 0x44; 0x2B] no_options then
                     ret (Some (FT "asf" "video/x-ms-asf"))
                   else ret None)
                  (fun _ => True)) by shifted_run.
    exact (H u Hu).
  - pose proof Hwf as [_ [Hr _]].
    assert (Hpay : -24 <= round_double (h_size header - 24)).
    { apply round_double_lower; lia. }
    unfold bind. rewrite !ignore_wf_any by (auto using wf_shift).
    rewrite remaining_shift, shift_set_position.
    apply Hrest. split.
    + apply wf_set_position; [exact Hwf|]. unfold remaining. lia.
    + simpl. unfold remaining. lia.
Qed.

Lemma shifted_asf_objects fuel : shifted prefix p0 (asf_objects fuel) (fun _ => True).
Proof.
  induction fuel as [|fuel IH]; simpl; [shifted_run|].
  apply shifted_bind with (P := fun _ => True); [apply shifted_gets_lt_size|].
  intros c _. destruct (negb c); [shifted_run|].
  intros t Ht. pose proof Ht as [Hwf Hp]. pose proof Hwf as [_ [Hr _]].
  match goal with |- context [bind asf_readHeader ?k] => set (K := k) end.
  unfold bind. rewrite !asf_readHeader_wf by (auto using wf_shift).
  rewrite remaining_shift.
  destruct (remaining t <? 16) eqn:E16; [split; [exact Ht|reflexivity]|].
  apply Z.ltb_ge in E16.
  rewrite !shift_set_position.
  assert (HI16 : Inv p0 (set_position t (position t + 16))).
  { apply Inv_advance; [exact Ht|]. lia. }
  destruct (remaining t <? 24) eqn:E24; [split; [exact HI16|reflexivity]|].
  apply Z.ltb_ge in E24.
  assert (HI24 : Inv p0 (set_position t (position t + 24))).
  { apply Inv_advance; [exact Ht|]. lia. }
  rewrite upcoming_shift by (simpl; lia).
  rewrite upcoming_shift by lia.
  destruct (get UINT64_LE _ 0) as [e|size] eqn:G; [split; [exact HI24|reflexivity]|].
  apply get_UINT64_LE_nonneg in G.
  apply (asf_round_shifted (asf_objects fuel)
           {| h_id := upcoming t 16; h_size := round_double size |} IH).
  - simpl. apply round_double_lower; lia.
  - apply HI24.
  - simpl. lia.
  - simpl. lia.
Qed.

Lemma shifted_parse_asf fuel : shifted prefix p0 (parse_asf fuel) (fun _ => True).
Proof.
  pose proof shifted_asf_objects as Hobjects. unfold parse_asf. shifted_run.
Qed.

End ShiftAsf.

(** *** The cascade *)

(** The start of [parse] on a tokenizer that knows its size. *)
Lemma parse_body_wf fuel self t :
  wf t ->
  parse_body fuel self t
  = ('(_, buffer) <- peekBuffer (Buffer_alloc minimumBytes) (Some (opt_length_mayBeLess 12)) ;;
     signatures_2byte fuel self buffer) t.
Proof.
  intros [Hs _]. unfold parse_body. cbv zeta. rewrite bind_gets. rewrite Hs. reflexivity.
Qed.

Section ShiftStages.
Context (prefix : Buffer) (p0 : Z).

#[local] Hint Resolve shifted_parse_zip shifted_parse_ogg shifted_parse_ar shifted_parse_jp2
  shifted_parse_pdf shifted_readTiffHeader shifted_parse_ebml shifted_parse_png
  shifted_parse_asf : shifted_db.

Lemma shifted_signatures_512 buffer :
  shifted prefix p0 (signatures_512 buffer) (fun _ => True).
Proof. unfold signatures_512. shifted_run. Qed.

Lemma shifted_asar_probe buffer :
  shifted prefix p0 (asar_probe buffer) (fun _ => True).
Proof. unfold asar_probe. shifted_run. Qed.

Lemma shifted_signatures_15byte buffer :
  shifted prefix p0 (signatures_15byte buffer) (fun _ => True).
Proof.
  pose proof shifted_signatures_512 as H512. pose proof shifted_asar_probe as Hasar.
  unfold signatures_15byte. shifted_run.
Qed.

Lemma shifted_signatures_unsafe buffer :
  shifted prefix p0 (signatures_unsafe buffer) (fun _ => True).
Proof.
  pose proof shifted_signatures_15byte as H15. unfold signatures_unsafe. shifted_run.
Qed.

Lemma shifted_signatures_12byte fuel buffer :
  shifted prefix p0 (signatures_12byte fuel buffer) (fun _ => True).
Proof.
  pose proof shifted_signatures_unsafe as Hnext. unfold signatures_12byte. shifted_run.
Qed.

Lemma shifted_signatures_9byte fuel buffer :
  shifted prefix p0 (signatures_9byte fuel buffer) (fun _ => True).
Proof.
  pose proof shifted_signatures_12byte as Hnext. unfold signatures_9byte. shifted_run.
Qed.

Lemma shifted_signatures_8byte fuel buffer :
  shifted prefix p0 (signatures_8byte fuel buffer) (fun _ => True).
Proof.
  pose proof shifted_signatures_9byte as Hnext. unfold signatures_8byte. shifted_run.
Qed.

Lemma shifted_signatures_7byte fuel buffer :
  shifted prefix p0 (signatures_7byte fuel buffer) (fun _ => True).
Proof.
  pose proof shifted_signatures_8byte as Hnext. unfold signatures_7byte. shifted_run.
Qed.

Lemma shifted_signatures_6byte fuel buffer :
  shifted prefix p0 (signatures_6byte fuel buffer) (fun _ => True).
Proof.
  pose proof shifted_signatures_7byte as Hnext. unfold signatures_6byte. shifted_run.
Qed.

Lemma shifted_signatures_5byte fuel buffer :
  shifted prefix p0 (signatures_5byte fuel buffer) (fun _ => True).
Proof.
  pose proof shifted_signatures_6byte as Hnext. unfold signatures_5byte. shifted_run.
Qed.

Lemma shifted_signatures_after_tiff fuel buffer :
  shifted prefix p0 (signatures_after_tiff fuel buffer) (fun _ => True).
Proof.
  pose proof shifted_signatures_5byte as Hnext. unfold signatures_after_tiff. shifted_run.
Qed.

Lemma shifted_signatures_after_zip fuel buffer :
  shifted prefix p0 (signatures_after_zip fuel buffer) (fun _ => True).
Proof.
  pose proof shifted_signatures_after_tiff as Hnext. unfold signatures_after_zip. shifted_run.
Qed.

Lemma shifted_signatures_4byte fuel buffer :
  shifted prefix p0 (signatures_4byte fuel buffer) (fun _ => True).
Proof.
  pose proof shifted_signatures_after_zip as Hnext. unfold signatures_4byte. shifted_run.
Qed.

Lemma shifted_signatures_3byte fuel self buffer :
  shifted prefix p0 self (fun _ => True) ->
  shifted prefix p0 (signatures_3byte fuel self buffer) (fun _ => True).
Proof.
  intros Hself. pose proof (shifted_fileTypeFromTokenizer_with prefix p0 self _ Hself) as Hre.
  pose proof shifted_signatures_4byte as Hnext. unfold signatures_3byte. shifted_run.
Qed.

Lemma shifted_signatures_2byte fuel self buffer :
  shifted prefix p0 self (fun _ => True) ->
  shifted prefix p0 (signatures_2byte fuel self buffer) (fun _ => True).
Proof.
  intros Hself. pose proof (shifted_signatures_3byte fuel self buffer Hself) as Hnext.
  unfold signatures_2byte. shifted_run.
Qed.

Lemma shifted_parse_body fuel self :
  shifted prefix p0 self (fun _ => True) ->
  shifted prefix p0 (parse_body fuel self) (fun _ => True).
Proof.
  intros Hself.
  pose proof (fun buffer => shifted_signatures_2byte fuel self buffer Hself) as Hnext.
  assert (H : shifted prefix p0
                ('(_, buffer) <- peekBuffer (Buffer_alloc minimumBytes)
                                   (Some (opt_length_mayBeLess 12)) ;;
                 signatures_2byte fuel self buffer) (fun _ => True)) by shifted_run.
  intros t Ht. pose proof Ht as [Hwf _].
  rewrite !parse_body_wf by (auto using wf_shift). exact (H t Ht).
Qed.

(** Detection runs on the tokenizer over [prefix ++ data], placed after the
    prefix, as it runs on the tokenizer over [data]. *)
Lemma shifted_parse fuel : shifted prefix p0 (parse fuel) (fun _ => True).
Proof.
  induction fuel as [|fuel IH]; simpl.
  - apply shifted_out_of_fuel.
  - apply shifted_parse_body, IH.
Qed.

End ShiftStages.

(** *** The byte order mark *)

Lemma shift_fromBuffer prefix data :
  shift prefix (fromBuffer data None)
  = set_position (fromBuffer (prefix ++ data) None) (buf_length prefix).
Proof.
  unfold shift, fromBuffer, set_position, buf_length. simpl. f_equal.
  rewrite length_app. f_equal. lia.
Qed.

Lemma Inv_fromBuffer data : Inv 0 (fromBuffer data None).
Proof. split; [apply wf_fromBuffer|simpl; lia]. Qed.

(** The outcome of detection does not change under the shift. *)
Lemma outcome_parse_shift prefix fuel data :
  outcome (parse fuel (shift prefix (fromBuffer data None)))
  = outcome (parse fuel (fromBuffer data None)).
Proof.
  pose proof (shifted_parse prefix 0 fuel (fromBuffer data None) (Inv_fromBuffer data)) as H.
  destruct (parse fuel (fromBuffer data None)) as [a t'|e t'|].
  - destruct H as [_ [_ ->]]. reflexivity.
  - destruct H as [_ ->]. reflexivity.
  - rewrite H. reflexivity.
Qed.

(** A sample that starts with the byte order mark reaches the branch that
    skips it. *)
Lemma cascade_reaches_bom fuel self (rest : Buffer) :
  signatures_2byte fuel self (utf8_bom ++ rest) = (ignore 3 ;; self).
Proof. reflexivity. Qed.

(** On bytes that start with the byte order mark, [parse] skips three bytes
    and starts again. *)
Lemma parse_after_bom fuel (data : Buffer) :
  parse (S fuel) (fromBuffer (utf8_bom ++ data) None)
  = parse fuel (set_position (fromBuffer (utf8_bom ++ data) None) 3).
Proof.
  pose proof (wf_fromBuffer (utf8_bom ++ data)) as Hwf.
  cbn [parse]. rewrite parse_body_wf by exact Hwf. unfold bind at 1.
  rewrite peekBuffer_mayBeLess by (try exact Hwf; unfold minimumBytes; vm_compute; split; congruence).
  assert (E : exists rest,
             overlay (upcoming (fromBuffer (utf8_bom ++ data) None) 12) (Buffer_alloc minimumBytes)
             = utf8_bom ++ rest).
  { unfold upcoming, overlay. cbn [position fromBuffer uint8Array]. cbn [Z.to_nat skipn].
    change (Z.to_nat 12) with 12%nat.
    cbn [utf8_bom app firstn]. eexists. reflexivity. }
  destruct E as [rest ->]. rewrite cascade_reaches_bom.
  unfold bind. rewrite ignore_wf by (try exact Hwf; lia).
  assert (R : Z.min (remaining (fromBuffer (utf8_bom ++ data) None)) 3 = 3).
  { unfold remaining, buf_length. cbn [fromBuffer uint8Array position].
    rewrite length_app. cbn [utf8_bom List.length]. lia. }
  rewrite R. reflexivity.
Qed.

(** No signature is recognised in no bytes or in a single byte. *)
Lemma parse_short fuel (data : Buffer) :
  buf_length data <= 1 ->
  outcome (parse (S fuel) (fromBuffer data None)) = Fulfilled None.
Proof.
  intros H. destruct data as [|b [|c data]].
  - vm_compute. reflexivity.
  - destruct b; vm_compute; reflexivity.
  - unfold buf_length in H. simpl in H. lia.
Qed.

(** C6.  For every byte sequence [X], detection on [EF BB BF ++ X] is
    fulfilled, rejected or left pending as detection on [X] is, with the same
    result: [parse] skips the three bytes of the byte order mark and runs
    again, from the start of its cascade, on the tokenizer at position 3. *)
Theorem utf8_bom_is_skipped :
  forall (X : Buffer) (fuel : nat),
    parse (S (S fuel)) (fromBuffer (utf8_bom ++ X) None)
    = parse (S fuel) (set_position (fromBuffer (utf8_bom ++ X) None) 3)
    /\ fileTypeFromBuffer (S (S fuel)) (AUint8Array (utf8_bom ++ X))
       = fileTypeFromBuffer (S fuel) (AUint8Array X).
Proof.
  intros X fuel. split; [apply parse_after_bom|].
  unfold fileTypeFromBuffer, fileTypeFromTokenizer.
  rewrite !fileTypeFromTokenizer_with_is_parse.
  assert (L : (1 <? buf_length (utf8_bom ++ X)) = true).
  { apply Z.ltb_lt. unfold buf_length. rewrite length_app. simpl. lia. }
  rewrite L. cbn [negb].
  rewrite parse_after_bom.
  change 3 with (buf_length utf8_bom). rewrite <- shift_fromBuffer.
  rewrite outcome_parse_shift.
  destruct (1 <? buf_length X) eqn:E; cbn [negb]; [reflexivity|].
  apply Z.ltb_ge in E. apply parse_short. exact E.
Qed.

(** ** Prefix stability of the probes on the sample *)

#[local] Hint Resolve shifted_zip_find_next_header shifted_zip_entries shifted_readTiffTag
  shifted_readTiffIFD_tags shifted_readTiffIFD shifted_readField shifted_readElement
  shifted_readChildren shifted_readChunkHeader shifted_png_chunks shifted_asf_objects
  shifted_parse shifted_fileTypeFromTokenizer_with : shifted_db.

Section Advance.
Context (X : Buffer) (HX : 512 <= buf_length X).

Lemma remaining_start : remaining (fromBuffer X None) = buf_length X.
Proof. unfold remaining. simpl. lia. Qed.

Lemma Inv_1_after k :
  0 < k -> Inv 1 (set_position (fromBuffer X None)
                    (position (fromBuffer X None) + Z.min (remaining (fromBuffer X None)) k)).
Proof.
  intros Hk. rewrite remaining_start. split.
  - apply wf_set_position; [apply wf_fromBuffer|]. simpl. lia.
  - simpl. lia.
Qed.

(** A branch that starts by skipping bytes. *)
Lemma advances_ignore {A} k (rest : M A) :
  0 < k -> shifted [] 1 rest (fun _ => True) -> advances X (ignore k ;; rest).
Proof.
  intros Hk Hrest a t' H. unfold bind in H.
  rewrite ignore_wf in H by (try apply wf_fromBuffer; lia).
  specialize (Hrest _ (Inv_1_after k Hk)). rewrite H in Hrest.
  destruct Hrest as [[_ Hp] _]. lia.
Qed.

(** How a branch that starts by reading [n] bytes ends. *)
Lemma exits_after_read {A} target n (k : Z * Buffer -> M A) :
  0 < n <= 512 ->
  (forall r, shifted [] 1 (k r) (fun _ => True)) ->
  match bind (readBuffer target (Some (opt_length n))) k (fromBuffer X None) with
  | Ok _ t' => 0 < position t'
  | Throw e t' => is_EndOfStreamError e = true -> 0 < position t'
  | OutOfFuel => True
  end.
Proof.
  intros Hn Hk. unfold bind.
  assert (HN : norm_length target (opt_length n) = n).
  { unfold norm_length, or_default, truthy. simpl.
    destruct (n =? 0) eqn:E; [apply Z.eqb_eq in E; lia|reflexivity]. }
  rewrite readBuffer_wf by (try apply wf_fromBuffer; try reflexivity; rewrite HN; lia).
  rewrite HN. change (norm_mayBeLess (opt_length n)) with false. cbn [negb andb].
  rewrite remaining_start.
  destruct (Z.min (buf_length X) n <? n) eqn:E; [apply Z.ltb_lt in E; lia|].
  destruct (buf_set target _ _) as [e|filled] eqn:B.
  - unfold buf_set in B. destruct (_ || _); [|discriminate].
    injection B as <-. simpl. discriminate.
  - pose proof (Inv_1_after n (proj1 Hn)) as HI. rewrite remaining_start in HI.
    specialize (Hk (Z.min (buf_length X) n, filled) _ HI).
    destruct (k _ _) as [a u|e u|].
    + destruct Hk as [[_ Hp] _]. lia.
    + destruct Hk as [[_ Hp] _]. intros _. lia.
    + exact I.
Qed.

Lemma zip_entries_exits fuel buffer :
  match zip_entries fuel buffer (fromBuffer X None) with
  | Ok _ t' => 0 < position t'
  | Throw e t' => is_EndOfStreamError e = true -> 0 < position t'
  | OutOfFuel => True
  end.
Proof.
  assert (C : lt_size (position (fromBuffer X None) + 30) (fileInfo_size (fromBuffer X None))
              = true).
  { simpl. apply Z.ltb_lt. lia. }
  destruct fuel as [|fuel]; cbn [zip_entries]; rewrite bind_gets, C; cbn [negb].
  - exact I.
  - apply exits_after_read; [lia|]. intros [n filled]. shifted_run.
Qed.

Lemma advances_parse_zip fuel buffer : advances X (parse_zip fuel buffer).
Proof.
  intros a t' H. unfold parse_zip in H. unfold bind at 1 in H. unfold try_catch in H.
  pose proof (zip_entries_exits fuel buffer) as He.
  destruct (zip_entries fuel buffer (fromBuffer X None)) as [r u|e u|].
  - destruct r; injection H as _ <-; exact He.
  - destruct (is_EndOfStreamError e); simpl in H; [|discriminate].
    injection H as _ <-. apply He. reflexivity.
  - discriminate.
Qed.

Lemma advances_parse_ogg : advances X parse_ogg.
Proof. unfold parse_ogg. apply advances_ignore; [lia|shifted_run]. Qed.

Lemma advances_parse_pdf : advances X parse_pdf.
Proof.
  intros a t' H.
  pose proof (shifted_parse_pdf [] 0 _ (Inv_fromBuffer X)) as Hs. rewrite H in Hs.
  destruct Hs as [[Hwf _] _].
  unfold parse_pdf in H. unfold bind at 1 in H.
  rewrite ignore_wf in H by (try apply wf_fromBuffer; lia).
  cbv zeta in H. rewrite bind_gets in H. unfold bind in H.
  assert (H1350 : 0 < 1350) by lia.
  pose proof (Inv_1_after 1350 H1350) as [Hwf1 Hp1].
  rewrite (sized_read_wf (10 * 1024 * 1024)) in H; [|exact Hwf1|lia].
  set (u := set_position (fromBuffer X None)
              (position (fromBuffer X None) + Z.min (remaining (fromBuffer X None)) 1350)) in *.
  assert (Hr : 0 <= remaining u).
  { destruct Hwf1 as [_ [Hr _]]. unfold remaining. lia. }
  destruct (buf_includes _ _); injection H as _ <-;
    rewrite position_set_position, remaining_start; lia.
Qed.

Lemma advances_parse_ar : advances X parse_ar.
Proof. unfold parse_ar. apply advances_ignore; [lia|shifted_run]. Qed.

Lemma advances_parse_png fuel : advances X (parse_png fuel).
Proof. unfold parse_png. apply advances_ignore; [lia|shifted_run]. Qed.

Lemma advances_parse_asf fuel : advances X (parse_asf fuel).
Proof. unfold parse_asf. apply advances_ignore; [lia|shifted_run]. Qed.

Lemma advances_parse_jp2 : advances X parse_jp2.
Proof. unfold parse_jp2. apply advances_ignore; [lia|shifted_run]. Qed.

End Advance.

(** *** Operations that move the tokenizer on *)

Lemma Inv_here t : wf t -> Inv (position t) t.
Proof. intros H. split; [exact H|lia]. Qed.

Lemma moves_on_readBuffer_none target :
  0 < buf_length target -> moves_on (readBuffer target None).
Proof.
  intros HL t Hwf. pose proof Hwf as [_ [Hp _]]. rewrite readBuffer_none by exact Hwf.
  destruct (remaining t <? buf_length target) eqn:E; [exact I|]. apply Z.ltb_ge in E.
  split; [|simpl; lia]. apply wf_set_position; [exact Hwf|]. unfold remaining in E. lia.
Qed.

Lemma moves_on_readToken {A} (token : Token A) :
  0 < len token -> moves_on (readToken token).
Proof.
  intros HL t Hwf. pose proof Hwf as [_ [Hp _]]. rewrite readToken_wf by (try exact Hwf; lia).
  destruct (remaining t <? len token) eqn:E; [exact I|]. apply Z.ltb_ge in E.
  destruct (get token _ 0); [exact I|].
  split; [|simpl; lia]. apply wf_set_position; [exact Hwf|]. unfold remaining in E. lia.
Qed.

Lemma moves_on_bind_l {A B} (m : M A) (k : A -> M B) :
  moves_on m -> (forall a p, shifted [] p (k a) (fun _ => True)) -> moves_on (bind m k).
Proof.
  intros Hm Hk t Hwf. unfold bind. specialize (Hm t Hwf).
  destruct (m t) as [a t'|e t'|]; try exact I. destruct Hm as [Hwf' Hp].
  specialize (Hk a (position t') t' (Inv_here t' Hwf')).
  destruct (k a t') as [b t''|e t''|]; try exact I.
  destruct Hk as [[Hwf'' Hp'] _]. split; [exact Hwf''|lia].
Qed.

Lemma moves_on_bind_r {A B} (m : M A) (k : A -> M B) (P : A -> Prop) :
  (forall p, shifted [] p m P) -> (forall a, P a -> moves_on (k a)) -> moves_on (bind m k).
Proof.
  intros Hm Hk t Hwf. unfold bind. specialize (Hm (position t) t (Inv_here t Hwf)).
  destruct (m t) as [a t'|e t'|]; try exact I. destruct Hm as [[Hwf' Hp] [Pa _]].
  specialize (Hk a Pa t' Hwf').
  destruct (k a t') as [b t''|e t''|]; try exact I.
  destruct Hk as [Hwf'' Hp']. split; [exact Hwf''|lia].
Qed.

Lemma leading_zero_bits_ge rounds : forall msb mask ic,
  ic <= leading_zero_bits rounds msb mask ic.
Proof.
  induction rounds as [|rounds IH]; intros msb mask ic; simpl;
    destruct (_ && _); try lia.
  specialize (IH msb (js_sar mask 1) (ic + 1)). lia.
Qed.

Lemma moves_on_readField : moves_on readField.
Proof.
  unfold readField.
  apply moves_on_bind_r with (P := fun _ => True).
  - intros p. apply shifted_peekNumber; [simpl; lia|intros; exact I].
  - intros msb _. cbv zeta. apply moves_on_bind_l.
    + apply moves_on_readBuffer_none.
      pose proof (leading_zero_bits_ge 8 msb 0x80 0).
      pose proof (buf_length_alloc_ge (leading_zero_bits 8 msb 0x80 0 + 1)). lia.
    + intros [n id] p. shifted_run.
Qed.

Lemma moves_on_readElement : moves_on readElement.
Proof.
  unfold readElement. apply moves_on_bind_l; [apply moves_on_readField|].
  intros id p. shifted_run.
Qed.

Lemma moves_on_parse_ebml fuel : moves_on (parse_ebml fuel).
Proof.
  unfold parse_ebml. apply moves_on_bind_l; [apply moves_on_readElement|].
  intros re p. shifted_run.
Qed.

Lemma moves_on_readTiffIFD b : moves_on (readTiffIFD b).
Proof.
  unfold readTiffIFD. apply moves_on_bind_l.
  - apply moves_on_readToken. destruct b; simpl; lia.
  - intros n p. shifted_run.
Qed.

Lemma moves_on_advances (X : Buffer) {A} (m : M A) : moves_on m -> advances X m.
Proof.
  intros Hm a t' H. specialize (Hm _ (wf_fromBuffer X)). rewrite H in Hm.
  destruct Hm as [_ Hp]. simpl in Hp. exact Hp.
Qed.

Lemma bind_ret {A B} (a : A) (k : A -> M B) t : bind (ret a) k t = k a t.
Proof. reflexivity. Qed.

Lemma readTiffHeader_decoded buffer (b : bool) (version ifdOffset : Z) :
  get (if b then UINT16_BE else UINT16_LE) buffer 2 = inr version ->
  get (if b then UINT32_BE else UINT32_LE) buffer 4 = inr ifdOffset ->
  forall u,
    readTiffHeader buffer b u
    = ((if version =? 42 then
         if (6 <=? ifdOffset) && checkString buffer "CR" (at_offset 8) then
           ret (FT "cr2" "image/x-canon-cr2")
         else if (6 <=? ifdOffset) && (8 <=? ifdOffset)
                 && (check buffer [0x1C; 0x00; 0xFE; 0x00] (at_offset 8)
                     || check buffer [0x1F; 0x00; 0x0B; 0x00] (at_offset 8)) then
           ret (FT "nef" "image/x-nikon-nef")
         else
           ignore ifdOffset ;;
           fileType <- readTiffIFD false ;;
           match fileType with
           | Some _ => ret fileType
           | None => ret (FT "tif" "image/tiff")
           end
       else if version =? 43 then ret (FT "tif" "image/tiff")
       else ret None) : M Detection) u.
Proof.
  intros G2 G4 u. unfold readTiffHeader. rewrite G2. cbn [lift]. rewrite bind_ret.
  rewrite G4. cbn [lift]. rewrite bind_ret. reflexivity.
Qed.

(** [readTiffHeader] either answers from the sample alone, or moves the
    tokenizer on and answers with a type. *)
Lemma readTiffHeader_at_start (X : Buffer) buffer b a t' :
  readTiffHeader buffer b (fromBuffer X None) = Ok a t' ->
  (t' = fromBuffer X None /\ forall u, readTiffHeader buffer b u = Ok a u)
  \/ (0 < position t' /\ a <> None).
Proof.
  intros H.
  destruct (get (if b then UINT16_BE else UINT16_LE) buffer 2) as [e|version] eqn:G2.
  { unfold readTiffHeader in H. rewrite G2 in H. discriminate H. }
  destruct (get (if b then UINT32_BE else UINT32_LE) buffer 4) as [e|ifdOffset] eqn:G4.
  { unfold readTiffHeader in H. rewrite G2 in H. cbn [lift] in H. rewrite bind_ret in H.
    rewrite G4 in H. discriminate H. }
  pose proof (readTiffHeader_decoded buffer b version ifdOffset G2 G4) as E.
  rewrite E in H.
  assert (Pure : forall d : Detection,
             ret d (fromBuffer X None) = Ok a t' ->
             t' = fromBuffer X None /\ forall u : BufferTokenizer, ret d u = Ok a u).
  { intros d Hd. injection Hd as <- <-. split; reflexivity. }
  destruct (version =? 42).
  - destruct ((6 <=? ifdOffset) && checkString buffer "CR" (at_offset 8)).
    { left. destruct (Pure _ H) as [-> Hu]. split; [reflexivity|].
      intros u. rewrite E. apply Hu. }
    destruct ((6 <=? ifdOffset) && (8 <=? ifdOffset) && _).
    { left. destruct (Pure _ H) as [-> Hu]. split; [reflexivity|].
      intros u. rewrite E. apply Hu. }
    right.
    apply get_UINT32_nonneg in G4.
    unfold bind at 1 in H. rewrite ignore_wf in H by (try apply wf_fromBuffer; exact G4).
    set (u := set_position _ _) in H.
    assert (Hu : wf u /\ 0 <= position u).
    { pose proof (wf_fromBuffer X) as Hwf. pose proof Hwf as [_ [Hp _]].
      assert (0 <= buf_length X) by (unfold buf_length; lia).
      subst u. split.
      - apply wf_set_position; [exact Hwf|]. rewrite remaining_start.
        change (position (fromBuffer X None)) with 0.
        change (uint8Array (fromBuffer X None)) with X. lia.
      - rewrite position_set_position, remaining_start.
        change (position (fromBuffer X None)) with 0. lia. }
    destruct Hu as [Hwf Hp]. unfold bind in H.
    pose proof (moves_on_readTiffIFD false u Hwf) as Hm.
    destruct (readTiffIFD false u) as [ft u'|e u'|]; try discriminate.
    destruct Hm as [_ Hp'].
    destruct ft; injection H as <- <-; (split; [lia|discriminate]).
  - left. destruct (version =? 43); destruct (Pure _ H) as [-> Hu];
      (split; [reflexivity|]; intros u; rewrite E; apply Hu).
Qed.

(** *** The cascade from the start of an input *)

(** [asar_probe] only looks at the sample. *)
Lemma asar_probe_pure buffer t :
  match asar_probe buffer t with
  | Ok a t' => t' = t /\ forall u, asar_probe buffer u = Ok a u
  | _ => True
  end.
Proof.
  unfold asar_probe. destruct (_ && _); [|split; reflexivity].
  destruct (readUInt32LE buffer 12) as [e|jsonSize]; [exact I|].
  cbn [lift]. rewrite bind_ret.
  assert (E : forall u,
             (jsonSize <- ret jsonSize ;;
              if (12 <? jsonSize) && (jsonSize + 16 <=? buf_length buffer) then
                let header := utf8_decode (subarray buffer 16 (jsonSize + 16)) in
                if json_has_files header then ret (Some (FT "asar" "application/x-asar"))
                else ret None
              else ret None) u
             = (if (12 <? jsonSize) && (jsonSize + 16 <=? buf_length buffer) then
                  let header := utf8_decode (subarray buffer 16 (jsonSize + 16)) in
                  if json_has_files header then ret (Some (FT "asar" "application/x-asar"))
                  else ret None
                else ret None) u) by reflexivity.
  destruct (_ && _); [|split; [reflexivity|intros u; rewrite E; reflexivity]].
  cbv zeta in *. destruct (json_has_files _);
    (split; [reflexivity|intros u; rewrite E; reflexivity]).
Qed.

Section Stable.
Context (X Y : Buffer) (HX : 512 <= buf_length X).

Lemma upcoming_start n :
  0 <= n <= 512 ->
  upcoming (fromBuffer (X ++ Y) None) n = upcoming (fromBuffer X None) n.
Proof.
  intros Hn. unfold upcoming. cbn [position fromBuffer uint8Array]. cbn [Z.to_nat skipn].
  rewrite firstn_app.
  replace (Z.to_nat n - List.length X)%nat with 0%nat by (unfold buf_length in HX; lia).
  cbn [firstn]. apply app_nil_r.
Qed.

Lemma remaining_min_start n :
  0 <= n <= 512 ->
  Z.min (remaining (fromBuffer (X ++ Y) None)) n = Z.min (remaining (fromBuffer X None)) n.
Proof.
  intros Hn. rewrite !remaining_start. unfold buf_length in *. rewrite length_app. lia.
Qed.

Lemma stable_ret {A} (a : A) : stable X Y (ret a).
Proof. intros a' t' H _. injection H as <- <-. split; reflexivity. Qed.

Lemma stable_throw {A} e : stable X Y (@throw A e).
Proof. intros a t' H. discriminate H. Qed.

Lemma stable_of_advances {A} (m : M A) : advances X m -> stable X Y m.
Proof. intros Hm a t' H Hp. specialize (Hm a t' H). lia. Qed.

(** Peeking up to [n] bytes of the first 512. *)
Lemma stable_bind_peek {B} n target (k : Z * Buffer -> M B) :
  0 < n <= 512 -> (forall r, stable X Y (k r)) ->
  stable X Y (bind (peekBuffer target (Some (opt_length_mayBeLess n))) k).
Proof.
  intros Hn Hk a t'. unfold bind.
  assert (HN : norm_length target (opt_length_mayBeLess n) = n).
  { unfold norm_length, or_default, truthy. simpl.
    destruct (n =? 0) eqn:E; [apply Z.eqb_eq in E; lia|reflexivity]. }
  rewrite !peekBuffer_wf by (try apply wf_fromBuffer; try reflexivity; rewrite HN; lia).
  rewrite HN. change (norm_mayBeLess (opt_length_mayBeLess n)) with true. cbn [negb andb].
  rewrite upcoming_start, remaining_min_start by lia.
  destruct (buf_set _ _ _) as [e|filled]; [intros H; discriminate H|].
  apply Hk.
Qed.

(** Growing the sample to [n] bytes, at most 512. *)
Lemma stable_grow {B} n target (k : Z * Buffer -> M B) :
  0 < n <= 512 -> (forall r, stable X Y (k r)) ->
  stable X Y
    (size <- gets fileInfo_size ;;
     r <- peekBuffer target (Some (opt_length_mayBeLess (Z_min_size n size))) ;;
     k r).
Proof.
  intros Hn Hk a t'. rewrite !bind_gets. unfold bind.
  rewrite !grow_peek_wf by (try apply wf_fromBuffer; lia).
  rewrite upcoming_start, remaining_min_start by lia.
  destruct (buf_set _ _ _) as [e|filled]; [intros H; discriminate H|].
  apply Hk.
Qed.

(** An operation that only looks at the sample. *)
Lemma stable_bind_pure {A B} (m : M A) (k : A -> M B) :
  (forall t, match m t with
             | Ok a t' => t' = t /\ forall u, m u = Ok a u
             | _ => True
             end) ->
  (forall a, stable X Y (k a)) ->
  stable X Y (bind m k).
Proof.
  intros Hm Hk b t'. unfold bind. specialize (Hm (fromBuffer X None)).
  destruct (m (fromBuffer X None)) as [a u|e u|]; try (intros H; discriminate H).
  destruct Hm as [-> Hu]. rewrite Hu. apply Hk.
Qed.

(** The two TIFF probes: a type found by walking the directory ends the
    detection away from the start. *)
Lemma stable_bind_tiff (c : bool) buffer b (rest : M Detection) :
  stable X Y rest ->
  stable X Y
    (fileType <- (if c then readTiffHeader buffer b else ret None) ;;
     match fileType with
     | Some _ => ret fileType
     | None => rest
     end).
Proof.
  intros Hrest. destruct c.
  - intros a t'. unfold bind.
    destruct (readTiffHeader buffer b (fromBuffer X None)) as [ft u|e u|] eqn:E;
      try (intros H; discriminate H).
    apply readTiffHeader_at_start in E. destruct E as [[-> Hu]|[Hp Hft]].
    + rewrite Hu. destruct ft; [apply stable_ret|apply Hrest].
    + destruct ft; [|congruence]. intros H Hp'. injection H as _ <-. lia.
  - intros a t'. rewrite !bind_ret. apply Hrest.
Qed.

End Stable.

Create HintDb stable_db.

Ltac stable_step :=
  lazymatch goal with
  | |- stable _ _ (ret _) => apply stable_ret
  | |- stable _ _ (throw _) => apply stable_throw
  | |- stable _ _
         (bind (gets fileInfo_size)
               (fun size => bind (peekBuffer _ (Some (opt_length_mayBeLess (Z_min_size _ size)))) _))
       =>
      apply stable_grow; [assumption | lia | intros ?]
  | |- stable _ _ (bind (peekBuffer _ (Some (opt_length_mayBeLess _))) _) =>
      apply stable_bind_peek; [assumption | lia | intros ?]
  | |- stable _ _ (bind (asar_probe _) _) =>
      apply stable_bind_pure; [apply asar_probe_pure | intros ?]
  | |- stable _ _ (bind (if _ then readTiffHeader _ _ else ret None) _) =>
      apply stable_bind_tiff
  | |- stable _ _ (if ?c then _ else _) => destruct c
  | |- stable _ _ (match ?x with _ => _ end) => destruct x
  | |- stable _ _ _ =>
      first [ eassumption
            | solve [eauto with stable_db]
            | apply stable_of_advances; solve [eauto with stable_db] ]
  end.

Ltac stable_run := repeat stable_step.

Section StableStages.
Context (X Y : Buffer) (HX : 512 <= buf_length X).

#[local] Hint Resolve advances_parse_zip advances_parse_ogg advances_parse_pdf
  advances_parse_ar advances_parse_png advances_parse_asf advances_parse_jp2 : stable_db.

Lemma advances_parse_ebml fuel : advances X (parse_ebml fuel).
Proof. apply moves_on_advances, moves_on_parse_ebml. Qed.
#[local] Hint Resolve advances_parse_ebml : stable_db.

Lemma stable_signatures_512 buffer : stable X Y (signatures_512 buffer).
Proof. unfold signatures_512. stable_run. Qed.
#[local] Hint Resolve stable_signatures_512 : stable_db.

Lemma stable_signatures_15byte buffer : stable X Y (signatures_15byte buffer).
Proof. unfold signatures_15byte. stable_run. Qed.
#[local] Hint Resolve stable_signatures_15byte : stable_db.

Lemma stable_signatures_unsafe buffer : stable X Y (signatures_unsafe buffer).
Proof. unfold signatures_unsafe. stable_run. Qed.
#[local] Hint Resolve stable_signatures_unsafe : stable_db.

Lemma stable_signatures_12byte fuel buffer : stable X Y (signatures_12byte fuel buffer).
Proof. unfold signatures_12byte. stable_run. Qed.
#[local] Hint Resolve stable_signatures_12byte : stable_db.

Lemma stable_signatures_9byte fuel buffer : stable X Y (signatures_9byte fuel buffer).
Proof. unfold signatures_9byte. stable_run. Qed.
#[local] Hint Resolve stable_signatures_9byte : stable_db.

Lemma stable_signatures_8byte fuel buffer : stable X Y (signatures_8byte fuel buffer).
Proof. unfold signatures_8byte. stable_run. Qed.
#[local] Hint Resolve stable_signatures_8byte : stable_db.

Lemma stable_signatures_7byte fuel buffer : stable X Y (signatures_7byte fuel buffer).
Proof. unfold signatures_7byte. stable_run. Qed.
#[local] Hint Resolve stable_signatures_7byte : stable_db.

Lemma stable_signatures_6byte fuel buffer : stable X Y (signatures_6byte fuel buffer).
Proof. unfold signatures_6byte. stable_run. Qed.
#[local] Hint Resolve stable_signatures_6byte : stable_db.

Lemma stable_signatures_5byte fuel buffer : stable X Y (signatures_5byte fuel buffer).
Proof. unfold signatures_5byte. stable_run. Qed.
#[local] Hint Resolve stable_signatures_5byte : stable_db.

Lemma stable_signatures_after_tiff fuel buffer :
  stable X Y (signatures_after_tiff fuel buffer).
Proof. unfold signatures_after_tiff. stable_run. Qed.
#[local] Hint Resolve stable_signatures_after_tiff : stable_db.

Lemma stable_signatures_after_zip fuel buffer :
  stable X Y (signatures_after_zip fuel buffer).
Proof. unfold signatures_after_zip. stable_run. Qed.
#[local] Hint Resolve stable_signatures_after_zip : stable_db.

Lemma stable_signatures_4byte fuel buffer : stable X Y (signatures_4byte fuel buffer).
Proof. unfold signatures_4byte. stable_run. Qed.
#[local] Hint Resolve stable_signatures_4byte : stable_db.

Lemma stable_signatures_3byte fuel self buffer :
  (forall p, shifted [] p self (fun _ => True)) ->
  stable X Y (signatures_3byte fuel self buffer).
Proof.
  intros Hself.
  pose proof (fun p => shifted_fileTypeFromTokenizer_with [] p self _ (Hself p)) as Hre.
  unfold signatures_3byte.
  destruct (check buffer [0xEF; 0xBB; 0xBF] no_options).
  { apply stable_of_advances, advances_ignore; [exact HX|lia|apply Hself]. }
  do 5 (destruct (check buffer _ no_options); [apply stable_ret|]).
  destruct (checkString buffer "ID3" no_options).
  { apply stable_of_advances, advances_ignore; [exact HX|lia|]. shifted_run. }
  stable_run.
Qed.

Lemma stable_signatures_2byte fuel self buffer :
  (forall p, shifted [] p self (fun _ => True)) ->
  stable X Y (signatures_2byte fuel self buffer).
Proof.
  intros Hself. pose proof (stable_signatures_3byte fuel self buffer Hself) as Hnext.
  unfold signatures_2byte. stable_run.
Qed.

Lemma stable_parse fuel : stable X Y (parse fuel).
Proof.
  destruct fuel as [|fuel]; [intros a t' H; discriminate H|].
  cbn [parse]. intros a t'.
  rewrite !parse_body_wf by apply wf_fromBuffer.
  revert a t'.
  change (stable X Y
            ('(_, buffer) <- peekBuffer (Buffer_alloc minimumBytes)
                               (Some (opt_length_mayBeLess 12)) ;;
             signatures_2byte fuel (parse fuel) buffer)).
  pose proof (fun buffer =>
                stable_signatures_2byte fuel (parse fuel) buffer
                  (fun p => shifted_parse [] p fuel)) as Hnext.
  stable_run.
Qed.

End StableStages.

(** C4, amended.  Let [X] have at least 512 bytes, the largest sample that
    the cascade peeks.  If detection on [X] answers a type and leaves the
    tokenizer at position 0, that is, the answer comes from the probes on
    the sample and not from a walk through a container, then detection on
    [X ++ Y] answers the same type, for every [Y]. *)
Theorem probe_detection_is_prefix_stable :
  forall (X Y : Buffer) (fuel : nat) (r : FileType) (t' : BufferTokenizer),
    512 <= buf_length X ->
    fileTypeFromTokenizer fuel (fromBuffer X None) = Ok (Some r) t' ->
    position t' = 0 ->
    fileTypeFromTokenizer fuel (fromBuffer (X ++ Y) None)
    = Ok (Some r) (fromBuffer (X ++ Y) None)
    /\ fileTypeFromBuffer fuel (AUint8Array X) = Fulfilled (Some r)
    /\ fileTypeFromBuffer fuel (AUint8Array (X ++ Y)) = Fulfilled (Some r).
Proof.
  intros X Y fuel r t' HX H Hp.
  assert (L : forall Z : Buffer, (1 <? buf_length (X ++ Z)) = true).
  { intros Z. apply Z.ltb_lt. unfold buf_length in *. rewrite length_app. lia. }
  assert (LX : (1 <? buf_length X) = true) by (apply Z.ltb_lt; lia).
  unfold fileTypeFromBuffer. rewrite L, LX. cbn [negb]. rewrite H.
  unfold fileTypeFromTokenizer in *. rewrite fileTypeFromTokenizer_with_is_parse in *.
  destruct (stable_parse X Y HX fuel (Some r) t' H Hp) as [_ E].
  rewrite E. repeat split; reflexivity.
Qed.

(** A run of the theorem: a GIF header in 512 bytes, and one more byte. *)
Lemma probe_detection_is_prefix_stable_witness :
  let X := list_byte_of_string "GIF89a" ++ repeat x00 506 in
  let gif := {| ext := "gif"; mime := "image/gif" |} in
  512 <= buf_length X
  /\ fileTypeFromTokenizer 2 (fromBuffer X None) = Ok (Some gif) (fromBuffer X None)
  /\ position (fromBuffer X None) = 0
  /\ fileTypeFromBuffer 2 (AUint8Array (X ++ [x01])) = Fulfilled (Some gif).
Proof.
  intros X gif.
  assert (H0 : 512 <= buf_length X) by (vm_compute; discriminate).
  assert (H1 : fileTypeFromTokenizer 2 (fromBuffer X None) = Ok (Some gif) (fromBuffer X None))
    by (vm_compute; reflexivity).
  assert (H2 : position (fromBuffer X None) = 0) by reflexivity.
  split; [exact H0|]. split; [exact H1|]. split; [exact H2|].
  exact (proj2 (proj2 (probe_detection_is_prefix_stable X [x01] 2 gif (fromBuffer X None)
                         H0 H1 H2))).
Defined.

(** C4, as stated, fails: on the three bytes 00 00 01 the probe for the
    icon signature 00 00 01 00 succeeds, the fourth byte of the sample
    being zero, and the tokenizer has not moved; with the byte B3 appended
    the earlier probe for an MPEG sequence header answers. *)
Lemma short_input_is_not_prefix_stable_counterexample :
  let X := [x00; x00; x01] in
  let Y := [xb3] in
  fileTypeFromTokenizer 2 (fromBuffer X None)
  = Ok (FT "ico" "image/x-icon") (fromBuffer X None)
  /\ position (fromBuffer X None) = 0
  /\ fileTypeFromBuffer 2 (AUint8Array X) = Fulfilled (FT "ico" "image/x-icon")
  /\ fileTypeFromBuffer 2 (AUint8Array (X ++ Y)) = Fulfilled (FT "mpg" "video/mpeg").
Proof.
  intros X Y. repeat split; vm_compute; reflexivity.
Qed.
